(** * Debt planner: the simulation engine of [src/script.js]

    A shallow embedding of [runSimulation] and of the helpers it calls
    ([makeDueDate], [getDueDayOrDefault], [getFirstDueDate],
    [computeBanxicoMonthlyComponents]), and of the values computed by the
    date helpers and by the panels that show a run, followed by their
    properties.

    Conventions of the embedding:
    - JavaScript numbers holding money and rates are exact rationals [Q];
      rounding of binary floating point is not modelled.
    - A JavaScript [Date] built by [new Date(y, m, d)] is a calendar triple
      (year, 0-based month, day), a day at midnight; [newDate] performs the
      constructor's overflow normalisation and dates are compared as the
      timestamps compare, i.e. lexicographically.  The constructor reads a
      year argument from 0 to 99 as 1900 + y and has no date after the year
      275760; [newDate] takes the year as given, and the properties of the
      dates built from a year that comes from outside the run are stated
      for the years of [plainYear].
    - [minObligations] is a finite map from debt id to the debt's queue;
      [currentDebts] and [currentGoals] are arrays updated by index, so that
      an object reached through a sorted copy of an array is the same object
      as the one in the array.
    - Ids are integers, as the application creates them, and names are
      strings.
    - The per-card reporting tables ([rowDebtData], [cardHistories],
      [minDetails], [minPaidThisPeriod]) do not feed back into the engine
      state; they are embedded after the engine, by functions that thread
      them through the same loops and project onto the engine's.  The DOM
      writes are left out: of the rendering functions only the values they
      compute are embedded. *)

From Stdlib Require Import ZArith QArith Lqa Lia Bool String.
From stdpp Require Import base option list gmap sorting.

Local Open Scope Z_scope.

(** ** Numbers *)

Module Num.

Definition qleb (a b : Q) : bool := Qle_bool a b.
Definition qltb (a b : Q) : bool := negb (Qle_bool b a).

(** [Math.min] and [Math.max] on two numbers. *)
Definition qmin (a b : Q) : Q := if qleb a b then a else b.
Definition qmax (a b : Q) : Q := if qleb a b then b else a.

End Num.
Import Num.

(** ** Calendar dates *)

Record Date := mkDate { getFullYear : Z; getMonth : Z; getDate : Z }.

Definition is_leap (y : Z) : bool :=
  ((y mod 4 =? 0) && negb (y mod 100 =? 0)) || (y mod 400 =? 0).

(** Number of days of month [m] (0-based) of year [y]. *)
Definition days_in_month (y m : Z) : Z :=
  if m =? 1 then (if is_leap y then 29 else 28)
  else if (m =? 3) || (m =? 5) || (m =? 8) || (m =? 10) then 30
  else 31.

(** A month index outside 0..11 carries into the year. *)
Definition norm_month (y m : Z) : Z * Z := (y + m / 12, m mod 12).

(** A day outside the month carries into the neighbouring months. *)
Fixpoint norm_day (fuel : nat) (y m d : Z) : Date :=
  match fuel with
  | O => mkDate y m d
  | S f =>
      if d <? 1 then
        let '(y', m') := norm_month y (m - 1) in
        norm_day f y' m' (d + days_in_month y' m')
      else if days_in_month y m <? d then
        let '(y', m') := norm_month y (m + 1) in
        norm_day f y' m' (d - days_in_month y m)
      else mkDate y m d
  end.

(** [new Date(y, m, d)] for integer arguments, the year taken as given.
    The constructor itself reads a year from 0 to 99 as 1900 + y, so the two
    agree on the years of [plainYear] only. *)
Definition newDate (y m d : Z) : Date :=
  let '(y', m') := norm_month y m in
  norm_day (Z.to_nat (Z.abs d) + 2) y' m' d.

(** The years that [new Date(y, m, d)] takes as given and in which every
    day is a date: after 99, and before 275760, the year of the last
    instant a [Date] can hold. *)
Definition plainYear (y : Z) : Prop := 99 < y < 275760.

Definition valid_date (x : Date) : Prop :=
  0 <= getMonth x < 12 /\ 1 <= getDate x <= days_in_month (getFullYear x) (getMonth x).

(** Comparison of two dates by their time value. *)
Definition date_compare (a b : Date) : comparison :=
  match getFullYear a ?= getFullYear b with
  | Eq => match getMonth a ?= getMonth b with
          | Eq => getDate a ?= getDate b
          | c => c
          end
  | c => c
  end.

Definition date_ltb (a b : Date) : bool :=
  match date_compare a b with Lt => true | _ => false end.
Definition date_leb (a b : Date) : bool :=
  match date_compare a b with Gt => false | _ => true end.

Definition date_lt (a b : Date) : Prop := date_compare a b = Lt.
Definition date_le (a b : Date) : Prop := date_compare a b <> Gt.

(** [makeDueDate(year, monthIndex0, dueDay)], for a year of [plainYear]. *)
Definition makeDueDate (year monthIndex0 dueDay : Z) : Date :=
  let lastDay := getDate (newDate year (monthIndex0 + 1) 0) in
  let d := Z.min dueDay lastDay in
  newDate year monthIndex0 d.

(** A date as the profile holds it: the three numbers that [parseYMD] reads
    in a [YYYY-MM-DD] string. *)
Record YMD := mkYMD { ymd_year : Z; ymd_month : Z; ymd_day : Z }.

(** [dateFromYMD(str)] for a well-formed [YYYY-MM-DD] string with a year of
    [plainYear]. *)
Definition dateFromYMD (p : YMD) : Date :=
  newDate (ymd_year p) (ymd_month p - 1) (ymd_day p).

(** ** Data model *)

Module Debt.
Record t := mk {
  id : Z;
  name : string;
  balance : Q;
  rate : Q;
  creditLimit : option Q;
  monthlyMin : Q;
  dueDay : option Z
}.
Definition set_balance (d : t) (b : Q) : t :=
  mk (id d) (name d) b (rate d) (creditLimit d) (monthlyMin d) (dueDay d).
End Debt.

Module Ob.
Record t := mk {
  dueDate : Date;
  amountRemaining : Q;
  monthlyMin : Q;
  banxicoBaseMin : Q
}.
Definition set_amountRemaining (o : t) (a : Q) : t :=
  mk (dueDate o) a (monthlyMin o) (banxicoBaseMin o).
End Ob.

Module Goal.
Record t := mk {
  id : Z;
  name : string;
  targetAmount : Q;
  startingSaved : Q;
  priority : Z;
  saved : Q
}.
Definition set_saved (g : t) (s : Q) : t :=
  mk (id g) (name g) (targetAmount g) (startingSaved g) (priority g) s.
End Goal.

Inductive EventType := income | expense.

Module Ev.
Record t := mk {
  id : Z;
  name : string;
  date : YMD;
  amount : Q;
  type : EventType
}.
End Ev.

Record Item := mkItem { item_name : string; item_amount : Q }.

(** The profile held in the module variable [state]. *)
Record AppState := mkAppState {
  startDate : YMD;
  grossIncome : Q;
  deductions : list Item;
  fixedExpenses : list Item;
  discretionary : Q;
  strategy : string;
  debts : list Debt.t;
  goals : list Goal.t;
  events : list Ev.t
}.

(** ** Due dates and the reference minimum *)

(** [getDueDayOrDefault(debt)] *)
Definition getDueDayOrDefault (debt : Debt.t) : Z :=
  match Debt.dueDay debt with
  | Some raw => if 0 <? raw then Z.min raw 31 else 25
  | None => 25
  end.

(** [getFirstDueDate(simStartDate, debt)], for a start date at midnight in a
    year of [plainYear]. *)
Definition getFirstDueDate (simStartDate : Date) (debt : Debt.t) : Date :=
  let dueDay := getDueDayOrDefault debt in
  let y0 := getFullYear simStartDate in
  let m0 := getMonth simStartDate in
  let candidate := makeDueDate y0 m0 dueDay in
  if date_leb simStartDate candidate then candidate
  else
    let m := m0 + 1 in
    if 11 <? m then makeDueDate (y0 + 1) 0 dueDay
    else makeDueDate y0 m dueDay.

Record Banxico := mkBanxico {
  prevBalance : Q;
  monthlyInterest : Q;
  monthlyIVA : Q;
  base1p5 : Q;
  optionA : Q;
  optionB : Q;
  baseMin : Q
}.

(** [computeBanxicoMonthlyComponents(prevBalance, annualRate, creditLimit)] *)
Definition computeBanxicoMonthlyComponents
    (prevBalance annualRate : Q) (creditLimit : option Q) : Banxico :=
  if qleb prevBalance 0 || qleb annualRate 0 then
    mkBanxico prevBalance 0 0 0 0 0 0
  else
    let monthlyInterest := ((prevBalance * (annualRate / 100)) / 12)%Q in
    let monthlyIVA := (monthlyInterest * (16 # 100))%Q in
    let base1p5 := ((15 # 1000) * prevBalance)%Q in
    let optionA := (base1p5 + monthlyInterest + monthlyIVA)%Q in
    let optionB :=
      match creditLimit with
      | Some cl => if qltb 0 cl then ((125 # 10000) * cl)%Q else 0%Q
      | None => 0%Q
      end in
    let baseMin := qmax optionA optionB in
    let maxPossible := (prevBalance + monthlyInterest + monthlyIVA)%Q in
    let baseMin := if qltb maxPossible baseMin then maxPossible else baseMin in
    mkBanxico prevBalance monthlyInterest monthlyIVA base1p5 optionA optionB baseMin.

(** The threshold under which an amount counts as settled. *)
Definition eps : Q := 1 # 2.

(** The obligation created for [debt] at [dueDate] from [balance]; the same
    object literal is built at seeding and at every rollover. *)
Definition makeObligation (debt : Debt.t) (balance : Q) (dueDate : Date) : Ob.t :=
  let banxico :=
    computeBanxicoMonthlyComponents balance (Debt.rate debt) (Debt.creditLimit debt) in
  let userMin := Debt.monthlyMin debt in
  let monthlyMin :=
    if qltb 0 userMin then qmax userMin (baseMin banxico) else baseMin banxico in
  Ob.mk dueDate monthlyMin monthlyMin (baseMin banxico).

(** ** Seeding of the obligation queues *)

Definition seedOne (simStartDate : Date)
    (minObligations : gmap Z (list Ob.t)) (debt : Debt.t) : gmap Z (list Ob.t) :=
  let balance := Debt.balance debt in
  if qleb balance eps then minObligations
  else
    <[Debt.id debt :=
        [makeObligation debt balance (getFirstDueDate simStartDate debt)]]>
      minObligations.

Definition seedObligations (simStartDate : Date) (currentDebts : list Debt.t)
    : gmap Z (list Ob.t) :=
  foldl (seedOne simStartDate) ∅ currentDebts.

(** ** Interest accrual *)

(** [intereses + iva] charged on a balance for one period. *)
Definition totalCharge (debt : Debt.t) : Q :=
  let prevBalance := Debt.balance debt in
  let intereses := ((prevBalance * (Debt.rate debt / 100)) / 24)%Q in
  let iva := (intereses * (16 # 100))%Q in
  (intereses + iva)%Q.

Definition accrueDebt (debt : Debt.t) : Debt.t :=
  let prevBalance := Debt.balance debt in
  if qleb prevBalance eps then Debt.set_balance debt 0
  else Debt.set_balance debt (prevBalance + totalCharge debt)%Q.

Definition accrueTotal (totalInterestPaid : Q) (debt : Debt.t) : Q :=
  if qleb (Debt.balance debt) eps then totalInterestPaid
  else (totalInterestPaid + totalCharge debt)%Q.

(** ** Obligation rollover *)

(** The month after the month of [d], as the code computes [y] and [m]. *)
Definition nextDueDate (d : Date) (dueDay : Z) : Date :=
  let y := getFullYear d in
  let m := getMonth d + 1 in
  if 11 <? m then makeDueDate (y + 1) 0 dueDay else makeDueDate y m dueDay.

Definition MAX_OBS : nat := 240.

(** The [while] loop that appends obligations to [obs]. *)
Fixpoint rolloverLoop (fuel : nat) (periodEnd : Date) (debt : Debt.t)
    (dueDay : Z) (obs : list Ob.t) (lastOb : Ob.t) : list Ob.t :=
  match fuel with
  | O => obs
  | S fuel' =>
      if date_ltb (Ob.dueDate lastOb) periodEnd
         && (length obs <? MAX_OBS)%nat
         && qltb eps (Debt.balance debt)
      then
        let newOb :=
          makeObligation debt (Debt.balance debt)
            (nextDueDate (Ob.dueDate lastOb) dueDay) in
        rolloverLoop fuel' periodEnd debt dueDay (obs ++ [newOb]) newOb
      else obs
  end.

Definition findDebt (currentDebts : list Debt.t) (debtId : Z) : option Debt.t :=
  snd <$> list_find (λ d, Debt.id d = debtId) currentDebts.

(** The body run for one key of [minObligations]. *)
Definition rolloverEntry (periodEnd : Date) (currentDebts : list Debt.t)
    (debtId : Z) (obs : list Ob.t) : list Ob.t :=
  match findDebt currentDebts debtId with
  | None => obs
  | Some debt =>
      if qleb (Debt.balance debt) eps then obs
      else
        match last obs with
        | None => obs
        | Some lastOb =>
            rolloverLoop (MAX_OBS - length obs) periodEnd debt
              (getDueDayOrDefault debt) obs lastOb
        end
  end.

(** Each key is treated on its own queue and reads the debts only, so the
    order in which [Object.keys] lists the keys does not matter. *)
Definition rollover (periodEnd : Date) (currentDebts : list Debt.t)
    (minObligations : gmap Z (list Ob.t)) : gmap Z (list Ob.t) :=
  map_imap (λ debtId obs, Some (rolloverEntry periodEnd currentDebts debtId obs))
    minObligations.

(** ** [Array.prototype.sort] with a comparator *)

Section StableSort.
Context {A : Type}.
(** [leb a b] holds when the comparator's result on [(a, b)] is not
    positive.  The sort is stable, so with a comparator that is a total
    preorder the result is the one below. *)
Variable leb : A -> A -> bool.

Fixpoint sort_insert (x : A) (l : list A) : list A :=
  match l with
  | [] => [x]
  | y :: l' => if leb x y then x :: l else y :: sort_insert x l'
  end.

Definition stable_sort (l : list A) : list A := foldr sort_insert [] l.
End StableSort.

(** An array element together with its position in the array. *)
Definition indexed {A} (l : list A) : list (nat * A) := imap pair l.

(** ** Minimum-payment settlement *)

Module MinEntry.
(** [{ debt, obs, earliestDue, totalRemaining }]; [ix] is the position of
    [debt] in [currentDebts] and [obs] is the queue stored under the id of
    that debt. *)
Record t := mk { ix : nat; earliestDue : Date; totalRemaining : Q }.
End MinEntry.

Definition isActiveOb (o : Ob.t) : bool := qltb eps (Ob.amountRemaining o).

Definition earliestOf (activeObs : list Ob.t) (first : Date) : Date :=
  foldl (λ min o, if date_ltb (Ob.dueDate o) min then Ob.dueDate o else min)
    first activeObs.

Definition obsOf (minObligations : gmap Z (list Ob.t)) (debt : Debt.t) : list Ob.t :=
  default [] (minObligations !! Debt.id debt).

(** The callback of [currentDebts.map]; [None] stands for [null]. *)
Definition minEntryOf (minObligations : gmap Z (list Ob.t))
    (i : nat) (debt : Debt.t) : option MinEntry.t :=
  let obs := obsOf minObligations debt in
  let activeObs := filter (λ o, isActiveOb o = true) obs in
  match activeObs with
  | [] => None
  | o0 :: _ =>
      if qleb (Debt.balance debt) eps then None
      else
        Some (MinEntry.mk i
                (earliestOf activeObs (Ob.dueDate o0))
                (foldl (λ s o, s + Ob.amountRemaining o)%Q 0%Q activeObs))
  end.

(** [a.earliestDue - b.earliestDue || b.totalRemaining - a.totalRemaining]
    is not positive. *)
Definition minEntry_leb (a b : MinEntry.t) : bool :=
  match date_compare (MinEntry.earliestDue a) (MinEntry.earliestDue b) with
  | Lt => true
  | Gt => false
  | Eq => qleb (MinEntry.totalRemaining b) (MinEntry.totalRemaining a)
  end.

Definition debtsForMin (currentDebts : list Debt.t)
    (minObligations : gmap Z (list Ob.t)) : list MinEntry.t :=
  stable_sort minEntry_leb
    (omap (λ p, minEntryOf minObligations p.1 p.2) (indexed currentDebts)).

(** Positions of the queue in the order of [[...obs].sort(...)]. *)
Definition sortedObs (obs : list Ob.t) : list nat :=
  fst <$> stable_sort
            (λ a b, date_leb (Ob.dueDate a.2) (Ob.dueDate b.2))
            (indexed obs).

Definition min3 (a b c : Q) : Q := qmin (qmin a b) c.

(** Cash, balance of the debt, its queue and [paidMins] while the
    obligations of one debt are visited. *)
Record PayState := mkPay {
  p_cash : Q;
  p_balance : Q;
  p_obs : list Ob.t;
  p_paidMins : Q
}.

(** The body of [for (const ob of sortedObs)] once past the [break] test:
    [None] is [continue]. *)
Definition payOne (s : PayState) (j : nat) : option PayState :=
  match p_obs s !! j with
  | None => None
  | Some ob =>
      if qleb (Ob.amountRemaining ob) eps then None
      else
        let pay := min3 (p_cash s) (Ob.amountRemaining ob) (p_balance s) in
        if qleb pay 0 then None
        else
          Some (mkPay (p_cash s - pay)%Q (p_balance s - pay)%Q
                  (<[j := Ob.set_amountRemaining ob (Ob.amountRemaining ob - pay)%Q]>
                     (p_obs s))
                  (p_paidMins s + pay)%Q)
  end.

Fixpoint payObligations (js : list nat) (s : PayState) : PayState :=
  match js with
  | [] => s
  | j :: rest =>
      if qleb (p_cash s) 0 then s
      else payObligations rest (default s (payOne s j))
  end.

Record SettleState := mkSettle {
  s_cash : Q;
  s_debts : list Debt.t;
  s_obligations : gmap Z (list Ob.t);
  s_paidMins : Q
}.

(** The callback of [debtsForMin.forEach].  The payments are made on the
    objects of the queue stored under the id of the debt; the array written
    for a missing queue by [|| []] is not stored anywhere. *)
Definition settleDebt (s : SettleState) (e : MinEntry.t) : SettleState :=
  match s_debts s !! MinEntry.ix e with
  | None => s
  | Some debt =>
      let obs := obsOf (s_obligations s) debt in
      let r := payObligations (sortedObs obs)
                 (mkPay (s_cash s) (Debt.balance debt) obs (s_paidMins s)) in
      mkSettle (p_cash r)
        (<[MinEntry.ix e := Debt.set_balance debt (p_balance r)]> (s_debts s))
        (match s_obligations s !! Debt.id debt with
         | Some _ => <[Debt.id debt := p_obs r]> (s_obligations s)
         | None => s_obligations s
         end)
        (p_paidMins r)
  end.

Definition settleMinimums (cashAvailable : Q) (currentDebts : list Debt.t)
    (minObligations : gmap Z (list Ob.t)) : SettleState :=
  foldl settleDebt (mkSettle cashAvailable currentDebts minObligations 0)
    (debtsForMin currentDebts minObligations).

(** ** Strategy allocation *)

Module Log.
(** An entry [{ name, amount }] of [strategyLog] or [savingDetails]. *)
Record t := mk { name : string; amount : Q }.
End Log.

Record ExtraState := mkExtra {
  x_extra : Q;
  x_debts : list Debt.t;
  x_log : list Log.t
}.

Definition isActiveDebt (d : Debt.t) : bool := qltb eps (Debt.balance d).

(** Positions and snapshots of [currentDebts.filter((d) => d.balance > 0.5)]. *)
Definition activeDebts (currentDebts : list Debt.t) : list (nat * Debt.t) :=
  filter (λ p, isActiveDebt p.2 = true) (indexed currentDebts).

(** The comparator of the [switch]: [strategy_leb s a b] holds when the
    returned number is not positive. *)
Definition strategy_leb (strategy : string) (a b : Debt.t) : bool :=
  if String.eqb strategy "snowball" then qleb (Debt.balance a) (Debt.balance b)
  else if String.eqb strategy "avalanche" then qleb (Debt.rate b) (Debt.rate a)
  else if String.eqb strategy "highMin" then
    qleb (Debt.monthlyMin b) (Debt.monthlyMin a)
  else if String.eqb strategy "reverseSnowball" then
    qleb (Debt.balance b) (Debt.balance a)
  else qleb (Debt.rate b) (Debt.rate a).

Definition orderedDebts (strategy : string) (currentDebts : list Debt.t)
    : list (nat * Debt.t) :=
  stable_sort (λ a b, strategy_leb strategy a.2 b.2) (activeDebts currentDebts).

(** One iteration of the sequential loop once past the [break] test. *)
Definition payExtra (s : ExtraState) (i : nat) : option ExtraState :=
  match x_debts s !! i with
  | None => None
  | Some debt =>
      let pay := qmin (x_extra s) (Debt.balance debt) in
      if qleb pay 0 then None
      else
        Some (mkExtra (x_extra s - pay)%Q
                (<[i := Debt.set_balance debt (Debt.balance debt - pay)%Q]> (x_debts s))
                (x_log s ++ [Log.mk (Debt.name debt) pay]))
  end.

Fixpoint payOrdered (ixs : list nat) (s : ExtraState) : ExtraState :=
  match ixs with
  | [] => s
  | i :: rest =>
      if qleb (x_extra s) 1 then s
      else payOrdered rest (default s (payExtra s i))
  end.

(** The callback of [activeDebts.forEach] of the proportional variant; both
    [return]s leave the state as it is. *)
Definition payFlat (totalActiveBalance : Q) (s : ExtraState) (i : nat) : ExtraState :=
  if qleb (x_extra s) 1 then s
  else
    match x_debts s !! i with
    | None => s
    | Some debt =>
        let share := (Debt.balance debt / totalActiveBalance)%Q in
        let pay := qmin (x_extra s * share)%Q (Debt.balance debt) in
        if qleb pay 0 then s
        else
          mkExtra (x_extra s - pay)%Q
            (<[i := Debt.set_balance debt (Debt.balance debt - pay)%Q]> (x_debts s))
            (x_log s ++ [Log.mk (Debt.name debt) pay])
    end.

(** [state.strategy || 'snowball'] *)
Definition strategyOrDefault (strategy : string) : string :=
  if String.eqb strategy "" then "snowball"%string else strategy.

Definition applyStrategy (strategy0 : string) (cashAvailable : Q)
    (currentDebts : list Debt.t) : ExtraState :=
  if qltb 1 cashAvailable then
    let strategy := strategyOrDefault strategy0 in
    let active := activeDebts currentDebts in
    let totalActiveBalance :=
      foldl (λ s p, s + Debt.balance p.2)%Q 0%Q active in
    if String.eqb strategy "flat" && qltb 0 totalActiveBalance then
      foldl (payFlat totalActiveBalance)
        (mkExtra cashAvailable currentDebts []) (fst <$> active)
    else
      payOrdered (fst <$> orderedDebts strategy currentDebts)
        (mkExtra cashAvailable currentDebts [])
  else mkExtra cashAvailable currentDebts [].

(** ** Balance cleanup *)

Definition snapDebt (d : Debt.t) : Debt.t :=
  if qltb (Debt.balance d) 1 then Debt.set_balance d 0 else d.

Definition sumBalances (currentDebts : list Debt.t) : Q :=
  foldl (λ s d, s + Debt.balance d)%Q 0%Q currentDebts.

(** ** Goal funding *)

Record GoalState := mkGoalSt {
  g_extra : Q;
  g_goals : list Goal.t;
  g_log : list Log.t
}.

Definition need (g : Goal.t) : Q := (Goal.targetAmount g - Goal.saved g)%Q.

(** [priority || 999] *)
Definition priorityOr (g : Goal.t) : Z :=
  if Goal.priority g =? 0 then 999 else Goal.priority g.

Definition orderedGoals (currentGoals : list Goal.t) : list (nat * Goal.t) :=
  stable_sort (λ a b, priorityOr a.2 <=? priorityOr b.2)
    (filter (λ p, qltb 1 (need p.2) = true) (indexed currentGoals)).

Definition fundOne (s : GoalState) (i : nat) : option GoalState :=
  match g_goals s !! i with
  | None => None
  | Some goal =>
      if qleb (need goal) 0 then None
      else
        let pay := qmin (need goal) (g_extra s) in
        Some (mkGoalSt (g_extra s - pay)%Q
                (<[i := Goal.set_saved goal (Goal.saved goal + pay)%Q]> (g_goals s))
                (g_log s ++ [Log.mk (Goal.name goal) pay]))
  end.

Fixpoint fundOrdered (ixs : list nat) (s : GoalState) : GoalState :=
  match ixs with
  | [] => s
  | i :: rest =>
      if qleb (g_extra s) 1 then s
      else fundOrdered rest (default s (fundOne s i))
  end.

Definition canSaveNow (debtRemaining : Q) (currentGoals : list Goal.t) : bool :=
  qleb debtRemaining 5 && (0 <? length currentGoals)%nat.

Definition fundGoals (cashAvailable debtRemaining : Q) (currentGoals : list Goal.t)
    : GoalState :=
  if qltb 1 cashAvailable && canSaveNow debtRemaining currentGoals then
    fundOrdered (fst <$> orderedGoals currentGoals)
      (mkGoalSt cashAvailable currentGoals [])
  else mkGoalSt cashAvailable currentGoals [].

Definition goalShortfall (currentGoals : list Goal.t) : Q :=
  foldl (λ s g, s + qmax 0 (need g))%Q 0%Q currentGoals.

(** ** Cash events of a period *)

(** The test that sets [include]. *)
Definition includeEvent (simStartDate : Date) (prevPeriodEnd : option Date)
    (periodEnd : Date) (ev : Ev.t) : bool :=
  let evDate := dateFromYMD (Ev.date ev) in
  match prevPeriodEnd with
  | Some prev => date_ltb prev evDate && date_leb evDate periodEnd
  | None => date_leb simStartDate evDate && date_leb evDate periodEnd
  end.

(** [periodIncome], [periodExpense] and [eventLog] after the [forEach]. *)
Definition addEvent (simStartDate : Date) (prevPeriodEnd : option Date)
    (periodEnd : Date) (acc : Q * Q * list Ev.t) (ev : Ev.t) : Q * Q * list Ev.t :=
  let '(periodIncome, periodExpense, eventLog) := acc in
  if includeEvent simStartDate prevPeriodEnd periodEnd ev then
    match Ev.type ev with
    | income => ((periodIncome + Ev.amount ev)%Q, periodExpense, eventLog ++ [ev])
    | expense => (periodIncome, (periodExpense + Ev.amount ev)%Q, eventLog ++ [ev])
    end
  else acc.

Definition sumItems (l : list Item) : Q :=
  foldl (λ s x, s + item_amount x)%Q 0%Q l.

(** ** One period of the loop *)

Module RowData.
(** [rowData] as pushed on [simulationResults]; [periodEnd] stands for the
    formatted [dateStr], [eventLog] for [notes], and [paidMins] is the
    amount shown in the row of the table. *)
Record t := mk {
  id : nat;
  periodEnd : Date;
  income : Q;
  expenses : Q;
  initialCash : Q;
  paidMins : Q;
  strategyDetails : list Log.t;
  savingDetails : list Log.t;
  endBalance : Q;
  pocket : Q;
  eventLog : list Ev.t
}.
End RowData.

(** The variables of [runSimulation] that live across iterations. *)
Record Sim := mkSim {
  currentDebts : list Debt.t;
  currentGoals : list Goal.t;
  minObligations : gmap Z (list Ob.t);
  currentDate : Date;
  prevPeriodEnd : option Date;
  iteration : nat;
  totalInterestPaid : Q;
  debtRemaining : Q;
  totalGoalRemaining : Q;
  carryOver : Q;
  debtFreedomIndex : option nat;
  simulationResults : list RowData.t
}.

Definition simStartDateOf (st : AppState) : Date := dateFromYMD (startDate st).

Definition baseNet (st : AppState) : Q := (grossIncome st - sumItems (deductions st))%Q.
Definition baseFixed (st : AppState) : Q := sumItems (fixedExpenses st).

(** The values computed inside one iteration, in the order of the code. *)
Record Period := mkPeriod {
  periodEnd : Date;
  periodIncome : Q;
  periodExpense : Q;
  eventLog : list Ev.t;
  initialCash : Q;
  accrued : list Debt.t;
  interestTotal : Q;
  rolled : gmap Z (list Ob.t);
  settled : SettleState;
  extraPaid : ExtraState;
  cleaned : list Debt.t;
  debtRemainingEnd : Q;
  funded : GoalState;
  pocket : Q
}.

Definition runPeriod (st : AppState) (s : Sim) : Period :=
  let periodEnd := currentDate s in
  let evs :=
    foldl (addEvent (simStartDateOf st) (prevPeriodEnd s) periodEnd)
      (baseNet st, (baseFixed st + discretionary st)%Q, []) (events st) in
  let periodIncome := evs.1.1 in
  let periodExpense := evs.1.2 in
  let eventLog := evs.2 in
  let netThisPeriod := (periodIncome - periodExpense)%Q in
  let cashAvailable := (netThisPeriod + carryOver s)%Q in
  let accrued := accrueDebt <$> currentDebts s in
  let interestTotal := foldl accrueTotal (totalInterestPaid s) (currentDebts s) in
  let rolled := rollover periodEnd accrued (minObligations s) in
  let settled := settleMinimums cashAvailable accrued rolled in
  let extraPaid := applyStrategy (strategy st) (s_cash settled) (s_debts settled) in
  let cleaned := snapDebt <$> x_debts extraPaid in
  let debtRemaining := sumBalances cleaned in
  let funded := fundGoals (x_extra extraPaid) debtRemaining (currentGoals s) in
  let pocket := qmax 0 (g_extra funded) in
  mkPeriod periodEnd periodIncome periodExpense eventLog cashAvailable
    accrued interestTotal rolled settled extraPaid cleaned debtRemaining
    funded pocket.

(** The date at which the next period ends. *)
Definition advance (currentDate : Date) : Date :=
  let cYear := getFullYear currentDate in
  let cMonth := getMonth currentDate in
  let cDay := getDate currentDate in
  if cDay <=? 15 then newDate cYear (cMonth + 1) 0
  else newDate cYear (cMonth + 1) 15.

(** The object literal [rowData] of iteration number [iteration]. *)
Definition rowData (iteration : nat) (p : Period) : RowData.t :=
  RowData.mk iteration (periodEnd p) (periodIncome p) (periodExpense p)
    (initialCash p) (s_paidMins (settled p)) (x_log (extraPaid p))
    (g_log (funded p)) (debtRemainingEnd p) (pocket p) (eventLog p).

(** The body of the [while] loop. *)
Definition step (st : AppState) (s : Sim) : Sim :=
  let p := runPeriod st s in
  let iteration := S (iteration s) in
  let rowIndexForFreedom := length (simulationResults s) in
  let debtFreedomIndex :=
    match debtFreedomIndex s with
    | None => if qleb (debtRemainingEnd p) 5 then Some rowIndexForFreedom else None
    | Some i => Some i
    end in
  let rowData := rowData iteration p in
  mkSim (cleaned p) (g_goals (funded p)) (s_obligations (settled p))
    (advance (currentDate s)) (Some (periodEnd p)) iteration
    (interestTotal p) (debtRemainingEnd p) (goalShortfall (g_goals (funded p)))
    (pocket p) debtFreedomIndex (simulationResults s ++ [rowData]).

(** ** The simulation *)

Definition MAX_ITERS : nat := 120.

(** The state at the first test of the loop condition. *)
Definition initSim (st : AppState) : Sim :=
  let currentDebts := debts st in
  let currentGoals := (λ g, Goal.set_saved g (Goal.startingSaved g)) <$> goals st in
  let simStartDate := simStartDateOf st in
  let currentDate :=
    newDate (getFullYear simStartDate) (getMonth simStartDate) (getDate simStartDate) in
  mkSim currentDebts currentGoals (seedObligations simStartDate currentDebts)
    currentDate None 0 0 (sumBalances currentDebts) (goalShortfall currentGoals)
    0 None [].

(** The condition of the [while]. *)
Definition loopCond (s : Sim) : bool :=
  (qltb 5 (debtRemaining s) || qltb 5 (totalGoalRemaining s))
  && (iteration s <? MAX_ITERS)%nat.

Fixpoint runLoop (fuel : nat) (st : AppState) (s : Sim) : Sim :=
  match fuel with
  | O => s
  | S fuel' => if loopCond s then runLoop fuel' st (step st s) else s
  end.

Definition runSimulation (st : AppState) : Sim :=
  runLoop MAX_ITERS st (initSim st).

(** The state after [n] passes through the body, whatever the condition. *)
Fixpoint iterate (n : nat) (st : AppState) : Sim :=
  match n with
  | O => initSim st
  | S n' => step st (iterate n' st)
  end.

(** * Predicates used in the statements *)

(** ** Well-formed obligation queues *)

Definition ob_ok (o : Ob.t) : Prop :=
  (0 <= Ob.amountRemaining o)%Q /\ (Ob.amountRemaining o <= Ob.monthlyMin o)%Q.

(** Due dates strictly increase along the queue. *)
Definition sortedByDue (obs : list Ob.t) : Prop :=
  StronglySorted date_lt (Ob.dueDate <$> obs).

Definition queue_ok (obs : list Ob.t) : Prop :=
  Forall ob_ok obs /\ sortedByDue obs.

(** The property carried through the run: besides [queue_ok], due dates are
    calendar dates. *)
Definition queue_wf (obs : list Ob.t) : Prop :=
  queue_ok obs /\ Forall (λ o, valid_date (Ob.dueDate o)) obs.

Definition obligations_ok (m : gmap Z (list Ob.t)) : Prop :=
  map_Forall (λ _ obs, queue_ok obs) m.

Definition obligations_wf (m : gmap Z (list Ob.t)) : Prop :=
  map_Forall (λ _ obs, queue_wf obs) m.


(** [log.reduce((s, x) => s + x.amount, 0)], the [totalStrategy] of a row. *)
Definition logTotal (l : list Log.t) : Q :=
  foldl (λ s x, s + Log.amount x)%Q 0%Q l.


(** ** The rollover loop *)

(** The condition of the [while] and the obligation it appends. *)
Definition rolloverCond (periodEnd : Date) (debt : Debt.t)
    (obs : list Ob.t) (lastOb : Ob.t) : bool :=
  date_ltb (Ob.dueDate lastOb) periodEnd
  && (length obs <? MAX_OBS)%nat
  && qltb eps (Debt.balance debt).

Definition appended (debt : Debt.t) (lastOb : Ob.t) : Ob.t :=
  makeObligation debt (Debt.balance debt)
    (nextDueDate (Ob.dueDate lastOb) (getDueDayOrDefault debt)).

(** The previous due date moved to the next month, its own day clamped to
    the length of that month. *)
Definition oneMonthAfter (d : Date) : Date :=
  let y' := if getMonth d =? 11 then getFullYear d + 1 else getFullYear d in
  let m' := if getMonth d =? 11 then 0 else getMonth d + 1 in
  mkDate y' m' (Z.min (getDate d) (days_in_month y' m')).

(** ** Periods and cash events *)

(** The end date of the period run from the state after [k] periods. *)
Definition periodEndAt (st : AppState) (k : nat) : Date :=
  currentDate (iterate k st).

Definition eventDate (ev : Ev.t) : Date := dateFromYMD (Ev.date ev).

(** The value of [include] for [ev] in the period run after [k] periods. *)
Definition includedAt (st : AppState) (k : nat) (ev : Ev.t) : bool :=
  includeEvent (simStartDateOf st) (prevPeriodEnd (iterate k st))
    (currentDate (iterate k st)) ev.

(** Total amount of the events of one type in a list. *)
Definition eventsTotal (ty : EventType) (evs : list Ev.t) : Q :=
  foldl (λ s ev, match Ev.type ev, ty with
                 | income, income | expense, expense => s + Ev.amount ev
                 | _, _ => s
                 end)%Q 0%Q evs.

(** ** Interest charged and amounts paid *)

Definition qsum (l : list Q) : Q := foldl Qplus 0%Q l.

(** Interest and surcharge put on the balances by one accrual. *)
Definition periodCharges (currentDebts : list Debt.t) : Q :=
  qsum (totalCharge <$> filter (λ d, qltb eps (Debt.balance d) = true) currentDebts).

(** Everything paid towards the debts in a period: minimums and extra. *)
Definition paidInRow (r : RowData.t) : Q :=
  (RowData.paidMins r + logTotal (RowData.strategyDetails r))%Q.

(** ** Balances through the settlement *)

(** The balance of [d'] is the balance of [d] untouched, or it is lower and
    not negative. *)
Definition balance_kept_or_nonneg (d d' : Debt.t) : Prop :=
  (Debt.balance d' <= Debt.balance d)%Q
  /\ (Debt.balance d' = Debt.balance d \/ (0 <= Debt.balance d')%Q).

(** * Sample profiles *)

(** No debt, one goal, and a discretionary allowance above the income: the
    first period ends short of cash. *)
Definition deficitPlan : AppState :=
  mkAppState (mkYMD 2025 1 1) 0 [] [] 50 "snowball" []
    [Goal.mk 1 "Auto" 100 0 1 0] [].

(** One card that can never be paid and one goal. *)
Definition idleDebtPlan : AppState :=
  mkAppState (mkYMD 2025 1 1) 0 [] [] 0 "snowball"
    [Debt.mk 1 "Visa" 1000 0 None 0 (Some 10)]
    [Goal.mk 1 "Auto" 100 0 1 0] [].

(** A bonus dated five days before the start of the plan. *)
Definition earlyEvent : Ev.t := Ev.mk 1 "Bono" (mkYMD 2025 1 5) 500 income.

Definition earlyEventPlan : AppState :=
  mkAppState (mkYMD 2025 1 10) 200 [] [] 0 "snowball" []
    [Goal.mk 1 "Auto" 100 0 1 0] [earlyEvent].

(** A balance under one unit that is written off before any cash arrives. *)
Definition forgivenInterestPlan : AppState :=
  mkAppState (mkYMD 2025 1 1) 0 [] [] 0 "snowball"
    [Debt.mk 1 "Plata" (9 # 10) 24 None 0 (Some 12)]
    [Goal.mk 1 "Auto" 100 0 1 0]
    [Ev.mk 1 "Bono" (mkYMD 2025 1 20) 200 income].

(** A card with a minimum of 1000 and an income three tenths short of it. *)
Definition shortPaymentPlan : AppState :=
  mkAppState (mkYMD 2025 1 1) (9997 # 10) [] [] 0 "snowball"
    [Debt.mk 1 "Visa" 10000 0 None 1000 (Some 10)] [] [].

(** Two cards without interest and an income half a unit above the smaller
    balance. *)
Definition halfUnitPlan : AppState :=
  mkAppState (mkYMD 2025 1 1) (505 # 10) [] [] 0 "snowball"
    [Debt.mk 1 "Visa" 100 0 None 0 (Some 10);
     Debt.mk 2 "Plata" 50 0 None 0 (Some 10)] [] [].

(** The profile the application starts with, from 20 November 2025. *)
Definition defaultData : AppState :=
  mkAppState (mkYMD 2025 11 20) 9250
    [mkItem "Pension Hija" 2000; mkItem "Prestamo Org" 2000;
     mkItem "Credito Nomina" 800]
    [mkItem "Transporte" 672] 300 "snowball"
    [Debt.mk 1 "Didi" (1133459 # 100) (865 # 10) None 1671 (Some 24);
     Debt.mk 2 "Visa 40" (1432618 # 100) 72 None 1500 (Some 18);
     Debt.mk 3 "Plata" 2500 99 None 400 (Some 12)]
    [Goal.mk 1 "Auto" 60000 0 1 0]
    [Ev.mk 1 "Aguinaldo + Qna Full" (mkYMD 2025 12 15) 9250 income;
     Ev.mk 2 "Creme" (mkYMD 2025 12 15) 1526 expense;
     Ev.mk 3 "XS" (mkYMD 2025 12 15) 1700 expense].

(** A card due on the 31st that is never paid, from 15 January 2025. *)
Definition monthEndPlan : AppState :=
  mkAppState (mkYMD 2025 1 15) 0 [] [] 0 "snowball"
    [Debt.mk 1 "Visa" 1000 0 None 100 (Some 31)] [] [].

(** * Further parts of [script.js] *)

(** ** Date strings *)

(** The three numbers that [str.split('-').map(Number)] gives to [parseYMD];
    [None] stands for a part that is missing or is not a number. *)
Record RawYMD := mkRaw { raw_y : option Z; raw_m : option Z; raw_d : option Z }.

(** [!x] for a number that may be missing. *)
Definition falsy (x : option Z) : bool :=
  match x with
  | Some v => v =? 0
  | None => true
  end.

(** [parseYMD(str)]; [None] is [null].  An empty string has a first part
    that reads as 0, so the test on the parts covers it. *)
Definition parseYMD (str : RawYMD) : option YMD :=
  if falsy (raw_y str) || falsy (raw_m str) || falsy (raw_d str) then None
  else Some (mkYMD (default 0 (raw_y str)) (default 0 (raw_m str))
               (default 0 (raw_d str))).

(** [compareYMD(aStr, bStr)] *)
Definition compareYMD (aStr bStr : RawYMD) : Z :=
  match parseYMD aStr, parseYMD bStr with
  | Some a, Some b =>
      if negb (ymd_year a =? ymd_year b) then ymd_year a - ymd_year b
      else if negb (ymd_month a =? ymd_month b) then ymd_month a - ymd_month b
      else ymd_day a - ymd_day b
  | _, _ => 0
  end.

(** [getYearMonthKey(dateObj)] *)
Definition getYearMonthKey (dateObj : Date) : Z :=
  getFullYear dateObj * 100 + (getMonth dateObj + 1).

(** A triple that names a day of the calendar. *)
Definition calendar_ymd (p : YMD) : Prop :=
  1 <= ymd_month p <= 12
  /\ 1 <= ymd_day p <= days_in_month (ymd_year p) (ymd_month p - 1).

(** ** The summary panel *)

(** The figures of [renderSummary]. *)
Definition netIncomeDisplay (st : AppState) : Q :=
  (grossIncome st - sumItems (deductions st))%Q.

Definition availableForDebt (st : AppState) : Q :=
  (netIncomeDisplay st - sumItems (fixedExpenses st) - discretionary st)%Q.

Definition totalDebtStart (st : AppState) : Q :=
  foldl (λ s d, s + Debt.balance d)%Q 0%Q (debts st).

(** ** The target of the current strategy *)

(** [tempD] once sorted, and the debt that [find] returns in it. *)
Definition currentTarget (st : AppState) : option Debt.t :=
  let tempD := stable_sort (strategy_leb (strategy st)) (debts st) in
  snd <$> list_find (λ d, qltb 0 (Debt.balance d) = true) tempD.

(** ** The freedom date *)

(** What the three branches write in [freedomDate] and [freedomTimeLeft]:
    the row whose date is shown with the number of periods, no data, or
    never. *)
Inductive FreedomReport :=
| FreeAt (row : RowData.t) (quincenas : nat)
| SinDatos
| Nunca.

Definition freedomReport (final : Sim) : FreedomReport :=
  match debtFreedomIndex final, last (simulationResults final) with
  | Some i, Some lastRow =>
      FreeAt (default lastRow (simulationResults final !! i)) (i + 1)
  | _, None => SinDatos
  | None, Some _ => Nunca
  end.

(** ** The breakdown of the minimums *)

Module MinDetail.
(** The [components] of an entry of [minDetails]. *)
Record t := mk {
  requiredBefore : Q;
  remainingAfter : Q;
  firstDueDate : option Date;
  nextDueDate : option Date;
  monthlyMin : Q;
  banxicoBaseMin : Q
}.
End MinDetail.

(** The four variables updated by [obs.forEach] in the construction of
    [minDetails]. *)
Definition minDetailStep (periodEnd : Date)
    (acc : Q * Q * option Date * option Date) (ob : Ob.t)
    : Q * Q * option Date * option Date :=
  let '(requiredNow, remainingNow, earliestDue, nextDue) := acc in
  let earliestDue :=
    match earliestDue with
    | None => Some (Ob.dueDate ob)
    | Some e => if date_ltb (Ob.dueDate ob) e then Some (Ob.dueDate ob) else Some e
    end in
  let nextDue :=
    if qltb eps (Ob.amountRemaining ob) then
      match nextDue with
      | None => Some (Ob.dueDate ob)
      | Some e => if date_ltb (Ob.dueDate ob) e then Some (Ob.dueDate ob) else Some e
      end
    else nextDue in
  if date_leb (Ob.dueDate ob) periodEnd then
    ((requiredNow + Ob.monthlyMin ob)%Q, (remainingNow + Ob.amountRemaining ob)%Q,
     earliestDue, nextDue)
  else (requiredNow, remainingNow, earliestDue, nextDue).

(** The [components] built for a queue; [None] when the callback returns
    on an empty queue. *)
Definition minComponents (periodEnd : Date) (obs : list Ob.t) : option MinDetail.t :=
  match obs with
  | [] => None
  | ob0 :: _ =>
      let '(requiredNow, remainingNow, earliestDue, nextDue) :=
        foldl (minDetailStep periodEnd) (0%Q, 0%Q, None, None) obs in
      Some (MinDetail.mk requiredNow remainingNow earliestDue nextDue
              (Ob.monthlyMin ob0) (Ob.banxicoBaseMin ob0))
  end.

(** The names and [components] of [minDetails], in the order of
    [currentDebts]; the amount [paid] of an entry is not modelled. *)
Definition minDetails (periodEnd : Date) (currentDebts : list Debt.t)
    (minObligations : gmap Z (list Ob.t)) : list (string * MinDetail.t) :=
  omap (λ debt,
          match minObligations !! Debt.id debt with
          | None => None
          | Some obs => (λ c, (Debt.name debt, c)) <$> minComponents periodEnd obs
          end) currentDebts.


(** ** What a period may change *)

(** [b] is the debt [a] with another balance. *)
Definition sameDebt (a b : Debt.t) : Prop :=
  b = Debt.set_balance a (Debt.balance b).

(** [b] is [a] after payments: only the balance differs, it is not larger,
    and it is not negative unless it was. *)
Definition paidDown (a b : Debt.t) : Prop :=
  sameDebt a b
  /\ (Debt.balance b <= Debt.balance a)%Q
  /\ ((0 <= Debt.balance a)%Q -> (0 <= Debt.balance b)%Q).

(** [g'] is the goal [g] with more saved, and not beyond its target unless
    nothing was added. *)
Definition fundedUp (g g' : Goal.t) : Prop :=
  g' = Goal.set_saved g (Goal.saved g')
  /\ (Goal.saved g <= Goal.saved g')%Q
  /\ (Goal.saved g' = Goal.saved g \/ (Goal.saved g' <= Goal.targetAmount g)%Q).

(** [o'] is the obligation [o] with no more left to pay than before. *)
Definition paidOb (o o' : Ob.t) : Prop :=
  o' = Ob.set_amountRemaining o (Ob.amountRemaining o')
  /\ (Ob.amountRemaining o' <= Ob.amountRemaining o)%Q.

(** The queues of [m'] are those of [m], under the same keys, with no more
    left to pay on any obligation. *)
Definition queuesPaid (m m' : gmap Z (list Ob.t)) : Prop :=
  forall k,
    match m !! k, m' !! k with
    | Some obs, Some obs' => Forall2 paidOb obs obs'
    | None, None => True
    | _, _ => False
    end.

(** The debt whose queue is stored under [k] at seeding: the last one in the
    array with that id and more than 0.5 of balance. *)
Definition seededDebt (k : Z) (currentDebts : list Debt.t) : option Debt.t :=
  last (filter (λ d, Debt.id d = k /\ qltb eps (Debt.balance d) = true) currentDebts).

Definition queue_sized (obs : list Ob.t) : Prop :=
  (1 <= length obs <= MAX_OBS)%nat.

(** Balances and rates that are not negative. *)
Definition debts_nonneg (l : list Debt.t) : Prop :=
  Forall (λ d, (0 <= Debt.balance d)%Q /\ (0 <= Debt.rate d)%Q) l.

(** Everything paid towards the debts in the rows of a run. *)
Definition totalPaid (rows : list RowData.t) : Q := qsum (paidInRow <$> rows).

(** ** The records kept per card *)

Module Rec.
(** A value of [rowDebtData]. *)
Record t := mk {
  debtId : Z;
  name : string;
  startingBalance : Q;
  interest : Q;
  iva : Q;
  minPaid : Q;
  extraPaid : Q;
  endingBalance : Q;
  banxico : Banxico
}.
(** [rec.minPaid = rec.minPaid + pay; rec.endingBalance = balance] *)
Definition paid_min (r : t) (pay balance : Q) : t :=
  mk (debtId r) (name r) (startingBalance r) (interest r) (iva r)
    (minPaid r + pay)%Q (extraPaid r) balance (banxico r).
(** [rec.extraPaid = rec.extraPaid + pay; rec.endingBalance = balance] *)
Definition paid_extra (r : t) (pay balance : Q) : t :=
  mk (debtId r) (name r) (startingBalance r) (interest r) (iva r)
    (minPaid r) (extraPaid r + pay)%Q balance (banxico r).
End Rec.

Module Hist.
(** An entry of [cardHistories]; [dateLabel] is the formatted [date]. *)
Record t := mk {
  date : Date;
  startingBalance : Q;
  interest : Q;
  iva : Q;
  minPaid : Q;
  extraPaid : Q;
  endingBalance : Q
}.
End Hist.

(** The record written for [debt] by the accrual; [debt] is the debt as it
    is before its balance is charged. *)
Definition accrueRecord (rowDebtData : gmap Z Rec.t) (debt : Debt.t) : gmap Z Rec.t :=
  let prevBalance := Debt.balance debt in
  if qleb prevBalance eps then rowDebtData
  else
    let intereses := ((prevBalance * (Debt.rate debt / 100)) / 24)%Q in
    let iva := (intereses * (16 # 100))%Q in
    let totalCharge := (intereses + iva)%Q in
    let balanceAfterCharge := (prevBalance + totalCharge)%Q in
    <[Debt.id debt :=
        Rec.mk (Debt.id debt) (Debt.name debt) prevBalance intereses iva 0 0
          balanceAfterCharge
          (computeBanxicoMonthlyComponents prevBalance (Debt.rate debt)
             (Debt.creditLimit debt))]> rowDebtData.

Definition accrueLedger (currentDebts : list Debt.t) : gmap Z Rec.t :=
  foldl accrueRecord ∅ currentDebts.

(** The object literal after [rowDebtData[debtId] ||]. *)
Definition freshRec (debt : Debt.t) (before after : Q) : Rec.t :=
  Rec.mk (Debt.id debt) (Debt.name debt) before 0 0 0 0 after
    (computeBanxicoMonthlyComponents before (Debt.rate debt) (Debt.creditLimit debt)).

(** The three statements on [rec] after a minimum payment [pay] that left
    the balance of [debt] at [balance]. *)
Definition recordMin (debt : Debt.t) (balance pay : Q)
    (rowDebtData : gmap Z Rec.t) : gmap Z Rec.t :=
  let rec :=
    default (freshRec debt (balance + pay)%Q balance)
      (rowDebtData !! Debt.id debt) in
  <[Debt.id debt := Rec.paid_min rec pay balance]> rowDebtData.

(** The same after a strategy payment that took the balance from [before]
    to [balance]. *)
Definition recordExtra (debt : Debt.t) (before balance pay : Q)
    (rowDebtData : gmap Z Rec.t) : gmap Z Rec.t :=
  let rec := default (freshRec debt before balance) (rowDebtData !! Debt.id debt) in
  <[Debt.id debt := Rec.paid_extra rec pay balance]> rowDebtData.

(** [payOne] with the record of the payment. *)
Definition payOneL (debt : Debt.t) (sL : PayState * gmap Z Rec.t) (j : nat)
    : option (PayState * gmap Z Rec.t) :=
  let s := sL.1 in
  match p_obs s !! j with
  | None => None
  | Some ob =>
      if qleb (Ob.amountRemaining ob) eps then None
      else
        let pay := min3 (p_cash s) (Ob.amountRemaining ob) (p_balance s) in
        if qleb pay 0 then None
        else
          Some (mkPay (p_cash s - pay)%Q (p_balance s - pay)%Q
                  (<[j := Ob.set_amountRemaining ob (Ob.amountRemaining ob - pay)%Q]>
                     (p_obs s))
                  (p_paidMins s + pay)%Q,
                recordMin debt (p_balance s - pay)%Q pay sL.2)
  end.

Fixpoint payObligationsL (debt : Debt.t) (js : list nat)
    (sL : PayState * gmap Z Rec.t) : PayState * gmap Z Rec.t :=
  match js with
  | [] => sL
  | j :: rest =>
      if qleb (p_cash sL.1) 0 then sL
      else payObligationsL debt rest (default sL (payOneL debt sL j))
  end.

Definition settleDebtL (sL : SettleState * gmap Z Rec.t) (e : MinEntry.t)
    : SettleState * gmap Z Rec.t :=
  let s := sL.1 in
  match s_debts s !! MinEntry.ix e with
  | None => sL
  | Some debt =>
      let obs := obsOf (s_obligations s) debt in
      let r := payObligationsL debt (sortedObs obs)
                 (mkPay (s_cash s) (Debt.balance debt) obs (s_paidMins s), sL.2) in
      (mkSettle (p_cash r.1)
         (<[MinEntry.ix e := Debt.set_balance debt (p_balance r.1)]> (s_debts s))
         (match s_obligations s !! Debt.id debt with
          | Some _ => <[Debt.id debt := p_obs r.1]> (s_obligations s)
          | None => s_obligations s
          end)
         (p_paidMins r.1),
       r.2)
  end.

Definition settleMinimumsL (cashAvailable : Q) (currentDebts : list Debt.t)
    (minObligations : gmap Z (list Ob.t)) (rowDebtData : gmap Z Rec.t)
    : SettleState * gmap Z Rec.t :=
  foldl settleDebtL (mkSettle cashAvailable currentDebts minObligations 0, rowDebtData)
    (debtsForMin currentDebts minObligations).

(** [payExtra] with the record of the payment. *)
Definition payExtraL (sL : ExtraState * gmap Z Rec.t) (i : nat)
    : option (ExtraState * gmap Z Rec.t) :=
  let s := sL.1 in
  match x_debts s !! i with
  | None => None
  | Some debt =>
      let pay := qmin (x_extra s) (Debt.balance debt) in
      if qleb pay 0 then None
      else
        let before := Debt.balance debt in
        Some (mkExtra (x_extra s - pay)%Q
                (<[i := Debt.set_balance debt (Debt.balance debt - pay)%Q]> (x_debts s))
                (x_log s ++ [Log.mk (Debt.name debt) pay]),
              recordExtra debt before (Debt.balance debt - pay)%Q pay sL.2)
  end.

Fixpoint payOrderedL (ixs : list nat) (sL : ExtraState * gmap Z Rec.t)
    : ExtraState * gmap Z Rec.t :=
  match ixs with
  | [] => sL
  | i :: rest =>
      if qleb (x_extra sL.1) 1 then sL
      else payOrderedL rest (default sL (payExtraL sL i))
  end.

Definition payFlatL (totalActiveBalance : Q) (sL : ExtraState * gmap Z Rec.t)
    (i : nat) : ExtraState * gmap Z Rec.t :=
  let s := sL.1 in
  if qleb (x_extra s) 1 then sL
  else
    match x_debts s !! i with
    | None => sL
    | Some debt =>
        let share := (Debt.balance debt / totalActiveBalance)%Q in
        let pay := qmin (x_extra s * share)%Q (Debt.balance debt) in
        if qleb pay 0 then sL
        else
          let before := Debt.balance debt in
          (mkExtra (x_extra s - pay)%Q
             (<[i := Debt.set_balance debt (Debt.balance debt - pay)%Q]> (x_debts s))
             (x_log s ++ [Log.mk (Debt.name debt) pay]),
           recordExtra debt before (Debt.balance debt - pay)%Q pay sL.2)
    end.

Definition applyStrategyL (strategy0 : string) (cashAvailable : Q)
    (currentDebts : list Debt.t) (rowDebtData : gmap Z Rec.t)
    : ExtraState * gmap Z Rec.t :=
  if qltb 1 cashAvailable then
    let strategy := strategyOrDefault strategy0 in
    let active := activeDebts currentDebts in
    let totalActiveBalance :=
      foldl (λ s p, s + Debt.balance p.2)%Q 0%Q active in
    if String.eqb strategy "flat" && qltb 0 totalActiveBalance then
      foldl (payFlatL totalActiveBalance)
        (mkExtra cashAvailable currentDebts [], rowDebtData) (fst <$> active)
    else
      payOrderedL (fst <$> orderedDebts strategy currentDebts)
        (mkExtra cashAvailable currentDebts [], rowDebtData)
  else (mkExtra cashAvailable currentDebts [], rowDebtData).

(** [rowDebtData] when the histories are built in the period run from [s]. *)
Definition periodLedger (st : AppState) (s : Sim) : gmap Z Rec.t :=
  let p := runPeriod st s in
  let afterMins :=
    settleMinimumsL (initialCash p) (accrued p) (rolled p)
      (accrueLedger (currentDebts s)) in
  (applyStrategyL (strategy st) (s_cash afterMins.1) (s_debts afterMins.1)
     afterMins.2).2.

(** The entry pushed for [debt] on its history [historyArr]. *)
Definition historyEntry (periodEnd : Date) (rec : option Rec.t)
    (historyArr : list Hist.t) (debt : Debt.t) : Hist.t :=
  match rec with
  | None =>
      let last :=
        match last historyArr with
        | Some h => Hist.endingBalance h
        | None => Debt.balance debt
        end in
      Hist.mk periodEnd last 0 0 0 0 (Debt.balance debt)
  | Some rec =>
      Hist.mk periodEnd (Rec.startingBalance rec) (Rec.interest rec) (Rec.iva rec)
        (Rec.minPaid rec) (Rec.extraPaid rec) (Rec.endingBalance rec)
  end.

(** The callback of the [forEach] that builds the histories. *)
Definition pushHistory (periodEnd : Date) (rowDebtData : gmap Z Rec.t)
    (cardHistories : gmap Z (list Hist.t)) (debt : Debt.t)
    : gmap Z (list Hist.t) :=
  match cardHistories !! Debt.id debt with
  | None => cardHistories
  | Some historyArr =>
      <[Debt.id debt :=
          historyArr
          ++ [historyEntry periodEnd (rowDebtData !! Debt.id debt) historyArr debt]]>
        cardHistories
  end.

(** [cardHistories[d.id] = []] for every debt. *)
Definition initHistories (currentDebts : list Debt.t) : gmap Z (list Hist.t) :=
  foldl (λ h d, <[Debt.id d := []]> h) ∅ currentDebts.

(** [cardHistories] after [n] passes through the body of the loop. *)
Fixpoint historiesAfter (n : nat) (st : AppState) : gmap Z (list Hist.t) :=
  match n with
  | O => initHistories (debts st)
  | S n' =>
      let s := iterate n' st in
      let p := runPeriod st s in
      foldl (pushHistory (periodEnd p) (periodLedger st s))
        (historiesAfter n' st) (cleaned p)
  end.

(** ** The schedule of a card *)

(** [totalInterest], [totalPaid] and [payoffIndex] after the [forEach] of
    [renderDebtSchedule]; [None] is [-1]. *)
Definition scheduleStep (acc : Q * Q * option nat) (x : nat * Hist.t)
    : Q * Q * option nat :=
  let '(totalInterest, totalPaid, payoffIndex) := acc in
  let h := x.2 in
  ((totalInterest + (Hist.interest h + Hist.iva h))%Q,
   (totalPaid + (Hist.minPaid h + Hist.extraPaid h))%Q,
   match payoffIndex with
   | None => if qleb (Hist.endingBalance h) 5 then Some x.1 else None
   | Some i => Some i
   end).

Definition scheduleTotals (history : list Hist.t) : Q * Q * option nat :=
  foldl scheduleStep (0%Q, 0%Q, None) (indexed history).

(** ** Predicates on the records *)

(** [rec] is the record [rec0] of the accrual after payments that left the
    balance at [b]. *)
Definition recTracks (rec0 rec : Rec.t) (b : Q) : Prop :=
  Rec.startingBalance rec = Rec.startingBalance rec0
  /\ Rec.interest rec = Rec.interest rec0
  /\ Rec.iva rec = Rec.iva rec0
  /\ Rec.endingBalance rec = b
  /\ (0 <= Rec.minPaid rec)%Q
  /\ (0 <= Rec.extraPaid rec)%Q
  /\ (Rec.startingBalance rec + Rec.interest rec + Rec.iva rec
      - Rec.minPaid rec - Rec.extraPaid rec == b)%Q.

(** The record under [k], if any, follows a balance [b]; without a record
    the balance is used up. *)
Definition ledgerTracks (L0 L : gmap Z Rec.t) (k : Z) (b : Q) : Prop :=
  match L0 !! k, L !! k with
  | Some rec0, Some rec => recTracks rec0 rec b
  | None, None => (b <= 0)%Q
  | _, _ => False
  end.

Definition ledgerOk (L0 : gmap Z Rec.t) (currentDebts : list Debt.t)
    (L : gmap Z Rec.t) : Prop :=
  forall i d, currentDebts !! i = Some d ->
              ledgerTracks L0 L (Debt.id d) (Debt.balance d).

Definition distinct_ids (currentDebts : list Debt.t) : Prop :=
  NoDup (Debt.id <$> currentDebts).

(** ** Predicates on the histories *)

(** Each entry starts with the balance the entry before it ended with. *)
Definition chained (arr : list Hist.t) : Prop :=
  forall k h h', arr !! k = Some h -> arr !! S k = Some h' ->
                 Hist.startingBalance h' = Hist.endingBalance h.

(** The figures of an entry add up, or the entry is one without movement
    that ends at 0. *)
Definition entryOk (h : Hist.t) : Prop :=
  (Hist.startingBalance h + Hist.interest h + Hist.iva h
   - Hist.minPaid h - Hist.extraPaid h == Hist.endingBalance h)%Q
  \/ (Hist.interest h = 0%Q /\ Hist.iva h = 0%Q /\ Hist.minPaid h = 0%Q
      /\ Hist.extraPaid h = 0%Q /\ Hist.endingBalance h = 0%Q).

Definition entryNonneg (h : Hist.t) : Prop :=
  (0 <= Hist.startingBalance h)%Q /\ (0 <= Hist.endingBalance h)%Q.

(** ** Totals over the cards *)

(** The figures of a record, 0 where there is none. *)
Definition minPaidAt (o : option Rec.t) : Q := from_option Rec.minPaid 0%Q o.
Definition extraPaidAt (o : option Rec.t) : Q := from_option Rec.extraPaid 0%Q o.
Definition chargeAt (o : option Rec.t) : Q :=
  from_option (λ r, Rec.interest r + Rec.iva r)%Q 0%Q o.

Definition ledgerSum {V} (f : option V -> Q) (ids : list Z) (L : gmap Z V) : Q :=
  qsum ((λ k, f (L !! k)) <$> ids).

(** The total of a figure over the entries that the cards have at
    position [n] of their histories. *)
Definition cardsTotal (f : Hist.t -> Q) (H : gmap Z (list Hist.t)) (n : nat)
    (ids : list Z) : Q :=
  qsum ((λ k, from_option f 0%Q ((H !! k) ≫= (λ arr, arr !! n))) <$> ids).

(** ** The minimums paid per card *)

(** [if (!minPaidThisPeriod[debtId]) minPaidThisPeriod[debtId] = 0] *)
Definition initMinPaid (debtId : Z) (minPaidThisPeriod : gmap Z Q) : gmap Z Q :=
  match minPaidThisPeriod !! debtId with
  | Some v => if Qeq_bool v 0 then <[debtId := 0%Q]> minPaidThisPeriod
              else minPaidThisPeriod
  | None => <[debtId := 0%Q]> minPaidThisPeriod
  end.

(** [minPaidThisPeriod[debtId] += pay]; the key has been set by the test
    above. *)
Definition addMinPaid (debtId : Z) (pay : Q) (minPaidThisPeriod : gmap Z Q)
    : gmap Z Q :=
  <[debtId := (default 0%Q (minPaidThisPeriod !! debtId) + pay)%Q]> minPaidThisPeriod.

(** [payOne] with the amount added to [minPaidThisPeriod]. *)
Definition payOneP (debt : Debt.t) (sM : PayState * gmap Z Q) (j : nat)
    : option (PayState * gmap Z Q) :=
  let s := sM.1 in
  match p_obs s !! j with
  | None => None
  | Some ob =>
      if qleb (Ob.amountRemaining ob) eps then None
      else
        let pay := min3 (p_cash s) (Ob.amountRemaining ob) (p_balance s) in
        if qleb pay 0 then None
        else
          Some (mkPay (p_cash s - pay)%Q (p_balance s - pay)%Q
                  (<[j := Ob.set_amountRemaining ob (Ob.amountRemaining ob - pay)%Q]>
                     (p_obs s))
                  (p_paidMins s + pay)%Q,
                addMinPaid (Debt.id debt) pay sM.2)
  end.

Fixpoint payObligationsP (debt : Debt.t) (js : list nat)
    (sM : PayState * gmap Z Q) : PayState * gmap Z Q :=
  match js with
  | [] => sM
  | j :: rest =>
      if qleb (p_cash sM.1) 0 then sM
      else payObligationsP debt rest (default sM (payOneP debt sM j))
  end.

Definition settleDebtP (sM : SettleState * gmap Z Q) (e : MinEntry.t)
    : SettleState * gmap Z Q :=
  let s := sM.1 in
  match s_debts s !! MinEntry.ix e with
  | None => sM
  | Some debt =>
      let obs := obsOf (s_obligations s) debt in
      let r := payObligationsP debt (sortedObs obs)
                 (mkPay (s_cash s) (Debt.balance debt) obs (s_paidMins s),
                  initMinPaid (Debt.id debt) sM.2) in
      (mkSettle (p_cash r.1)
         (<[MinEntry.ix e := Debt.set_balance debt (p_balance r.1)]> (s_debts s))
         (match s_obligations s !! Debt.id debt with
          | Some _ => <[Debt.id debt := p_obs r.1]> (s_obligations s)
          | None => s_obligations s
          end)
         (p_paidMins r.1),
       r.2)
  end.

Definition settleMinimumsP (cashAvailable : Q) (currentDebts : list Debt.t)
    (minObligations : gmap Z (list Ob.t)) : SettleState * gmap Z Q :=
  foldl settleDebtP (mkSettle cashAvailable currentDebts minObligations 0, ∅)
    (debtsForMin currentDebts minObligations).

(** [minPaidThisPeriod] when the breakdown of the period run from [s] is
    built. *)
Definition periodMinPaid (st : AppState) (s : Sim) : gmap Z Q :=
  let p := runPeriod st s in
  (settleMinimumsP (initialCash p) (accrued p) (rolled p)).2.

(** The names and the amounts [paid] of the entries of [minDetails]. *)
Definition minDetailsPaid (currentDebts : list Debt.t)
    (minObligations : gmap Z (list Ob.t)) (minPaidThisPeriod : gmap Z Q)
    : list (string * Q) :=
  omap (λ debt,
          match minObligations !! Debt.id debt with
          | None => None
          | Some [] => None
          | Some (_ :: _) =>
              Some (Debt.name debt, default 0%Q (minPaidThisPeriod !! Debt.id debt))
          end) currentDebts.

(** [totalMin] of [openActionPlan]. *)
Definition receiptTotalMin (entries : list (string * Q)) : Q :=
  foldl (λ totalMin m, totalMin + m.2)%Q 0%Q entries.

Definition paidAt (o : option Q) : Q := default 0%Q o.

(** ** The list of events *)

(** The numbers that [split('-').map(Number)] reads in the string of the
    date [p]. *)
Definition rawOfYMD (p : YMD) : RawYMD :=
  mkRaw (Some (ymd_year p)) (Some (ymd_month p)) (Some (ymd_day p)).

(** The comparator of [renderEvents] gives a number that is not positive.
    Between dates with three non-zero parts it is a total preorder, and the
    sort is the stable sort by it. *)
Definition event_leb (a b : Ev.t) : bool :=
  compareYMD (rawOfYMD (Ev.date a)) (rawOfYMD (Ev.date b)) <=? 0.

(** [state.events.findIndex((e) => e.id === ev.id)]; [None] is [-1]. *)
Definition originalIndex (events : list Ev.t) (ev : Ev.t) : option nat :=
  fst <$> list_find (λ e, Ev.id e = Ev.id ev) events.

(** The events shown, in order, each with the index given to [openModal]. *)
Definition renderEvents (events : list Ev.t) : list (nat * Ev.t) :=
  omap (λ ev, (λ i, (i, ev)) <$> originalIndex events ev)
    (stable_sort event_leb events).

(** The date of [ev] has three non-zero parts, so that [parseYMD] reads it. *)
Definition wellFormedDate (ev : Ev.t) : Prop :=
  ymd_year (Ev.date ev) <> 0 /\ ymd_month (Ev.date ev) <> 0
  /\ ymd_day (Ev.date ev) <> 0.

(** The order of (year, month, day). *)
Definition ymd_le (a b : YMD) : Prop :=
  ymd_year a < ymd_year b
  \/ (ymd_year a = ymd_year b
      /\ (ymd_month a < ymd_month b
          \/ (ymd_month a = ymd_month b /\ ymd_day a <= ymd_day b))).
(** * Properties *)

(** ** Comparisons of numbers *)

Section NumFacts.

Lemma qleb_true a b : qleb a b = true <-> (a <= b)%Q.
Proof. apply Qle_bool_iff. Qed.

Lemma qleb_false a b : qleb a b = false <-> (b < a)%Q.
Proof.
  unfold qleb. split; intros H.
  - apply Qnot_le_lt. intros Hle. apply Qle_bool_iff in Hle. congruence.
  - destruct (Qle_bool a b) eqn:E; [|reflexivity].
    apply Qle_bool_iff in E. exfalso. eapply Qlt_not_le; eauto.
Qed.

Lemma qltb_true a b : qltb a b = true <-> (a < b)%Q.
Proof. unfold qltb. rewrite negb_true_iff. apply (qleb_false b a). Qed.

Lemma qltb_false a b : qltb a b = false <-> (b <= a)%Q.
Proof. unfold qltb. rewrite negb_false_iff. apply (qleb_true b a). Qed.

Lemma qmin_spec a b :
  ((a <= b)%Q /\ qmin a b = a) \/ ((b < a)%Q /\ qmin a b = b).
Proof.
  unfold qmin. destruct (qleb a b) eqn:E.
  - left. split; [now apply qleb_true|reflexivity].
  - right. split; [now apply qleb_false|reflexivity].
Qed.

Lemma qmax_spec a b :
  ((a <= b)%Q /\ qmax a b = b) \/ ((b < a)%Q /\ qmax a b = a).
Proof.
  unfold qmax. destruct (qleb a b) eqn:E.
  - left. split; [now apply qleb_true|reflexivity].
  - right. split; [now apply qleb_false|reflexivity].
Qed.

End NumFacts.

(** ** Calendar *)

Example makeDueDate_feb : makeDueDate 2025 1 31 = mkDate 2025 1 28.
Proof. reflexivity. Qed.
Example newDate_wrap : newDate 2025 12 15 = mkDate 2026 0 15.
Proof. reflexivity. Qed.


Section Calendar.

Lemma days_in_month_bounds y m : 28 <= days_in_month y m <= 31.
Proof.
  unfold days_in_month.
  destruct (m =? 1); [destruct (is_leap y); lia|].
  destruct ((m =? 3) || (m =? 5) || (m =? 8) || (m =? 10)); lia.
Qed.

Lemma norm_month_range y m : 0 <= (norm_month y m).2 < 12.
Proof. unfold norm_month; simpl. apply Z.mod_pos_bound. lia. Qed.

Lemma norm_month_id y m : 0 <= m < 12 -> norm_month y m = (y, m).
Proof.
  intros Hm. unfold norm_month.
  rewrite Z.div_small, Z.mod_small by lia. f_equal. lia.
Qed.

Lemma norm_month_succ y m :
  0 <= m < 12 ->
  norm_month y (m + 1) = if 11 <? m + 1 then (y + 1, 0) else (y, m + 1).
Proof.
  intros Hm. destruct (11 <? m + 1) eqn:E.
  - apply Z.ltb_lt in E. assert (m = 11) as -> by lia. reflexivity.
  - apply Z.ltb_ge in E. apply norm_month_id. lia.
Qed.

Lemma norm_month_pred_succ y m :
  0 <= m < 12 ->
  let '(y', m') := norm_month y (m + 1) in norm_month y' (m' - 1) = (y, m).
Proof.
  intros Hm. rewrite norm_month_succ by lia.
  destruct (11 <? m + 1) eqn:E.
  - apply Z.ltb_lt in E. assert (m = 11) as -> by lia.
    unfold norm_month. replace (0 - 1) with (-1) by lia.
    change (-1 / 12) with (-1). change (-1 mod 12) with 11. f_equal. lia.
  - replace (m + 1 - 1) with m by lia. now apply norm_month_id.
Qed.

(** Enough fuel always brings the day inside its month. *)
Lemma norm_day_valid fuel : forall y m d,
  0 <= m < 12 ->
  (1 <= d <= days_in_month y m /\ (1 <= fuel)%nat) \/ Z.abs d + 2 <= Z.of_nat fuel ->
  valid_date (norm_day fuel y m d).
Proof.
  induction fuel as [|f IH]; intros y m d Hm Hf.
  - exfalso. destruct Hf as [[_ H]|H]; lia.
  - simpl. destruct (d <? 1) eqn:E1.
    + apply Z.ltb_lt in E1.
      pose proof (days_in_month_bounds (y + (m - 1) / 12) ((m - 1) mod 12)) as Hb.
      apply IH; [apply Z.mod_pos_bound; lia|].
      destruct Hf as [[H _]|H]; [lia|].
      destruct (Z_lt_le_dec
                  (d + days_in_month (y + (m - 1) / 12) ((m - 1) mod 12)) 1);
        [right; lia|left; lia].
    + apply Z.ltb_ge in E1.
      destruct (days_in_month y m <? d) eqn:E2.
      * apply Z.ltb_lt in E2.
        pose proof (days_in_month_bounds y m) as Hb.
        pose proof (days_in_month_bounds (y + (m + 1) / 12) ((m + 1) mod 12)) as Hb'.
        apply IH; [apply Z.mod_pos_bound; lia|].
        destruct Hf as [[H _]|H]; [lia|].
        destruct (Z_le_gt_dec (d - days_in_month y m)
                    (days_in_month (y + (m + 1) / 12) ((m + 1) mod 12)));
          [left; lia|right; lia].
      * apply Z.ltb_ge in E2. split; simpl; lia.
Qed.

Lemma newDate_valid y m d : valid_date (newDate y m d).
Proof.
  unfold newDate. destruct (norm_month y m) as [y' m'] eqn:En.
  pose proof (norm_month_range y m) as Hr. rewrite En in Hr. simpl in Hr.
  apply norm_day_valid; [exact Hr|]. right. lia.
Qed.

Lemma norm_day_S f y m d :
  norm_day (S f) y m d =
    if d <? 1 then
      norm_day f (norm_month y (m - 1)).1 (norm_month y (m - 1)).2
        (d + days_in_month (norm_month y (m - 1)).1 (norm_month y (m - 1)).2)
    else if days_in_month y m <? d then
      norm_day f (norm_month y (m + 1)).1 (norm_month y (m + 1)).2
        (d - days_in_month y m)
    else mkDate y m d.
Proof. reflexivity. Qed.

Lemma norm_day_in_range f y m d :
  1 <= d <= days_in_month y m -> norm_day (S f) y m d = mkDate y m d.
Proof.
  intros Hd. rewrite norm_day_S.
  destruct (d <? 1) eqn:E1; [apply Z.ltb_lt in E1; lia|].
  destruct (days_in_month y m <? d) eqn:E2; [apply Z.ltb_lt in E2; lia|].
  reflexivity.
Qed.

(** A date already in range is left as it is. *)
Lemma newDate_id y m d :
  0 <= m < 12 -> 1 <= d <= days_in_month y m -> newDate y m d = mkDate y m d.
Proof.
  intros Hm Hd. unfold newDate. rewrite norm_month_id by exact Hm.
  replace (Z.to_nat (Z.abs d) + 2)%nat with (S (Z.to_nat (Z.abs d) + 1)) by lia.
  now apply norm_day_in_range.
Qed.

(** Day 0 of the next month is the last day of the month. *)
Lemma newDate_last_day y m :
  0 <= m < 12 -> newDate y (m + 1) 0 = mkDate y m (days_in_month y m).
Proof.
  intros Hm. unfold newDate.
  pose proof (norm_month_pred_succ y m Hm) as Hp.
  destruct (norm_month y (m + 1)) as [y' m'].
  change (Z.to_nat (Z.abs 0) + 2)%nat with 2%nat.
  rewrite norm_day_S. change (0 <? 1) with true. cbv iota.
  rewrite Hp. cbn [fst snd].
  pose proof (days_in_month_bounds y m) as Hb.
  apply norm_day_in_range. lia.
Qed.

Lemma newDate_next_15 y m :
  0 <= m < 12 ->
  newDate y (m + 1) 15 =
    if 11 <? m + 1 then mkDate (y + 1) 0 15 else mkDate y (m + 1) 15.
Proof.
  intros Hm. unfold newDate. rewrite norm_month_succ by exact Hm.
  change (Z.to_nat (Z.abs 15) + 2)%nat with 17%nat.
  destruct (11 <? m + 1) eqn:E.
  - apply norm_day_in_range. pose proof (days_in_month_bounds (y + 1) 0). lia.
  - apply norm_day_in_range. pose proof (days_in_month_bounds y (m + 1)). lia.
Qed.

Lemma makeDueDate_spec y m dueDay :
  0 <= m < 12 -> 1 <= dueDay ->
  makeDueDate y m dueDay = mkDate y m (Z.min dueDay (days_in_month y m)).
Proof.
  intros Hm Hd. unfold makeDueDate.
  rewrite newDate_last_day by exact Hm. simpl.
  pose proof (days_in_month_bounds y m) as Hb.
  apply newDate_id; lia.
Qed.

Lemma getDueDayOrDefault_range debt : 1 <= getDueDayOrDefault debt <= 31.
Proof.
  unfold getDueDayOrDefault. destruct (Debt.dueDay debt) as [raw|]; [|lia].
  destruct (0 <? raw) eqn:E; [apply Z.ltb_lt in E|]; lia.
Qed.

(** *** Order on dates *)

Lemma date_compare_eq a b : date_compare a b = Eq -> a = b.
Proof.
  destruct a as [ya ma da], b as [yb mb db]. unfold date_compare. simpl.
  destruct (ya ?= yb) eqn:Ey; try discriminate.
  destruct (ma ?= mb) eqn:Em; try discriminate.
  intros Ed. apply Z.compare_eq in Ey, Em, Ed. congruence.
Qed.

Lemma date_compare_refl a : date_compare a a = Eq.
Proof. unfold date_compare. now rewrite !Z.compare_refl. Qed.

Lemma date_lt_iff a b :
  date_lt a b <->
  getFullYear a < getFullYear b \/
  (getFullYear a = getFullYear b /\
   (getMonth a < getMonth b \/ (getMonth a = getMonth b /\ getDate a < getDate b))).
Proof.
  unfold date_lt, date_compare.
  destruct (Z.compare_spec (getFullYear a) (getFullYear b));
    destruct (Z.compare_spec (getMonth a) (getMonth b));
    destruct (Z.compare_spec (getDate a) (getDate b));
    split; intros; try discriminate; try reflexivity; lia.
Qed.

Lemma date_compare_antisym a b : date_compare b a = CompOpp (date_compare a b).
Proof.
  unfold date_compare.
  rewrite (Z.compare_antisym (getFullYear a)), (Z.compare_antisym (getMonth a)),
    (Z.compare_antisym (getDate a)).
  destruct (getFullYear a ?= getFullYear b); simpl; try reflexivity.
  destruct (getMonth a ?= getMonth b); reflexivity.
Qed.

Lemma date_lt_trans a b c : date_lt a b -> date_lt b c -> date_lt a c.
Proof. rewrite !date_lt_iff. lia. Qed.

Lemma date_lt_irrefl a : ~ date_lt a a.
Proof. unfold date_lt. rewrite date_compare_refl. discriminate. Qed.

Lemma date_ltb_lt a b : date_ltb a b = true <-> date_lt a b.
Proof.
  unfold date_ltb, date_lt. destruct (date_compare a b); split; congruence.
Qed.

Lemma date_leb_le a b : date_leb a b = true <-> date_le a b.
Proof.
  unfold date_leb, date_le. destruct (date_compare a b); split; congruence.
Qed.

Lemma date_le_iff a b : date_le a b <-> date_lt a b \/ a = b.
Proof.
  unfold date_le, date_lt. split.
  - destruct (date_compare a b) eqn:E; intros H.
    + right. now apply date_compare_eq.
    + now left.
    + congruence.
  - intros [H| ->]; [rewrite H|rewrite date_compare_refl]; discriminate.
Qed.

Lemma date_le_not_lt a b : date_le a b <-> ~ date_lt b a.
Proof.
  unfold date_le, date_lt. rewrite (date_compare_antisym a b).
  destruct (date_compare a b); simpl; split; congruence.
Qed.

Lemma date_le_refl a : date_le a a.
Proof. apply date_le_iff. now right. Qed.

Lemma date_le_trans a b c : date_le a b -> date_le b c -> date_le a c.
Proof.
  rewrite !date_le_iff. intros [H1| ->] [H2| ->]; auto.
  left. eapply date_lt_trans; eauto.
Qed.

Lemma date_lt_le_trans a b c : date_lt a b -> date_le b c -> date_lt a c.
Proof.
  rewrite date_le_iff. intros H1 [H2| <-]; [eapply date_lt_trans; eauto|exact H1].
Qed.

Lemma date_le_lt_trans a b c : date_le a b -> date_lt b c -> date_lt a c.
Proof.
  rewrite date_le_iff. intros [H1| ->] H2; [eapply date_lt_trans; eauto|exact H2].
Qed.

Lemma date_le_or_lt a b : date_le a b \/ date_lt b a.
Proof.
  unfold date_le, date_lt. rewrite (date_compare_antisym a b).
  destruct (date_compare a b); simpl; [left|left|right]; congruence.
Qed.

Lemma date_le_total a b : date_le a b \/ date_le b a.
Proof.
  unfold date_le. rewrite (date_compare_antisym a b).
  destruct (date_compare a b); simpl; [left|left|right]; congruence.
Qed.

Lemma date_le_antisym a b : date_le a b -> date_le b a -> a = b.
Proof.
  rewrite !date_le_iff. intros [H1|H1] [H2|H2]; auto.
  exfalso. apply (date_lt_irrefl a). eapply date_lt_trans; eauto.
Qed.

(** *** The period clock and the due-date clock *)

Lemma advance_valid d : valid_date (advance d).
Proof. unfold advance. destruct (getDate d <=? 15); apply newDate_valid. Qed.

Lemma advance_later d : valid_date d -> date_lt d (advance d).
Proof.
  intros [Hm Hd]. unfold advance. apply date_lt_iff.
  pose proof (days_in_month_bounds (getFullYear d) (getMonth d)) as Hb.
  destruct (getDate d <=? 15) eqn:E.
  - apply Z.leb_le in E. rewrite newDate_last_day by exact Hm. simpl. lia.
  - apply Z.leb_gt in E. rewrite newDate_next_15 by exact Hm.
    destruct (11 <? getMonth d + 1) eqn:E2; simpl; [|apply Z.ltb_ge in E2]; lia.
Qed.

Lemma nextDueDate_spec d dueDay :
  valid_date d -> 1 <= dueDay ->
  nextDueDate d dueDay =
    let y := if getMonth d =? 11 then getFullYear d + 1 else getFullYear d in
    let m := if getMonth d =? 11 then 0 else getMonth d + 1 in
    mkDate y m (Z.min dueDay (days_in_month y m)).
Proof.
  intros [Hm _] Hd. unfold nextDueDate.
  destruct (11 <? getMonth d + 1) eqn:E.
  - apply Z.ltb_lt in E. assert (getMonth d = 11) as -> by lia.
    simpl. apply makeDueDate_spec; lia.
  - apply Z.ltb_ge in E.
    destruct (getMonth d =? 11) eqn:E2; [apply Z.eqb_eq in E2; lia|].
    simpl. apply makeDueDate_spec; lia.
Qed.

Lemma nextDueDate_valid d dueDay :
  valid_date d -> 1 <= dueDay -> valid_date (nextDueDate d dueDay).
Proof.
  intros Hv Hd. rewrite nextDueDate_spec by assumption.
  destruct Hv as [Hm _]. simpl.
  destruct (getMonth d =? 11) eqn:E; [|apply Z.eqb_neq in E];
    split; simpl; try lia.
  - pose proof (days_in_month_bounds (getFullYear d + 1) 0). lia.
  - pose proof (days_in_month_bounds (getFullYear d) (getMonth d + 1)). lia.
Qed.

Lemma nextDueDate_later d dueDay :
  valid_date d -> 1 <= dueDay -> date_lt d (nextDueDate d dueDay).
Proof.
  intros Hv Hd. rewrite nextDueDate_spec by assumption.
  destruct Hv as [Hm _]. apply date_lt_iff. simpl.
  destruct (getMonth d =? 11) eqn:E; [apply Z.eqb_eq in E|apply Z.eqb_neq in E];
    simpl; lia.
Qed.

Lemma getFirstDueDate_valid simStartDate debt :
  valid_date simStartDate -> valid_date (getFirstDueDate simStartDate debt).
Proof.
  intros [Hm _]. unfold getFirstDueDate.
  pose proof (getDueDayOrDefault_range debt) as Hd.
  destruct (date_leb _ _); [unfold makeDueDate; apply newDate_valid|].
  destruct (11 <? _); unfold makeDueDate; apply newDate_valid.
Qed.

End Calendar.

(** ** Sorting *)

Section StableSortFacts.
Context {A : Type} (leb : A -> A -> bool).

Let R (a b : A) : Prop := leb a b = true.

Lemma sort_insert_perm x l : sort_insert leb x l ≡ₚ x :: l.
Proof.
  induction l as [|y l IH]; simpl; [reflexivity|].
  destruct (leb x y); [reflexivity|].
  rewrite IH. apply perm_swap.
Qed.

Lemma stable_sort_perm l : stable_sort leb l ≡ₚ l.
Proof.
  induction l as [|x l IH]; simpl; [reflexivity|].
  unfold stable_sort in *. simpl. rewrite sort_insert_perm. now rewrite IH.
Qed.

Lemma stable_sort_length l : length (stable_sort leb l) = length l.
Proof. apply Permutation_length, stable_sort_perm. Qed.

Hypothesis leb_total : forall a b, leb a b = true \/ leb b a = true.
Hypothesis leb_trans : forall a b c, leb a b = true -> leb b c = true -> leb a c = true.

Lemma sort_insert_sorted x l :
  StronglySorted R l -> StronglySorted R (sort_insert leb x l).
Proof.
  induction l as [|y l IH]; intros Hs; simpl.
  - repeat constructor.
  - inversion Hs as [|? ? Hs' Hall]; subst.
    destruct (leb x y) eqn:E.
    + constructor; [exact Hs|]. constructor; [exact E|].
      eapply Forall_impl; [exact Hall|]. intros z Hz. eapply leb_trans; eauto.
    + constructor; [now apply IH|].
      rewrite sort_insert_perm. constructor; [|exact Hall].
      destruct (leb_total x y) as [H|H]; [congruence|exact H].
Qed.

Lemma stable_sort_sorted l : StronglySorted R (stable_sort leb l).
Proof.
  induction l as [|x l IH]; simpl; [constructor|].
  now apply sort_insert_sorted.
Qed.

(** The first element of the sorted array is below every element. *)
Lemma stable_sort_head h t l :
  stable_sort leb l = h :: t -> forall z, z ∈ l -> leb h z = true.
Proof.
  intros Hs z Hz.
  pose proof (stable_sort_sorted l) as Hsorted.
  pose proof (stable_sort_perm l) as Hperm.
  rewrite Hs in Hsorted, Hperm.
  rewrite <- Hperm in Hz.
  inversion Hsorted as [|? ? _ Hall]; subst.
  apply elem_of_cons in Hz as [->|Hz].
  - destruct (leb_total h h); assumption.
  - rewrite Forall_forall in Hall. now apply Hall.
Qed.
End StableSortFacts.

Lemma StronglySorted_mono {A} (R1 R2 : A -> A -> Prop) l :
  (forall x y, R1 x y -> R2 x y) -> StronglySorted R1 l -> StronglySorted R2 l.
Proof.
  intros HR. induction 1 as [|x l Hs IH Hall]; constructor; [exact IH|].
  eapply Forall_impl; [exact Hall|]. intros y. apply HR.
Qed.

(** Positions kept by [indexed]. *)
Lemma indexed_lookup {A} (l : list A) i x :
  (i, x) ∈ indexed l <-> l !! i = Some x.
Proof.
  unfold indexed. rewrite elem_of_lookup_imap. split.
  - intros (j & y & Heq & Hl). inversion Heq; subst. exact Hl.
  - intros Hl. exists i, x. split; [reflexivity|exact Hl].
Qed.

Lemma indexed_fst {A} (l : list A) : (indexed l).*1 = seq 0 (length l).
Proof.
  unfold indexed. apply list_eq. intros i.
  rewrite list_lookup_fmap, list_lookup_imap.
  destruct (l !! i) as [x|] eqn:E; simpl.
  - symmetry. apply lookup_seq. split; [reflexivity|]. eapply lookup_lt_Some; eauto.
  - symmetry. apply lookup_seq_ge. now apply lookup_ge_None.
Qed.

Lemma indexed_NoDup_fst {A} (l : list A) : NoDup (indexed l).*1.
Proof. rewrite indexed_fst. apply NoDup_seq. Qed.

(** ** The reference minimum *)

Section Banxico.
Local Open Scope Q_scope.

Lemma baseMin_nonneg prev rate cl :
  0 <= baseMin (computeBanxicoMonthlyComponents prev rate cl).
Proof.
  unfold computeBanxicoMonthlyComponents.
  destruct (qleb prev 0) eqn:Ep; simpl; [lra|].
  destruct (qleb rate 0) eqn:Er; simpl; [lra|].
  apply qleb_false in Ep, Er.
  assert (0 < prev * (rate / 100) / 12) as Hi.
  { apply Qlt_shift_div_l; [lra|]. rewrite Qmult_0_l.
    apply Qmult_lt_0_compat; [exact Ep|]. apply Qlt_shift_div_l; lra. }
  set (mi := prev * (rate / 100) / 12) in *.
  match goal with |- context [qmax ?a ?b] =>
    destruct (qmax_spec a b) as [[H1 ->]|[H1 ->]] end;
  match goal with |- context [qltb ?a ?b] =>
    destruct (qltb a b) eqn:E end; try lra.
  all: destruct cl as [c|]; try lra.
  all: destruct (qltb 0 c) eqn:Ec; [apply qltb_true in Ec|]; lra.
Qed.

Lemma makeObligation_amount debt balance due :
  Ob.amountRemaining (makeObligation debt balance due)
  = Ob.monthlyMin (makeObligation debt balance due).
Proof. reflexivity. Qed.

Lemma makeObligation_nonneg debt balance due :
  0 <= Ob.monthlyMin (makeObligation debt balance due).
Proof.
  unfold makeObligation. simpl.
  pose proof (baseMin_nonneg balance (Debt.rate debt) (Debt.creditLimit debt)) as Hb.
  destruct (qltb 0 (Debt.monthlyMin debt)) eqn:E; [|exact Hb].
  destruct (qmax_spec (Debt.monthlyMin debt)
              (baseMin (computeBanxicoMonthlyComponents balance (Debt.rate debt)
                          (Debt.creditLimit debt)))) as [[_ ->]|[H ->]];
    [exact Hb|lra].
Qed.
End Banxico.

(** ** Well-formed obligation queues *)

Section Queues.

Lemma obligations_wf_ok m : obligations_wf m -> obligations_ok m.
Proof. intros H k obs Hk. exact (proj1 (H k obs Hk)). Qed.

Lemma queue_wf_nil : queue_wf [].
Proof. split; [split|]; constructor. Qed.

Lemma makeObligation_ok debt balance due : ob_ok (makeObligation debt balance due).
Proof.
  split.
  - rewrite makeObligation_amount. apply makeObligation_nonneg.
  - rewrite makeObligation_amount. apply Qle_refl.
Qed.

Lemma queue_wf_singleton debt balance due :
  valid_date due -> queue_wf [makeObligation debt balance due].
Proof.
  intros Hv. split; [split|].
  - constructor; [apply makeObligation_ok|constructor].
  - unfold sortedByDue. simpl. repeat constructor.
  - constructor; [exact Hv|constructor].
Qed.

(** *** Seeding *)

Lemma seedOne_wf simStartDate m debt :
  valid_date simStartDate -> obligations_wf m ->
  obligations_wf (seedOne simStartDate m debt).
Proof.
  intros Hv Hm. unfold seedOne.
  destruct (qleb (Debt.balance debt) eps); [exact Hm|].
  apply map_Forall_insert_2; [|exact Hm].
  apply queue_wf_singleton. now apply getFirstDueDate_valid.
Qed.

Lemma seedObligations_wf simStartDate currentDebts :
  valid_date simStartDate ->
  obligations_wf (seedObligations simStartDate currentDebts).
Proof.
  intros Hv. unfold seedObligations.
  assert (obligations_wf (∅ : gmap Z (list Ob.t))) as H0 by apply map_Forall_empty.
  revert H0. generalize (∅ : gmap Z (list Ob.t)).
  induction currentDebts as [|d l IH]; intros m Hm; simpl; [exact Hm|].
  apply IH. now apply seedOne_wf.
Qed.

(** *** Rollover *)

Lemma sorted_below_last (l : list Date) z :
  StronglySorted date_lt l -> last l = Some z -> Forall (λ a, date_le a z) l.
Proof.
  induction l as [|a l IH]; intros Hs Hl; [constructor|].
  inversion Hs as [|? ? Hs' Hall]; subst.
  destruct l as [|b l'].
  - simpl in Hl. inversion Hl; subst. repeat constructor. apply date_le_refl.
  - assert (last (b :: l') = Some z) as Hl' by exact Hl.
    constructor; [|now apply IH].
    apply date_le_iff. left.
    rewrite Forall_forall in Hall. apply Hall.
    rewrite last_lookup in Hl'. eapply list_elem_of_lookup_2; eauto.
Qed.

Lemma queue_wf_snoc obs lastOb newOb :
  queue_wf obs -> last obs = Some lastOb ->
  ob_ok newOb -> valid_date (Ob.dueDate newOb) ->
  date_lt (Ob.dueDate lastOb) (Ob.dueDate newOb) ->
  queue_wf (obs ++ [newOb]).
Proof.
  intros [[Hok Hs] Hv] Hl Hn Hnv Hlt. split; [split|].
  - apply Forall_app. split; [exact Hok|constructor; [exact Hn|constructor]].
  - unfold sortedByDue in *. rewrite fmap_app. simpl.
    apply StronglySorted_app_2; [|exact Hs|repeat constructor].
    intros x1 x2 H1 H2. apply list_elem_of_singleton in H2 as ->.
    assert (last (Ob.dueDate <$> obs) = Some (Ob.dueDate lastOb)) as Hl'.
    { rewrite fmap_last, Hl. reflexivity. }
    pose proof (sorted_below_last _ _ Hs Hl') as Hb.
    rewrite Forall_forall in Hb.
    eapply date_le_lt_trans; [now apply Hb|exact Hlt].
  - apply Forall_app. split; [exact Hv|constructor; [exact Hnv|constructor]].
Qed.

Lemma queue_wf_last_valid obs lastOb :
  queue_wf obs -> last obs = Some lastOb -> valid_date (Ob.dueDate lastOb).
Proof.
  intros [_ Hv] Hl. rewrite Forall_forall in Hv. apply Hv.
  rewrite last_lookup in Hl. eapply list_elem_of_lookup_2; eauto.
Qed.

Lemma rolloverLoop_wf fuel : forall periodEnd debt dueDay obs lastOb,
  1 <= dueDay -> queue_wf obs -> last obs = Some lastOb ->
  queue_wf (rolloverLoop fuel periodEnd debt dueDay obs lastOb).
Proof.
  induction fuel as [|f IH]; intros periodEnd debt dueDay obs lastOb Hd Hq Hl;
    simpl; [exact Hq|].
  destruct (date_ltb (Ob.dueDate lastOb) periodEnd
            && (length obs <? MAX_OBS)%nat && qltb eps (Debt.balance debt));
    [|exact Hq].
  pose proof (queue_wf_last_valid _ _ Hq Hl) as Hv.
  apply IH; [exact Hd| |apply last_snoc].
  eapply queue_wf_snoc; eauto.
  - apply makeObligation_ok.
  - simpl. now apply nextDueDate_valid.
  - simpl. now apply nextDueDate_later.
Qed.

Lemma rolloverEntry_wf periodEnd currentDebts debtId obs :
  queue_wf obs -> queue_wf (rolloverEntry periodEnd currentDebts debtId obs).
Proof.
  intros Hq. unfold rolloverEntry.
  destruct (findDebt currentDebts debtId) as [debt|]; [|exact Hq].
  destruct (qleb (Debt.balance debt) eps); [exact Hq|].
  destruct (last obs) as [lastOb|] eqn:El; [|exact Hq].
  apply rolloverLoop_wf; [|exact Hq|exact El].
  apply getDueDayOrDefault_range.
Qed.

Lemma rollover_lookup periodEnd currentDebts m k :
  rollover periodEnd currentDebts m !! k
  = rolloverEntry periodEnd currentDebts k <$> m !! k.
Proof.
  unfold rollover. rewrite map_lookup_imap. now destruct (m !! k).
Qed.

Lemma rollover_wf periodEnd currentDebts m :
  obligations_wf m -> obligations_wf (rollover periodEnd currentDebts m).
Proof.
  intros Hm k obs Hk. rewrite rollover_lookup in Hk.
  destruct (m !! k) as [obs0|] eqn:E; simpl in Hk; [|discriminate].
  inversion Hk; subst. apply rolloverEntry_wf. exact (Hm k obs0 E).
Qed.

(** *** Payments *)

Lemma min3_le a b c : (min3 a b c <= a /\ min3 a b c <= b /\ min3 a b c <= c)%Q.
Proof.
  unfold min3.
  destruct (qmin_spec a b) as [[H1 ->]|[H1 ->]];
    [destruct (qmin_spec a c) as [[H2 ->]|[H2 ->]]
    |destruct (qmin_spec b c) as [[H2 ->]|[H2 ->]]]; repeat split; lra.
Qed.

Lemma payOne_wf s j s' :
  queue_wf (p_obs s) -> payOne s j = Some s' -> queue_wf (p_obs s').
Proof.
  intros [[Hok Hs] Hv] Hp. unfold payOne in Hp.
  destruct (p_obs s !! j) as [ob|] eqn:Ej; [|discriminate].
  destruct (qleb (Ob.amountRemaining ob) eps); [discriminate|].
  set (pay := min3 (p_cash s) (Ob.amountRemaining ob) (p_balance s)) in *.
  destruct (qleb pay 0) eqn:Epay; [discriminate|].
  apply qleb_false in Epay. inversion Hp; subst; clear Hp. simpl.
  pose proof (min3_le (p_cash s) (Ob.amountRemaining ob) (p_balance s)) as (_ & Hle & _).
  fold pay in Hle.
  assert (ob_ok ob) as [Hob1 Hob2].
  { rewrite Forall_forall in Hok. apply Hok. eapply list_elem_of_lookup_2; eauto. }
  split; [split|].
  - apply Forall_insert; [exact Hok|]. split; simpl; lra.
  - unfold sortedByDue in *. rewrite list_fmap_insert. simpl.
    rewrite list_insert_id; [exact Hs|]. rewrite list_lookup_fmap, Ej. reflexivity.
  - apply Forall_insert; [exact Hv|]. simpl.
    rewrite Forall_forall in Hv. apply Hv. eapply list_elem_of_lookup_2; eauto.
Qed.

Lemma payObligations_wf js : forall s,
  queue_wf (p_obs s) -> queue_wf (p_obs (payObligations js s)).
Proof.
  induction js as [|j js IH]; intros s Hq; simpl; [exact Hq|].
  destruct (qleb (p_cash s) 0); [exact Hq|].
  apply IH. destruct (payOne s j) as [s'|] eqn:E; simpl; [|exact Hq].
  eapply payOne_wf; eauto.
Qed.

Lemma obsOf_wf m debt : obligations_wf m -> queue_wf (obsOf m debt).
Proof.
  intros Hm. unfold obsOf.
  destruct (m !! Debt.id debt) as [obs|] eqn:E; simpl;
    [exact (Hm _ _ E)|apply queue_wf_nil].
Qed.

Lemma settleDebt_wf s e :
  obligations_wf (s_obligations s) -> obligations_wf (s_obligations (settleDebt s e)).
Proof.
  intros Hm. unfold settleDebt.
  destruct (s_debts s !! MinEntry.ix e) as [debt|]; [|exact Hm]. simpl.
  destruct (s_obligations s !! Debt.id debt) eqn:Eq; [|exact Hm].
  apply map_Forall_insert_2; [|exact Hm].
  apply payObligations_wf. simpl. now apply obsOf_wf.
Qed.

Lemma settle_fold_wf es : forall s,
  obligations_wf (s_obligations s) ->
  obligations_wf (s_obligations (foldl settleDebt s es)).
Proof.
  induction es as [|e es IH]; intros s Hm; simpl; [exact Hm|].
  apply IH. now apply settleDebt_wf.
Qed.

Lemma settleMinimums_wf cashAvailable currentDebts m :
  obligations_wf m ->
  obligations_wf (s_obligations (settleMinimums cashAvailable currentDebts m)).
Proof. intros Hm. unfold settleMinimums. now apply settle_fold_wf. Qed.

End Queues.

(** ** The run *)

Section Run.
Variable st : AppState.

Lemma iteration_iterate n : iteration (iterate n st) = n.
Proof. induction n as [|n IH]; simpl; [reflexivity|now rewrite IH]. Qed.

Lemma results_length n : length (simulationResults (iterate n st)) = n.
Proof.
  induction n as [|n IH]; simpl; [reflexivity|].
  rewrite length_app, IH. simpl. lia.
Qed.

(** The row of the period run from the state after [k] periods stays at
    position [k] of the results. *)
Lemma results_lookup n k :
  (k < n)%nat ->
  simulationResults (iterate n st) !! k
  = Some (rowData (S k) (runPeriod st (iterate k st))).
Proof.
  induction n as [|n IH]; intros Hk; [lia|].
  change (simulationResults (iterate (S n) st))
    with (simulationResults (iterate n st)
          ++ [rowData (S (iteration (iterate n st))) (runPeriod st (iterate n st))]).
  destruct (decide (k = n)) as [->|Hne].
  - rewrite lookup_app_r by (rewrite results_length; lia).
    rewrite results_length, Nat.sub_diag, iteration_iterate. reflexivity.
  - rewrite lookup_app_l by (rewrite results_length; lia). apply IH. lia.
Qed.

Lemma simStartDate_valid : valid_date (simStartDateOf st).
Proof. apply newDate_valid. Qed.

Lemma currentDate_init : currentDate (initSim st) = simStartDateOf st.
Proof.
  simpl. destruct simStartDate_valid as [Hm Hd].
  rewrite newDate_id by assumption. now destruct (simStartDateOf st).
Qed.

Lemma currentDate_S n :
  currentDate (iterate (S n) st) = advance (currentDate (iterate n st)).
Proof. reflexivity. Qed.

Lemma currentDate_valid n : valid_date (currentDate (iterate n st)).
Proof.
  destruct n as [|n].
  - change (iterate 0 st) with (initSim st).
    rewrite currentDate_init. apply simStartDate_valid.
  - rewrite currentDate_S. apply advance_valid.
Qed.

Lemma prevPeriodEnd_S n :
  prevPeriodEnd (iterate (S n) st) = Some (currentDate (iterate n st)).
Proof. reflexivity. Qed.

Lemma obligations_wf_step s :
  obligations_wf (minObligations s) -> obligations_wf (minObligations (step st s)).
Proof. intros H. simpl. apply settleMinimums_wf, rollover_wf, H. Qed.

Lemma obligations_wf_iterate n : obligations_wf (minObligations (iterate n st)).
Proof.
  induction n as [|n IH]; simpl iterate.
  - apply seedObligations_wf, simStartDate_valid.
  - now apply obligations_wf_step.
Qed.

(** *** The loop and its fuel *)

Lemma loopCond_spec s :
  loopCond s = true <->
  ((5 < debtRemaining s)%Q \/ (5 < totalGoalRemaining s)%Q)
  /\ (iteration s < MAX_ITERS)%nat.
Proof.
  unfold loopCond. rewrite andb_true_iff, orb_true_iff, !qltb_true.
  rewrite Nat.ltb_lt. reflexivity.
Qed.

Lemma loopCond_false s :
  loopCond s = false <->
  ((debtRemaining s <= 5)%Q /\ (totalGoalRemaining s <= 5)%Q)
  \/ (MAX_ITERS <= iteration s)%nat.
Proof.
  unfold loopCond. rewrite andb_false_iff, orb_false_iff, !qltb_false.
  rewrite Nat.ltb_ge. reflexivity.
Qed.

(** Running the loop from the state after [n] periods stops at a state
    after [n + m] periods; the body ran only where the condition held, and
    the loop stopped on the condition unless the fuel ran out. *)
Lemma runLoop_iterate fuel : forall n,
  exists m, (m <= fuel)%nat
    /\ runLoop fuel st (iterate n st) = iterate (n + m) st
    /\ (forall k, (n <= k < n + m)%nat -> loopCond (iterate k st) = true)
    /\ ((m < fuel)%nat -> loopCond (iterate (n + m) st) = false).
Proof.
  induction fuel as [|f IH]; intros n.
  - exists 0%nat. rewrite Nat.add_0_r. simpl. repeat split; intros; lia.
  - simpl. destruct (loopCond (iterate n st)) eqn:E.
    + destruct (IH (S n)) as (m & Hm & Hrun & Hbody & Hstop).
      exists (S m). replace (n + S m)%nat with (S n + m)%nat by lia.
      split; [lia|]. split; [exact Hrun|]. split.
      * intros k Hk. destruct (decide (k = n)) as [->|Hne]; [exact E|].
        apply Hbody. lia.
      * intros Hlt. apply Hstop. lia.
    + exists 0%nat. rewrite Nat.add_0_r. repeat split; try lia; auto.
Qed.

Lemma runLoop_stops fuel :
  (MAX_ITERS <= fuel)%nat ->
  exists m, (m <= MAX_ITERS)%nat
    /\ runLoop fuel st (initSim st) = iterate m st
    /\ (forall k, (k < m)%nat -> loopCond (iterate k st) = true)
    /\ loopCond (iterate m st) = false.
Proof.
  intros Hfuel. destruct (runLoop_iterate fuel 0) as (m & Hm & Hrun & Hbody & Hstop).
  simpl in *. exists m.
  assert (loopCond (iterate m st) = false) as Hfalse.
  { destruct (decide (m < fuel)%nat) as [Hlt|Hge]; [now apply Hstop|].
    apply loopCond_false. right. rewrite iteration_iterate. lia. }
  assert (m <= MAX_ITERS)%nat as Hle.
  { destruct m as [|m']; [lia|].
    assert (loopCond (iterate m' st) = true) as Hc by (apply Hbody; lia).
    apply loopCond_spec in Hc. rewrite iteration_iterate in Hc. lia. }
  repeat split; try assumption. intros k Hk. apply Hbody. lia.
Qed.


End Run.

(** ** Where the cash of a period goes *)

Section Cash.
Local Open Scope Q_scope.

Lemma logTotal_snoc l x : logTotal (l ++ [x]) = logTotal l + Log.amount x.
Proof. unfold logTotal. now rewrite foldl_app. Qed.

Lemma payOne_cash s j s' :
  payOne s j = Some s' -> p_cash s' + p_paidMins s' == p_cash s + p_paidMins s.
Proof.
  unfold payOne. destruct (p_obs s !! j) as [ob|]; [|discriminate].
  destruct (qleb (Ob.amountRemaining ob) eps); [discriminate|].
  destruct (qleb _ 0); [discriminate|].
  intros H. inversion H; subst; clear H. simpl. ring.
Qed.

Lemma payObligations_cash js : forall s,
  p_cash (payObligations js s) + p_paidMins (payObligations js s)
  == p_cash s + p_paidMins s.
Proof.
  induction js as [|j js IH]; intros s; simpl; [reflexivity|].
  destruct (qleb (p_cash s) 0); [reflexivity|].
  rewrite IH. destruct (payOne s j) as [s'|] eqn:E; simpl; [|reflexivity].
  eapply payOne_cash; eauto.
Qed.

Lemma settleDebt_cash s e :
  s_cash (settleDebt s e) + s_paidMins (settleDebt s e) == s_cash s + s_paidMins s.
Proof.
  unfold settleDebt. destruct (s_debts s !! MinEntry.ix e) as [debt|]; [|reflexivity].
  simpl. now rewrite payObligations_cash.
Qed.

Lemma settle_fold_cash es : forall s,
  s_cash (foldl settleDebt s es) + s_paidMins (foldl settleDebt s es)
  == s_cash s + s_paidMins s.
Proof.
  induction es as [|e es IH]; intros s; simpl; [reflexivity|].
  rewrite IH. apply settleDebt_cash.
Qed.

Lemma settleMinimums_cash cashAvailable currentDebts m :
  let r := settleMinimums cashAvailable currentDebts m in
  s_cash r == cashAvailable - s_paidMins r.
Proof.
  simpl. pose proof (settle_fold_cash (debtsForMin currentDebts m)
                       (mkSettle cashAvailable currentDebts m 0)) as H.
  unfold settleMinimums. simpl in H. lra.
Qed.

Lemma payExtra_cash s i s' :
  payExtra s i = Some s' ->
  x_extra s' + logTotal (x_log s') == x_extra s + logTotal (x_log s).
Proof.
  unfold payExtra. destruct (x_debts s !! i) as [debt|]; [|discriminate].
  destruct (qleb _ 0); [discriminate|].
  intros H. inversion H; subst; clear H. simpl. rewrite logTotal_snoc. simpl. ring.
Qed.

Lemma payOrdered_cash ixs : forall s,
  x_extra (payOrdered ixs s) + logTotal (x_log (payOrdered ixs s))
  == x_extra s + logTotal (x_log s).
Proof.
  induction ixs as [|i ixs IH]; intros s; simpl; [reflexivity|].
  destruct (qleb (x_extra s) 1); [reflexivity|].
  rewrite IH. destruct (payExtra s i) as [s'|] eqn:E; simpl; [|reflexivity].
  eapply payExtra_cash; eauto.
Qed.

Lemma payFlat_cash total s i :
  x_extra (payFlat total s i) + logTotal (x_log (payFlat total s i))
  == x_extra s + logTotal (x_log s).
Proof.
  unfold payFlat. destruct (qleb (x_extra s) 1); [reflexivity|].
  destruct (x_debts s !! i) as [debt|]; [|reflexivity].
  destruct (qleb _ 0); [reflexivity|].
  simpl. rewrite logTotal_snoc. simpl. ring.
Qed.

Lemma payFlat_fold_cash total ixs : forall s,
  x_extra (foldl (payFlat total) s ixs) + logTotal (x_log (foldl (payFlat total) s ixs))
  == x_extra s + logTotal (x_log s).
Proof.
  induction ixs as [|i ixs IH]; intros s; simpl; [reflexivity|].
  rewrite IH. apply payFlat_cash.
Qed.

Lemma applyStrategy_cash strategy0 cashAvailable currentDebts :
  let r := applyStrategy strategy0 cashAvailable currentDebts in
  x_extra r == cashAvailable - logTotal (x_log r).
Proof.
  simpl. unfold applyStrategy.
  destruct (qltb 1 cashAvailable); [|simpl; unfold logTotal; simpl; ring].
  match goal with |- context [if ?c then _ else _] => destruct c end.
  - match goal with |- context [foldl (payFlat ?t) ?s ?l] =>
      pose proof (payFlat_fold_cash t l s) as H end.
    simpl in H. unfold logTotal at 2 in H. simpl in H. lra.
  - match goal with |- context [payOrdered ?l ?s] =>
      pose proof (payOrdered_cash l s) as H end.
    simpl in H. unfold logTotal at 2 in H. simpl in H. lra.
Qed.

Lemma fundOne_cash s i s' :
  fundOne s i = Some s' ->
  g_extra s' + logTotal (g_log s') == g_extra s + logTotal (g_log s).
Proof.
  unfold fundOne. destruct (g_goals s !! i) as [goal|]; [|discriminate].
  destruct (qleb _ 0); [discriminate|].
  intros H. inversion H; subst; clear H. simpl. rewrite logTotal_snoc. simpl. ring.
Qed.

Lemma fundOrdered_cash ixs : forall s,
  g_extra (fundOrdered ixs s) + logTotal (g_log (fundOrdered ixs s))
  == g_extra s + logTotal (g_log s).
Proof.
  induction ixs as [|i ixs IH]; intros s; simpl; [reflexivity|].
  destruct (qleb (g_extra s) 1); [reflexivity|].
  rewrite IH. destruct (fundOne s i) as [s'|] eqn:E; simpl; [|reflexivity].
  eapply fundOne_cash; eauto.
Qed.

Lemma fundGoals_cash cashAvailable debtRemaining currentGoals :
  let r := fundGoals cashAvailable debtRemaining currentGoals in
  g_extra r == cashAvailable - logTotal (g_log r).
Proof.
  simpl. unfold fundGoals.
  destruct (qltb 1 cashAvailable && canSaveNow debtRemaining currentGoals);
    [|simpl; unfold logTotal; simpl; ring].
  match goal with |- context [fundOrdered ?l ?s] =>
    pose proof (fundOrdered_cash l s) as H end.
  simpl in H. unfold logTotal at 2 in H. simpl in H. lra.
Qed.

(** The cash left at the end of a period is the cash the period started
    with, less what went to minimums, to the strategy and to the goals. *)
Lemma period_cash st s :
  let p := runPeriod st s in
  g_extra (funded p)
  == initialCash p - s_paidMins (settled p) - logTotal (x_log (extraPaid p))
     - logTotal (g_log (funded p)).
Proof.
  intros p.
  pose proof (fundGoals_cash (x_extra (extraPaid p)) (debtRemainingEnd p)
                (currentGoals s)) as Hg.
  pose proof (applyStrategy_cash (strategy st) (s_cash (settled p))
                (s_debts (settled p))) as Hx.
  pose proof (settleMinimums_cash (initialCash p) (accrued p) (rolled p)) as Hs.
  cbv zeta in Hg, Hx, Hs.
  change (fundGoals _ _ _) with (funded p) in Hg.
  change (applyStrategy _ _ _) with (extraPaid p) in Hx.
  change (settleMinimums _ _ _) with (settled p) in Hs.
  lra.
Qed.

Lemma qmax_0_nonneg x : 0 <= qmax 0 x.
Proof. destruct (qmax_spec 0 x) as [[H ->]|[H ->]]; lra. Qed.

Lemma carryOver_nonneg st n : 0 <= carryOver (iterate n st).
Proof. destruct n; simpl; [lra|apply qmax_0_nonneg]. Qed.

End Cash.

(** ** The default profile *)

(** In the first period the 3478 of cash retire the first obligation of
    Plata in full and nothing is left for the strategy; in the second
    period, whose end date is that of the three events, the minimums are
    covered and the snowball starts with Plata. *)
Example defaultData_first_periods :
  let p1 := runPeriod defaultData (initSim defaultData) in
  let p2 := runPeriod defaultData (iterate 1 defaultData) in
  Qred (initialCash p1) = 3478%Q
  /\ Qred <$> (Ob.amountRemaining <$> default [] (s_obligations (settled p1) !! 3))
     = [0%Q]
  /\ x_log (extraPaid p1) = []
  /\ Ev.id <$> eventLog p2 = [1; 2; 3]
  /\ Qred (s_paidMins (settled p2)) = 2164%Q
  /\ Log.name <$> x_log (extraPaid p2) = ["Plata"%string; "Didi"%string].
Proof. vm_compute. repeat split. Qed.

(** ** Termination of the loop *)


(** ** Carry-over *)

(** C10: the carry-over is 0 when the run starts and is never negative at a
    period boundary; a period that ends with negative cash hands over
    exactly 0, a period that ends with cash left hands it over in full, and
    the cash of a period is its net income plus the carry-over it received,
    so a deficit is not charged to the next period. *)
Theorem C10_carry_over_never_negative (st : AppState) :
  carryOver (initSim st) = 0%Q
  /\ (forall n, (0 <= carryOver (iterate n st))%Q)
  /\ (forall s,
        let p := runPeriod st s in
        ((g_extra (funded p) < 0)%Q -> carryOver (step st s) = 0%Q)
        /\ ((0 <= g_extra (funded p))%Q -> carryOver (step st s) = g_extra (funded p))
        /\ initialCash (runPeriod st (step st s))
           = (periodIncome (runPeriod st (step st s))
              - periodExpense (runPeriod st (step st s))
              + carryOver (step st s))%Q).
Proof.
  split; [reflexivity|]. split; [apply carryOver_nonneg|].
  intros s p. change (carryOver (step st s)) with (qmax 0 (g_extra (funded p))).
  split; [|split].
  - intros H. destruct (qmax_spec 0 (g_extra (funded p))) as [[H' _]|[_ ->]];
      [lra|reflexivity].
  - intros H. destruct (qmax_spec 0 (g_extra (funded p))) as [[_ ->]|[H' _]];
      [reflexivity|lra].
  - reflexivity.
Qed.

(** C5, as stated, fails: in the first period of [deficitPlan] the cash left
    after aggregation, settlement, strategy and goal funding is -50, and the
    carry-over handed to the second period is 0. *)
Lemma C5_counterexample_deficit_not_carried :
  let s := initSim deficitPlan in
  let p := runPeriod deficitPlan s in
  loopCond s = true
  /\ (g_extra (funded p) == -50)%Q
  /\ carryOver (step deficitPlan s) = 0%Q
  /\ ~ (carryOver (step deficitPlan s) == g_extra (funded p))%Q.
Proof. vm_compute. repeat split; intros H; discriminate H. Qed.

(** C5, amended: the carry-over handed to the next period is the cash left
    after the period's cash aggregation, minimum-payment settlement, strategy
    allocation and goal funding when that remainder is not negative, and 0
    when it is negative; the remainder is the cash the period started with
    less the minimums, the strategy payments and the goal funding. *)
Theorem C5_carry_over_is_clamped_remainder (st : AppState) (s : Sim) :
  let p := runPeriod st s in
  let remainder := g_extra (funded p) in
  carryOver (step st s) = (if qleb 0 remainder then remainder else 0%Q)
  /\ RowData.pocket <$> last (simulationResults (step st s)) = Some (carryOver (step st s))
  /\ (remainder
      == initialCash p - s_paidMins (settled p) - logTotal (x_log (extraPaid p))
         - logTotal (g_log (funded p)))%Q
  /\ (initialCash p == periodIncome p - periodExpense p + carryOver s)%Q.
Proof.
  intros p remainder. split; [reflexivity|]. split.
  - simpl. rewrite last_snoc. reflexivity.
  - split; [apply period_cash|reflexivity].
Qed.

(** ** Goals wait for the debts *)

(** C6: in a period whose aggregate debt balance, taken after the payments
    and the balance cleanup of that period, is above 5, goal funding does
    not run: every goal keeps its saved amount and nothing is logged as
    saved, whatever the individual balances are. *)
Theorem C6_no_goal_funding_while_debt_remains (st : AppState) (s : Sim) :
  let p := runPeriod st s in
  (5 < sumBalances (cleaned p))%Q ->
  debtRemainingEnd p = sumBalances (cleaned p)
  /\ cleaned p = snapDebt <$> x_debts (extraPaid p)
  /\ currentGoals (step st s) = currentGoals s
  /\ (forall i g g',
        currentGoals s !! i = Some g -> currentGoals (step st s) !! i = Some g' ->
        Goal.saved g' = Goal.saved g)
  /\ g_log (funded p) = []
  /\ g_extra (funded p) = x_extra (extraPaid p).
Proof.
  intros p Hdebt.
  assert (funded p = mkGoalSt (x_extra (extraPaid p)) (currentGoals s) []) as Hf.
  { change (funded p)
      with (fundGoals (x_extra (extraPaid p)) (sumBalances (cleaned p)) (currentGoals s)).
    unfold fundGoals, canSaveNow.
    apply qleb_false in Hdebt. rewrite Hdebt. simpl. now rewrite andb_false_r. }
  split; [reflexivity|]. split; [reflexivity|].
  change (currentGoals (step st s)) with (g_goals (funded p)). rewrite Hf. simpl.
  repeat split. intros i g g' H1 H2. congruence.
Qed.

(** C6 at work: the card of [idleDebtPlan] still owes 1000 after the first
    period, and the goal keeps its saved amount. *)
Lemma C6_witness_idle_debt :
  let s := initSim idleDebtPlan in
  let p := runPeriod idleDebtPlan s in
  (5 < sumBalances (cleaned p))%Q
  /\ currentGoals (step idleDebtPlan s) = currentGoals s.
Proof.
  assert (5 < sumBalances (cleaned (runPeriod idleDebtPlan (initSim idleDebtPlan))))%Q
    as H by (vm_compute; reflexivity).
  split; [exact H|].
  exact (proj1 (proj2 (proj2
    (C6_no_goal_funding_while_debt_remains idleDebtPlan (initSim idleDebtPlan) H)))).
Defined.

(** ** The obligation queues along a run *)

(** C8: every obligation of every queue satisfies
    [0 <= amountRemaining <= monthlyMin] and every queue is in ascending
    order of due date (no two obligations share a date).  This holds after
    seeding, at every period boundary, after every number of appends made by
    the rollover loop on a queue, after the rollover, after every debt
    handled by the settlement, after every payment made while a debt is
    handled, and after the settlement. *)
Theorem C8_queue_invariants (st : AppState) (n : nat) :
  let s := iterate n st in
  let p := runPeriod st s in
  obligations_ok (minObligations (initSim st))
  /\ obligations_ok (minObligations s)
  /\ (forall debtId obs lastOb debt fuel,
        minObligations s !! debtId = Some obs -> last obs = Some lastOb ->
        queue_ok (rolloverLoop fuel (periodEnd p) debt (getDueDayOrDefault debt)
                    obs lastOb))
  /\ obligations_ok (rolled p)
  /\ (forall es1 es2,
        debtsForMin (accrued p) (rolled p) = es1 ++ es2 ->
        let s1 := foldl settleDebt
                    (mkSettle (initialCash p) (accrued p) (rolled p) 0) es1 in
        obligations_ok (s_obligations s1)
        /\ (forall debt js1 js2 cash bal paid,
              sortedObs (obsOf (s_obligations s1) debt) = js1 ++ js2 ->
              queue_ok (p_obs (payObligations js1
                                 (mkPay cash bal (obsOf (s_obligations s1) debt) paid)))))
  /\ obligations_ok (s_obligations (settled p))
  /\ minObligations (step st s) = s_obligations (settled p).
Proof.
  intros s p.
  pose proof (obligations_wf_iterate st n) as Hs. fold s in Hs.
  assert (obligations_wf (rolled p)) as Hr by (apply rollover_wf, Hs).
  split; [apply obligations_wf_ok, (obligations_wf_iterate st 0)|].
  split; [now apply obligations_wf_ok|].
  split.
  { intros debtId obs lastOb debt fuel Hk Hl.
    apply (rolloverLoop_wf fuel); [apply getDueDayOrDefault_range| |exact Hl].
    exact (Hs _ _ Hk). }
  split; [now apply obligations_wf_ok|].
  split.
  { intros es1 es2 _ s1.
    assert (obligations_wf (s_obligations s1)) as H1
      by (apply settle_fold_wf; exact Hr).
    split; [now apply obligations_wf_ok|].
    intros debt js1 js2 cash bal paid _.
    apply payObligations_wf. simpl. now apply obsOf_wf. }
  split; [|reflexivity].
  apply obligations_wf_ok. now apply settleMinimums_wf.
Qed.

(** ** Rollover *)

Section Rollover.
Variables (periodEnd : Date) (debt : Debt.t).

Lemma rolloverLoop_unfold obs lastOb :
  rolloverLoop (MAX_OBS - length obs) periodEnd debt (getDueDayOrDefault debt) obs lastOb
  = if rolloverCond periodEnd debt obs lastOb then
      rolloverLoop (MAX_OBS - length (obs ++ [appended debt lastOb])) periodEnd debt
        (getDueDayOrDefault debt) (obs ++ [appended debt lastOb]) (appended debt lastOb)
    else obs.
Proof.
  unfold rolloverCond. destruct (length obs <? MAX_OBS)%nat eqn:El.
  - apply Nat.ltb_lt in El. rewrite length_app. simpl.
    replace (MAX_OBS - length obs)%nat with (S (MAX_OBS - (length obs + 1))) by lia.
    simpl. apply Nat.ltb_lt in El. rewrite El. reflexivity.
  - rewrite andb_false_r. simpl.
    destruct (MAX_OBS - length obs)%nat; simpl; [reflexivity|].
    rewrite El, andb_false_r. reflexivity.
Qed.

Lemma rolloverLoop_exit fuel : forall obs lastOb,
  last obs = Some lastOb -> (MAX_OBS - length obs <= fuel)%nat ->
  exists lastOb',
    last (rolloverLoop fuel periodEnd debt (getDueDayOrDefault debt) obs lastOb)
    = Some lastOb'
    /\ rolloverCond periodEnd debt
         (rolloverLoop fuel periodEnd debt (getDueDayOrDefault debt) obs lastOb)
         lastOb' = false.
Proof.
  induction fuel as [|f IH]; intros obs lastOb Hl Hf.
  - simpl. exists lastOb. split; [exact Hl|]. unfold rolloverCond.
    assert ((length obs <? MAX_OBS)%nat = false) as -> by (apply Nat.ltb_ge; lia).
    now rewrite andb_false_r.
  - simpl. fold (rolloverCond periodEnd debt obs lastOb).
    destruct (rolloverCond periodEnd debt obs lastOb) eqn:Ec.
    + apply IH; [apply last_snoc|]. rewrite length_app. simpl. lia.
    + exists lastOb. split; [exact Hl|exact Ec].
Qed.

End Rollover.

Lemma rolloverEntry_found periodEnd currentDebts debtId debt obs lastOb :
  findDebt currentDebts debtId = Some debt -> last obs = Some lastOb ->
  rolloverEntry periodEnd currentDebts debtId obs
  = if rolloverCond periodEnd debt obs lastOb then
      rolloverEntry periodEnd currentDebts debtId (obs ++ [appended debt lastOb])
    else obs.
Proof.
  intros Hf Hl. unfold rolloverEntry. rewrite Hf, Hl, last_snoc.
  destruct (qleb (Debt.balance debt) eps) eqn:Eb.
  - unfold rolloverCond.
    assert (qltb eps (Debt.balance debt) = false) as ->.
    { apply qltb_false. now apply qleb_true. }
    now rewrite andb_false_r.
  - apply rolloverLoop_unfold.
Qed.

(** C2, as stated, fails: the card of [monthEndPlan] is due on the 31st; its
    queue holds the due dates 31 January and 28 February when the period
    ending on 15 March starts, and the rollover of that period appends an
    obligation due on 31 March, not on 28 March, which is one calendar month
    after 28 February. *)
Lemma C2_counterexample_due_day_restored :
  let s := iterate 4 monthEndPlan in
  let p := runPeriod monthEndPlan s in
  Ob.dueDate <$> default [] (minObligations s !! 1)
  = [mkDate 2025 0 31; mkDate 2025 1 28]
  /\ periodEnd p = mkDate 2025 2 15
  /\ Ob.dueDate <$> default [] (rolled p !! 1)
     = [mkDate 2025 0 31; mkDate 2025 1 28; mkDate 2025 2 31]
  /\ oneMonthAfter (mkDate 2025 1 28) = mkDate 2025 2 28
  /\ mkDate 2025 2 31 <> oneMonthAfter (mkDate 2025 1 28).
Proof. vm_compute. repeat split. discriminate. Qed.

(** C2, amended: in every period the rollover runs on the balances left by
    interest accrual, queue by queue.  A queue whose debt is missing, or that
    is empty, is left as it is.  Otherwise the queue obeys the loop: while the
    period's end date is strictly after the due date of the latest
    obligation, the balance is above 0.5 and the queue holds fewer than 240
    obligations, one obligation is appended; its due date is in the month
    after the month of the previous due date, on the due day of the debt
    clamped to the length of that month, which is one calendar month after
    the previous due date when that one falls on the due day; its
    [monthlyMin] and [amountRemaining] are both the larger of the user's
    minimum and the reference minimum of the current balance when the user's
    minimum is positive, and the reference minimum alone otherwise.  The loop
    leaves the queue with its condition false. *)
Theorem C2_rollover_appends_on_due_day (st : AppState) (n : nat) (debtId : Z) :
  let s := iterate n st in
  let p := runPeriod st s in
  let roll := rolloverEntry (periodEnd p) (accrued p) debtId in
  accrued p = accrueDebt <$> currentDebts s
  /\ rolled p !! debtId = roll <$> minObligations s !! debtId
  /\ (forall obs, findDebt (accrued p) debtId = None -> roll obs = obs)
  /\ roll [] = []
  /\ (forall obs, minObligations s !! debtId = Some obs ->
        Forall (λ o, valid_date (Ob.dueDate o)) (roll obs))
  /\ (forall debt obs lastOb,
        findDebt (accrued p) debtId = Some debt -> last obs = Some lastOb ->
        let newOb := appended debt lastOb in
        let floor :=
          baseMin (computeBanxicoMonthlyComponents (Debt.balance debt)
                     (Debt.rate debt) (Debt.creditLimit debt)) in
        let y' := if getMonth (Ob.dueDate lastOb) =? 11
                  then getFullYear (Ob.dueDate lastOb) + 1
                  else getFullYear (Ob.dueDate lastOb) in
        let m' := if getMonth (Ob.dueDate lastOb) =? 11 then 0
                  else getMonth (Ob.dueDate lastOb) + 1 in
        (if date_ltb (Ob.dueDate lastOb) (periodEnd p)
            && (length obs <? 240)%nat
            && qltb (1 # 2) (Debt.balance debt)
         then roll obs = roll (obs ++ [newOb])
         else roll obs = obs)
        /\ (valid_date (Ob.dueDate lastOb) ->
            Ob.dueDate newOb
            = mkDate y' m' (Z.min (getDueDayOrDefault debt) (days_in_month y' m')))
        /\ (valid_date (Ob.dueDate lastOb) ->
            getDate (Ob.dueDate lastOb) = getDueDayOrDefault debt ->
            Ob.dueDate newOb = oneMonthAfter (Ob.dueDate lastOb))
        /\ Ob.monthlyMin newOb
           = (if qltb 0 (Debt.monthlyMin debt)
              then qmax (Debt.monthlyMin debt) floor else floor)
        /\ Ob.amountRemaining newOb = Ob.monthlyMin newOb
        /\ (exists lastOb',
              last (roll obs) = Some lastOb'
              /\ date_ltb (Ob.dueDate lastOb') (periodEnd p)
                 && (length (roll obs) <? 240)%nat
                 && qltb (1 # 2) (Debt.balance debt) = false)).
Proof.
  intros s p roll.
  split; [reflexivity|]. split; [apply rollover_lookup|].
  split. { intros obs Hf. unfold roll, rolloverEntry. now rewrite Hf. }
  split.
  { unfold roll, rolloverEntry. destruct (findDebt _ _) as [d|]; [|reflexivity].
    now destruct (qleb _ _). }
  split.
  { intros obs Hk. apply rolloverEntry_wf.
    exact (obligations_wf_iterate st n _ _ Hk). }
  intros debt obs lastOb Hf Hl newOb floor y' m'.
  split.
  { change (date_ltb _ _ && _ && _) with (rolloverCond (periodEnd p) debt obs lastOb).
    unfold roll. rewrite (rolloverEntry_found _ _ _ _ _ _ Hf Hl).
    fold newOb. destruct (rolloverCond _ _ _ _); reflexivity. }
  split.
  { intros Hv. unfold newOb, appended, makeObligation. simpl.
    apply nextDueDate_spec; [exact Hv|apply getDueDayOrDefault_range]. }
  split.
  { intros Hv Hday. unfold newOb, appended, makeObligation, oneMonthAfter. simpl.
    rewrite Hday. apply nextDueDate_spec; [exact Hv|apply getDueDayOrDefault_range]. }
  split; [reflexivity|]. split; [reflexivity|].
  unfold roll, rolloverEntry. rewrite Hf, Hl.
  destruct (qleb (Debt.balance debt) eps) eqn:Eb.
  - exists lastOb. split; [exact Hl|].
    assert (qltb (1 # 2) (Debt.balance debt) = false) as ->.
    { apply qltb_false. now apply qleb_true. }
    now rewrite andb_false_r.
  - destruct (rolloverLoop_exit (periodEnd p) debt (MAX_OBS - length obs) obs lastOb Hl
                (le_n _)) as (l' & H1 & H2).
    exists l'. split; [exact H1|exact H2].
Qed.

(** ** Cash events *)

Section Events.
Variable st : AppState.

Lemma periodEndAt_0 : periodEndAt st 0 = simStartDateOf st.
Proof. apply currentDate_init. Qed.

Lemma periodEndAt_S k : date_lt (periodEndAt st k) (periodEndAt st (S k)).
Proof.
  unfold periodEndAt. rewrite currentDate_S. apply advance_later, currentDate_valid.
Qed.

Lemma periodEndAt_lt j k :
  (j < k)%nat -> date_lt (periodEndAt st j) (periodEndAt st k).
Proof.
  induction 1 as [|k Hjk IH]; [apply periodEndAt_S|].
  eapply date_lt_trans; [exact IH|apply periodEndAt_S].
Qed.

Lemma periodEndAt_le j k :
  (j <= k)%nat -> date_le (periodEndAt st j) (periodEndAt st k).
Proof.
  intros H. apply date_le_iff.
  destruct (decide (j = k)) as [->|Hne]; [now right|].
  left. apply periodEndAt_lt. lia.
Qed.

Lemma includedAt_0 ev :
  includedAt st 0 ev = true <->
  date_le (simStartDateOf st) (eventDate ev)
  /\ date_le (eventDate ev) (periodEndAt st 0).
Proof.
  unfold includedAt, includeEvent. simpl prevPeriodEnd.
  rewrite andb_true_iff, !date_leb_le. reflexivity.
Qed.

Lemma includedAt_S k ev :
  includedAt st (S k) ev = true <->
  date_lt (periodEndAt st k) (eventDate ev)
  /\ date_le (eventDate ev) (periodEndAt st (S k)).
Proof.
  unfold includedAt, includeEvent. rewrite prevPeriodEnd_S.
  rewrite andb_true_iff, date_leb_le, date_ltb_lt. reflexivity.
Qed.

(** The period that counts an event is the first one whose end date is not
    before the event, provided the event is not before the start. *)
Lemma includedAt_first k ev :
  includedAt st k ev = true <->
  date_le (simStartDateOf st) (eventDate ev)
  /\ date_le (eventDate ev) (periodEndAt st k)
  /\ (forall j, (j < k)%nat -> date_lt (periodEndAt st j) (eventDate ev)).
Proof.
  destruct k as [|k].
  - rewrite includedAt_0. split; [intros [H1 H2]|tauto].
    repeat split; try assumption. intros j Hj. lia.
  - rewrite includedAt_S. split.
    + intros [H1 H2]. repeat split; [|exact H2|].
      * apply date_le_iff. left. rewrite <- periodEndAt_0.
        eapply date_le_lt_trans; [|exact H1]. apply periodEndAt_le. lia.
      * intros j Hj. eapply date_le_lt_trans; [|exact H1].
        apply periodEndAt_le. lia.
    + intros (_ & H2 & H3). split; [apply H3; lia|exact H2].
Qed.

Lemma includedAt_unique j k ev :
  includedAt st j ev = true -> includedAt st k ev = true -> j = k.
Proof.
  rewrite !includedAt_first. intros (_ & Hj & Hj') (_ & Hk & Hk').
  destruct (lt_eq_lt_dec j k) as [[Hlt|Heq]|Hgt]; [|exact Heq|].
  - exfalso. apply (date_lt_irrefl (eventDate ev)).
    eapply date_le_lt_trans; [exact Hj|]. now apply Hk'.
  - exfalso. apply (date_lt_irrefl (eventDate ev)).
    eapply date_le_lt_trans; [exact Hk|]. now apply Hj'.
Qed.

Lemma includedAt_exists n ev :
  date_le (simStartDateOf st) (eventDate ev) ->
  date_le (eventDate ev) (periodEndAt st n) ->
  exists k, (k <= n)%nat /\ includedAt st k ev = true.
Proof.
  intros Hs. induction n as [|n IH]; intros He.
  - exists 0%nat. split; [lia|]. apply includedAt_0. now split.
  - destruct (date_le_or_lt (eventDate ev) (periodEndAt st n)) as [Hle|Hgt].
    + destruct (IH Hle) as (k & Hk & Hin). exists k. split; [lia|exact Hin].
    + exists (S n). split; [lia|]. apply includedAt_S. now split.
Qed.

End Events.

Section EventAmounts.
Local Open Scope Q_scope.

Lemma eventsTotal_acc ty evs : forall a,
  foldl (λ s ev, match Ev.type ev, ty with
                 | income, income | expense, expense => s + Ev.amount ev
                 | _, _ => s
                 end) a evs
  == a + eventsTotal ty evs.
Proof.
  unfold eventsTotal. induction evs as [|ev evs IH]; intros a; simpl; [ring|].
  rewrite IH. rewrite (IH (match Ev.type ev, ty with
                          | income, income | expense, expense => 0 + Ev.amount ev
                          | _, _ => 0
                          end)).
  destruct (Ev.type ev), ty; ring.
Qed.

Lemma eventsTotal_cons ty ev evs :
  eventsTotal ty (ev :: evs)
  == match Ev.type ev, ty with
     | income, income | expense, expense => Ev.amount ev
     | _, _ => 0
     end + eventsTotal ty evs.
Proof.
  unfold eventsTotal at 1. simpl. rewrite eventsTotal_acc.
  destruct (Ev.type ev), ty; ring.
Qed.

Lemma addEvent_step simStartDate prev periodEnd a b log ev :
  addEvent simStartDate prev periodEnd (a, b, log) ev
  = if includeEvent simStartDate prev periodEnd ev then
      match Ev.type ev with
      | income => (a + Ev.amount ev, b, (log ++ [ev])%list)
      | expense => (a, b + Ev.amount ev, (log ++ [ev])%list)
      end
    else (a, b, log).
Proof. reflexivity. Qed.

(** What the [forEach] over the events leaves in [periodIncome],
    [periodExpense] and [eventLog]. *)
Lemma addEvent_fold simStartDate prev periodEnd evs : forall a b log,
  let inc := filter (λ ev, includeEvent simStartDate prev periodEnd ev = true) evs in
  let r := foldl (addEvent simStartDate prev periodEnd) (a, b, log) evs in
  r.2 = (log ++ inc)%list
  /\ r.1.1 == a + eventsTotal income inc
  /\ r.1.2 == b + eventsTotal expense inc.
Proof.
  induction evs as [|ev evs IH]; intros a b log; cbv zeta.
  - cbn [foldl filter list_filter]. rewrite app_nil_r. unfold eventsTotal. simpl.
    repeat split; ring.
  - cbn [foldl]. rewrite addEvent_step, filter_cons.
    destruct (includeEvent simStartDate prev periodEnd ev) eqn:E.
    + rewrite decide_True by reflexivity.
      destruct (Ev.type ev) eqn:Et.
      * destruct (IH (a + Ev.amount ev) b (log ++ [ev])%list) as (H1 & H2 & H3).
        cbv zeta in H1, H2, H3. rewrite H1, H2, H3, !eventsTotal_cons, Et.
        rewrite <- app_assoc. simpl. repeat split; ring.
      * destruct (IH a (b + Ev.amount ev) (log ++ [ev])%list) as (H1 & H2 & H3).
        cbv zeta in H1, H2, H3. rewrite H1, H2, H3, !eventsTotal_cons, Et.
        rewrite <- app_assoc. simpl. repeat split; ring.
    + rewrite decide_False by congruence. apply IH.
Qed.

End EventAmounts.

(** C4, as stated, fails: the bonus of [earlyEventPlan] is dated before the
    end of the first period, which has no previous period to bound it from
    below, and the run, which has that single period, counts it in none. *)
Lemma C4_counterexample_event_before_start :
  let final := runSimulation earlyEventPlan in
  events earlyEventPlan = [earlyEvent]
  /\ date_le (eventDate earlyEvent) (periodEndAt earlyEventPlan 0)
  /\ RowData.eventLog <$> simulationResults final = [[]]
  /\ Qred <$> (RowData.income <$> simulationResults final) = [200%Q].
Proof. vm_compute. repeat split. discriminate. Qed.

(** C4, amended: a cash event is counted in at most one period.  The first
    period counts the events dated from the start date to its end date, both
    included; a later period counts the events dated after the end of the
    previous period and up to its own end date.  So an event dated on or
    after the start date is counted exactly once, in the first period whose
    end date is not before it, as soon as the run reaches such a period; an
    event dated before the start date, or after the end of the last period
    run, is counted in none.  An income event adds its amount to the income of
    the period that counts it and an expense event to its expenses. *)
Theorem C4_event_counted_in_first_window (st : AppState) (ev : Ev.t) :
  let start := simStartDateOf st in
  let d := eventDate ev in
  (forall j k, includedAt st j ev = true -> includedAt st k ev = true -> j = k)
  /\ periodEndAt st 0 = start
  /\ (includedAt st 0 ev = true <-> date_le start d /\ date_le d (periodEndAt st 0))
  /\ (forall k, includedAt st (S k) ev = true <->
                date_lt (periodEndAt st k) d /\ date_le d (periodEndAt st (S k)))
  /\ (forall k, includedAt st k ev = true <->
                date_le start d /\ date_le d (periodEndAt st k)
                /\ (forall j, (j < k)%nat -> date_lt (periodEndAt st j) d))
  /\ (forall n, date_le start d -> date_le d (periodEndAt st n) ->
                exists k, (k <= n)%nat /\ includedAt st k ev = true)
  /\ (date_lt d start -> forall k, includedAt st k ev = false)
  /\ (forall n, date_lt (periodEndAt st n) d ->
                forall k, (k <= n)%nat -> includedAt st k ev = false)
  /\ (forall k, (k < iteration (runSimulation st))%nat ->
        simulationResults (runSimulation st) !! k
        = Some (rowData (S k) (runPeriod st (iterate k st))))
  /\ (forall k,
        let p := runPeriod st (iterate k st) in
        periodEnd p = periodEndAt st k
        /\ RowData.eventLog (rowData (S k) p) = eventLog p
        /\ RowData.income (rowData (S k) p) = periodIncome p
        /\ RowData.expenses (rowData (S k) p) = periodExpense p
        /\ eventLog p = filter (λ e, includedAt st k e = true) (events st)
        /\ (periodIncome p == baseNet st + eventsTotal income (eventLog p))%Q
        /\ (periodExpense p
            == baseFixed st + discretionary st + eventsTotal expense (eventLog p))%Q).
Proof.
  intros start d.
  split; [intros j k; apply includedAt_unique|].
  split; [apply periodEndAt_0|].
  split; [apply includedAt_0|].
  split; [intros k; apply includedAt_S|].
  split; [intros k; apply includedAt_first|].
  split; [intros n; apply includedAt_exists|].
  split.
  { intros Hlt k. apply not_true_is_false. intros Hin.
    apply includedAt_first in Hin as (Hin & _).
    apply date_le_not_lt in Hin. contradiction. }
  split.
  { intros n Hlt k Hk. apply not_true_is_false. intros Hin.
    apply includedAt_first in Hin as (_ & Hin & _).
    apply (date_lt_irrefl d). eapply date_le_lt_trans; [exact Hin|].
    eapply date_le_lt_trans; [|exact Hlt]. now apply periodEndAt_le. }
  split.
  { intros k Hk.
    destruct (runLoop_stops st MAX_ITERS (le_n _)) as (m & _ & Hrun & _ & _).
    change (runSimulation st) with (runLoop MAX_ITERS st (initSim st)) in *.
    rewrite Hrun in *. rewrite iteration_iterate in Hk. now apply results_lookup. }
  intros k p.
  destruct (addEvent_fold (simStartDateOf st) (prevPeriodEnd (iterate k st))
              (currentDate (iterate k st)) (events st)
              (baseNet st) (baseFixed st + discretionary st)%Q [])
    as (H1 & H2 & H3).
  cbv zeta in H1, H2, H3. simpl app in H1.
  split; [reflexivity|]. split; [reflexivity|].
  split; [reflexivity|]. split; [reflexivity|].
  assert (eventLog p = filter (λ e, includedAt st k e = true) (events st)) as Hlog
    by exact H1.
  split; [exact Hlog|].
  rewrite Hlog. split; [exact H2|exact H3].
Qed.

(** ** Total interest *)

Section Interest.
Local Open Scope Q_scope.

Lemma qsum_acc l : forall a, foldl Qplus a l == a + qsum l.
Proof.
  unfold qsum. induction l as [|x l IH]; intros a; simpl; [ring|].
  rewrite IH, (IH (0 + x)). ring.
Qed.

Lemma qsum_snoc l x : qsum (l ++ [x]) = qsum l + x.
Proof. unfold qsum. now rewrite foldl_app. Qed.

Lemma qsum_cons x l : qsum (x :: l) == x + qsum l.
Proof. unfold qsum at 1. simpl. rewrite qsum_acc. ring. Qed.

Lemma accrueTotal_fold currentDebts : forall a,
  foldl accrueTotal a currentDebts == a + periodCharges currentDebts.
Proof.
  unfold periodCharges.
  induction currentDebts as [|d l IH]; intros a; cbn [foldl].
  - unfold qsum. simpl. ring.
  - rewrite IH, filter_cons. unfold accrueTotal.
    change (qltb eps (Debt.balance d)) with (negb (qleb (Debt.balance d) eps)).
    destruct (qleb (Debt.balance d) eps) eqn:E; simpl negb.
    + rewrite decide_False by (intros H; discriminate H). reflexivity.
    + rewrite decide_True by reflexivity. rewrite fmap_cons, qsum_cons. ring.
Qed.

Lemma totalInterestPaid_iterate st n :
  totalInterestPaid (iterate n st)
  == qsum ((λ k, periodCharges (currentDebts (iterate k st))) <$> seq 0 n).
Proof.
  induction n as [|n IH].
  - reflexivity.
  - rewrite seq_S, fmap_app, fmap_cons, fmap_nil, qsum_snoc, <- IH.
    change (totalInterestPaid (iterate (S n) st))
      with (foldl accrueTotal (totalInterestPaid (iterate n st))
              (currentDebts (iterate n st))).
    apply accrueTotal_fold.
Qed.

End Interest.

(** C9, as stated, fails: in the run of [forgivenInterestPlan] nothing is
    ever paid towards the debt, neither as a minimum nor as an extra, and the
    total reported is the interest and surcharge charged in the first
    period. *)
Lemma C9_counterexample_interest_never_paid :
  let final := runSimulation forgivenInterestPlan in
  iteration final = 2%nat
  /\ Qred <$> (paidInRow <$> simulationResults final) = [0%Q; 0%Q]
  /\ Qred (totalInterestPaid final) = (261 # 25000)%Q
  /\ ~ (totalInterestPaid final == qsum (paidInRow <$> simulationResults final))%Q.
Proof. vm_compute. repeat split. discriminate. Qed.

(** C9, amended: the total the engine reports is the sum, over the periods
    run and over the debts whose balance is above 0.5 when the period starts,
    of the interest and the surcharge that the accrual of that period puts on
    the balance, whether or not it is paid later. *)
Theorem C9_total_interest_is_accrued (st : AppState) :
  let final := runSimulation st in
  (totalInterestPaid final
   == qsum ((λ k, periodCharges (currentDebts (iterate k st)))
              <$> seq 0 (iteration final)))%Q
  /\ (forall k, accrued (runPeriod st (iterate k st))
                = accrueDebt <$> currentDebts (iterate k st))
  /\ (forall d : Debt.t,
        let intereses := (Debt.balance d * (Debt.rate d / 100) / 24)%Q in
        let iva := (intereses * (16 # 100))%Q in
        totalCharge d = (intereses + iva)%Q
        /\ ((1 # 2 < Debt.balance d)%Q ->
            Debt.balance (accrueDebt d) = (Debt.balance d + totalCharge d)%Q)
        /\ ((Debt.balance d <= 1 # 2)%Q -> Debt.balance (accrueDebt d) = 0%Q)).
Proof.
  intros final.
  destruct (runLoop_stops st MAX_ITERS (le_n _)) as (m & _ & Hrun & _ & _).
  assert (final = iterate m st) as -> by exact Hrun.
  rewrite iteration_iterate.
  split; [apply totalInterestPaid_iterate|]. split; [reflexivity|].
  intros d intereses iva. split; [reflexivity|].
  unfold accrueDebt. split; intros H.
  - apply qleb_false in H. unfold eps. now rewrite H.
  - apply qleb_true in H. unfold eps. now rewrite H.
Qed.

(** ** Minimum-payment settlement *)

Section Selection.
Local Open Scope Q_scope.

Lemma qleb_total a b : qleb a b = true \/ qleb b a = true.
Proof.
  destruct (qleb a b) eqn:E; [now left|right].
  apply qleb_false in E. apply qleb_true. lra.
Qed.

Lemma qleb_trans a b c : qleb a b = true -> qleb b c = true -> qleb a c = true.
Proof. rewrite !qleb_true. lra. Qed.

Lemma date_leb_total a b : date_leb a b = true \/ date_leb b a = true.
Proof. rewrite !date_leb_le. apply date_le_total. Qed.

Lemma date_leb_trans a b c :
  date_leb a b = true -> date_leb b c = true -> date_leb a c = true.
Proof. rewrite !date_leb_le. apply date_le_trans. Qed.

(** The order in which the debts are settled. *)
Lemma minEntry_leb_spec a b :
  minEntry_leb a b = true <->
  date_lt (MinEntry.earliestDue a) (MinEntry.earliestDue b)
  \/ (MinEntry.earliestDue a = MinEntry.earliestDue b
      /\ MinEntry.totalRemaining b <= MinEntry.totalRemaining a).
Proof.
  unfold minEntry_leb, date_lt.
  destruct (date_compare (MinEntry.earliestDue a) (MinEntry.earliestDue b)) eqn:E.
  - apply date_compare_eq in E. rewrite qleb_true. split; [now right|].
    intros [H|[_ H]]; [discriminate|exact H].
  - split; [now left|reflexivity].
  - split; [discriminate|]. intros [H|[H _]]; [discriminate|].
    rewrite H, date_compare_refl in E. discriminate.
Qed.

Lemma minEntry_leb_total a b : minEntry_leb a b = true \/ minEntry_leb b a = true.
Proof.
  rewrite !minEntry_leb_spec.
  destruct (date_compare (MinEntry.earliestDue a) (MinEntry.earliestDue b)) eqn:E.
  - apply date_compare_eq in E.
    destruct (Qlt_le_dec (MinEntry.totalRemaining a) (MinEntry.totalRemaining b)).
    + right. right. split; [now symmetry|lra].
    + left. right. split; [exact E|lra].
  - left. now left.
  - right. left. unfold date_lt. rewrite date_compare_antisym, E. reflexivity.
Qed.

Lemma minEntry_leb_trans a b c :
  minEntry_leb a b = true -> minEntry_leb b c = true -> minEntry_leb a c = true.
Proof.
  rewrite !minEntry_leb_spec.
  intros [H1|[H1 H1']] [H2|[H2 H2']].
  - left. eapply date_lt_trans; eauto.
  - left. now rewrite <- H2.
  - left. now rewrite H1.
  - right. split; [congruence|lra].
Qed.

(** [earliestOf] returns the earliest of the given date and the due dates. *)
Lemma earliestOf_spec activeObs : forall first,
  date_le (earliestOf activeObs first) first
  /\ (forall o, o ∈ activeObs -> date_le (earliestOf activeObs first) (Ob.dueDate o))
  /\ (earliestOf activeObs first = first
      \/ exists o, o ∈ activeObs /\ Ob.dueDate o = earliestOf activeObs first).
Proof.
  unfold earliestOf.
  induction activeObs as [|o l IH]; intros first; cbn [foldl].
  - split; [apply date_le_refl|]. split; [|now left].
    intros o Ho. apply elem_of_nil in Ho. contradiction.
  - destruct (date_ltb (Ob.dueDate o) first) eqn:E.
    + apply date_ltb_lt in E.
      destruct (IH (Ob.dueDate o)) as (H1 & H2 & H3).
      split; [|split].
      * apply date_le_iff. left. eapply date_le_lt_trans; eauto.
      * intros o' Ho'. apply elem_of_cons in Ho' as [->|Ho']; [exact H1|now apply H2].
      * right. destruct H3 as [H3|(o' & Ho' & H3)].
        -- exists o. split; [apply elem_of_cons; now left|now symmetry].
        -- exists o'. split; [apply elem_of_cons; now right|exact H3].
    + assert (date_le first (Ob.dueDate o)) as Hle.
      { apply date_le_not_lt. intros H. apply date_ltb_lt in H. congruence. }
      destruct (IH first) as (H1 & H2 & H3).
      split; [exact H1|]. split.
      * intros o' Ho'. apply elem_of_cons in Ho' as [->|Ho']; [|now apply H2].
        eapply date_le_trans; eauto.
      * destruct H3 as [H3|(o' & Ho' & H3)]; [now left|right].
        exists o'. split; [apply elem_of_cons; now right|exact H3].
Qed.

Lemma minEntryOf_ix m i debt e : minEntryOf m i debt = Some e -> MinEntry.ix e = i.
Proof.
  unfold minEntryOf. destruct (filter _ _); [discriminate|].
  destruct (qleb _ _); [discriminate|]. intros H. now inversion H.
Qed.

(** A debt gets an entry exactly when one of its obligations and its balance
    are above 0.5; the entry holds the earliest due date and the sum of what
    remains of the obligations above 0.5. *)
Lemma minEntryOf_spec m i debt e :
  minEntryOf m i debt = Some e <->
  (exists o, o ∈ obsOf m debt /\ 1 # 2 < Ob.amountRemaining o)
  /\ 1 # 2 < Debt.balance debt
  /\ MinEntry.ix e = i
  /\ (let activeObs := filter (λ o, isActiveOb o = true) (obsOf m debt) in
      (forall o, o ∈ activeObs -> date_le (MinEntry.earliestDue e) (Ob.dueDate o))
      /\ (exists o, o ∈ activeObs /\ Ob.dueDate o = MinEntry.earliestDue e)
      /\ MinEntry.totalRemaining e
         = foldl (λ s o, s + Ob.amountRemaining o) 0 activeObs)
  /\ minEntryOf m i debt = Some e.
Proof.
  split; [|tauto]. intros He. pose proof He as He'.
  unfold minEntryOf in He.
  destruct (filter (λ o, isActiveOb o = true) (obsOf m debt)) as [|o0 l] eqn:Ef;
    [discriminate|].
  destruct (qleb (Debt.balance debt) eps) eqn:Eb; [discriminate|].
  inversion He; subst; clear He. simpl.
  assert (o0 ∈ filter (λ o, isActiveOb o = true) (obsOf m debt)) as Ho0
    by (rewrite Ef; apply elem_of_cons; now left).
  split.
  { exists o0. apply list_elem_of_filter in Ho0 as [Ha Hin]. split; [exact Hin|].
    now apply qltb_true in Ha. }
  split; [now apply qleb_false in Eb|]. split; [reflexivity|].
  split; [|exact He'].
  destruct (earliestOf_spec (o0 :: l) (Ob.dueDate o0)) as (H1 & H2 & H3).
  split; [exact H2|]. split; [|reflexivity].
  destruct H3 as [H3|H3]; [|exact H3].
  exists o0. split; [apply elem_of_cons; now left|now symmetry].
Qed.

(** A debt with an obligation and a balance above 0.5 gets an entry. *)
Lemma minEntryOf_complete m i debt :
  (exists o, o ∈ obsOf m debt /\ 1 # 2 < Ob.amountRemaining o) ->
  1 # 2 < Debt.balance debt ->
  exists e, minEntryOf m i debt = Some e.
Proof.
  intros (o & Hin & Ho) Hb. unfold minEntryOf.
  assert (o ∈ filter (λ o, isActiveOb o = true) (obsOf m debt)) as Hf.
  { apply list_elem_of_filter. split; [|exact Hin].
    unfold isActiveOb. now apply qltb_true. }
  destruct (filter (λ o, isActiveOb o = true) (obsOf m debt)) as [|o0 l];
    [apply elem_of_nil in Hf; contradiction|].
  destruct (qleb (Debt.balance debt) eps) eqn:Eb.
  - apply qleb_true in Eb. unfold eps in Eb. lra.
  - eexists. reflexivity.
Qed.

(** The entry of a debt is determined by its position, the earliest due date
    and the total of its obligations above 0.5. *)
Lemma minEntryOf_char m i debt e :
  minEntryOf m i debt = Some e <->
  (exists o, o ∈ obsOf m debt /\ 1 # 2 < Ob.amountRemaining o)
  /\ 1 # 2 < Debt.balance debt
  /\ MinEntry.ix e = i
  /\ (let activeObs := filter (λ o, isActiveOb o = true) (obsOf m debt) in
      (forall o, o ∈ activeObs -> date_le (MinEntry.earliestDue e) (Ob.dueDate o))
      /\ (exists o, o ∈ activeObs /\ Ob.dueDate o = MinEntry.earliestDue e)
      /\ MinEntry.totalRemaining e
         = foldl (λ s o, s + Ob.amountRemaining o) 0 activeObs).
Proof.
  split.
  - intros He. apply minEntryOf_spec in He as (H1 & H2 & H3 & H4 & _). tauto.
  - intros (H1 & H2 & H3 & H4).
    destruct (minEntryOf_complete m i debt H1 H2) as (e' & He').
    rewrite He'. f_equal.
    apply minEntryOf_spec in He' as (_ & _ & H3' & H4' & _).
    cbv zeta in H4, H4'.
    destruct H4 as (Ha & (oa & Hoa & Hea) & Hs).
    destruct H4' as (Ha' & (oa' & Hoa' & Hea') & Hs').
    destruct e as [ie de te], e' as [ie' de' te']. simpl in *.
    f_equal; [congruence| |congruence].
    apply date_le_antisym.
    + rewrite <- Hea. now apply Ha'.
    + rewrite <- Hea'. now apply Ha.
Qed.

Lemma debtsForMin_elem currentDebts m e :
  e ∈ debtsForMin currentDebts m <->
  exists debt, currentDebts !! MinEntry.ix e = Some debt
               /\ minEntryOf m (MinEntry.ix e) debt = Some e.
Proof.
  unfold debtsForMin. rewrite stable_sort_perm, list_elem_of_omap. split.
  - intros ([i debt] & Hin & He). simpl in He.
    apply indexed_lookup in Hin.
    pose proof (minEntryOf_ix _ _ _ _ He) as Hi. subst i.
    exists debt. now split.
  - intros (debt & Hl & He). exists (MinEntry.ix e, debt).
    split; [now apply indexed_lookup|exact He].
Qed.

Lemma omap_entries_NoDup m (L : list (nat * Debt.t)) :
  NoDup L.*1 -> NoDup (MinEntry.ix <$> omap (λ p, minEntryOf m p.1 p.2) L).
Proof.
  induction L as [|[i d] L IH]; intros Hnd; simpl; [constructor|].
  apply NoDup_cons in Hnd as [Hni Hnd].
  destruct (minEntryOf m i d) as [e|] eqn:E; simpl; [|now apply IH].
  apply NoDup_cons. split; [|now apply IH].
  rewrite (minEntryOf_ix _ _ _ _ E). intros Hin.
  apply list_elem_of_fmap in Hin as (e' & Hi & Hin).
  apply list_elem_of_omap in Hin as ([j d'] & Hin & He'). simpl in He'.
  apply minEntryOf_ix in He'. apply Hni.
  apply list_elem_of_fmap. exists (j, d'). split; [simpl; congruence|exact Hin].
Qed.

Lemma debtsForMin_NoDup currentDebts m :
  NoDup (MinEntry.ix <$> debtsForMin currentDebts m).
Proof.
  unfold debtsForMin. rewrite stable_sort_perm.
  apply omap_entries_NoDup, indexed_NoDup_fst.
Qed.

Lemma debtsForMin_sorted currentDebts m :
  StronglySorted
    (λ a b, date_lt (MinEntry.earliestDue a) (MinEntry.earliestDue b)
            \/ (MinEntry.earliestDue a = MinEntry.earliestDue b
                /\ MinEntry.totalRemaining b <= MinEntry.totalRemaining a))
    (debtsForMin currentDebts m).
Proof.
  unfold debtsForMin.
  eapply StronglySorted_mono;
    [|apply stable_sort_sorted; [apply minEntry_leb_total|apply minEntry_leb_trans]].
  intros a b H. now apply minEntry_leb_spec in H.
Qed.

End Selection.

Section Payments.
Local Open Scope Q_scope.

Lemma min3_pos a b c : 0 < a -> 0 < b -> 0 < c -> 0 < min3 a b c.
Proof.
  intros Ha Hb Hc. unfold min3.
  destruct (qmin_spec a b) as [[_ ->]|[_ ->]];
    [destruct (qmin_spec a c) as [[_ ->]|[_ ->]]
    |destruct (qmin_spec b c) as [[_ ->]|[_ ->]]]; assumption.
Qed.

(** An obligation above 0.5 is paid the least of the cash, of what remains
    of it and of the balance. *)
Lemma payOne_pays s j ob :
  p_obs s !! j = Some ob ->
  1 # 2 < Ob.amountRemaining ob -> 0 < p_cash s -> 0 < p_balance s ->
  let pay := min3 (p_cash s) (Ob.amountRemaining ob) (p_balance s) in
  0 < pay
  /\ payOne s j
     = Some (mkPay (p_cash s - pay) (p_balance s - pay)
               (<[j := Ob.set_amountRemaining ob (Ob.amountRemaining ob - pay)]>
                  (p_obs s))
               (p_paidMins s + pay)).
Proof.
  intros Hj Ha Hc Hb pay.
  assert (0 < pay) as Hpay by (apply min3_pos; [exact Hc|unfold eps in *; lra|exact Hb]).
  split; [exact Hpay|]. unfold payOne. rewrite Hj.
  assert (qleb (Ob.amountRemaining ob) eps = false) as -> by now apply qleb_false.
  fold pay. assert (qleb pay 0 = false) as -> by now apply qleb_false.
  reflexivity.
Qed.

(** An obligation at or under 0.5 is passed over. *)
Lemma payOne_skips s j ob :
  p_obs s !! j = Some ob -> Ob.amountRemaining ob <= 1 # 2 -> payOne s j = None.
Proof.
  intros Hj Ha. unfold payOne. rewrite Hj.
  assert (qleb (Ob.amountRemaining ob) eps = true) as -> by now apply qleb_true.
  reflexivity.
Qed.

(** A debt whose balance is used up receives nothing more. *)
Lemma payOne_no_balance s j : p_balance s <= 0 -> payOne s j = None.
Proof.
  intros Hb. unfold payOne. destruct (p_obs s !! j) as [ob|]; [|reflexivity].
  destruct (qleb (Ob.amountRemaining ob) eps); [reflexivity|].
  pose proof (min3_le (p_cash s) (Ob.amountRemaining ob) (p_balance s)) as (_ & _ & H).
  assert (qleb (min3 (p_cash s) (Ob.amountRemaining ob) (p_balance s)) 0 = true) as ->
    by (apply qleb_true; lra).
  reflexivity.
Qed.

Lemma payObligations_broke js s : p_cash s <= 0 -> payObligations js s = s.
Proof.
  intros H. apply qleb_true in H. destruct js; simpl; [reflexivity|now rewrite H].
Qed.

Lemma settleDebt_broke s e : s_cash s <= 0 -> settleDebt s e = s.
Proof.
  intros H. unfold settleDebt.
  destruct (s_debts s !! MinEntry.ix e) as [debt|] eqn:Ed; [|reflexivity].
  rewrite payObligations_broke by exact H. simpl.
  assert (Debt.set_balance debt (Debt.balance debt) = debt) as -> by now destruct debt.
  rewrite list_insert_id by exact Ed.
  unfold obsOf.
  destruct (s_obligations s !! Debt.id debt) as [obs|] eqn:Eo; simpl.
  - rewrite insert_id by exact Eo. now destruct s.
  - now destruct s.
Qed.

Lemma settle_fold_broke es : forall s, s_cash s <= 0 -> foldl settleDebt s es = s.
Proof.
  induction es as [|e es IH]; intros s H; simpl; [reflexivity|].
  rewrite settleDebt_broke by exact H. now apply IH.
Qed.

(** *** Balances *)

Lemma payOne_balance s j s' :
  payOne s j = Some s' -> 0 <= p_balance s' /\ p_balance s' <= p_balance s.
Proof.
  unfold payOne. destruct (p_obs s !! j) as [ob|]; [|discriminate].
  destruct (qleb (Ob.amountRemaining ob) eps); [discriminate|].
  pose proof (min3_le (p_cash s) (Ob.amountRemaining ob) (p_balance s)) as (_ & _ & H).
  destruct (qleb _ 0) eqn:E; [discriminate|]. apply qleb_false in E.
  intros Hs. inversion Hs; subst; clear Hs. simpl. lra.
Qed.

Lemma payObligations_balance js : forall s,
  p_balance (payObligations js s) <= p_balance s
  /\ (p_balance (payObligations js s) = p_balance s
      \/ 0 <= p_balance (payObligations js s)).
Proof.
  induction js as [|j js IH]; intros s; simpl.
  - split; [lra|now left].
  - destruct (qleb (p_cash s) 0); [split; [lra|now left]|].
    destruct (payOne s j) as [s'|] eqn:E; simpl; [|apply IH].
    apply payOne_balance in E as [E1 E2].
    destruct (IH s') as [H1 H2]. split; [lra|].
    destruct H2 as [H2|H2]; [right; rewrite H2; exact E1|now right].
Qed.

Lemma settleDebt_debts s e i d :
  s_debts s !! i = Some d ->
  exists d', s_debts (settleDebt s e) !! i = Some d'
             /\ balance_kept_or_nonneg d d'
             /\ (i <> MinEntry.ix e -> d' = d).
Proof.
  intros Hi. unfold settleDebt.
  destruct (s_debts s !! MinEntry.ix e) as [debt|] eqn:Ed.
  - simpl. destruct (decide (i = MinEntry.ix e)) as [->|Hne].
    + rewrite Hi in Ed. inversion Ed; subst debt.
      eexists. split.
      * apply list_lookup_insert_eq. eapply lookup_lt_Some; eauto.
      * split; [|congruence]. unfold balance_kept_or_nonneg. simpl.
        apply payObligations_balance.
    + exists d. split; [now rewrite list_lookup_insert_ne|].
      split; [|reflexivity]. split; [lra|now left].
  - exists d. split; [exact Hi|]. split; [|reflexivity]. split; [lra|now left].
Qed.

Lemma settle_fold_debts es : forall s i d,
  s_debts s !! i = Some d ->
  exists d', s_debts (foldl settleDebt s es) !! i = Some d'
             /\ balance_kept_or_nonneg d d'
             /\ (i ∉ MinEntry.ix <$> es -> d' = d).
Proof.
  induction es as [|e es IH]; intros s i d Hi; simpl.
  - exists d. split; [exact Hi|]. split; [|reflexivity]. split; [lra|now left].
  - destruct (settleDebt_debts s e i d Hi) as (d1 & H1 & [Hk1 Hk1'] & Hn1).
    destruct (IH _ i d1 H1) as (d2 & H2 & [Hk2 Hk2'] & Hn2).
    exists d2. split; [exact H2|]. split.
    + split; [lra|].
      destruct Hk2' as [Hk2'|Hk2']; [|now right].
      destruct Hk1' as [Hk1'|Hk1']; [left; congruence|right; now rewrite Hk2'].
    + intros Hni. rewrite not_elem_of_cons in Hni. destruct Hni as [Hne Hni].
      rewrite (Hn2 Hni). now apply Hn1.
Qed.

End Payments.

(** The obligations of a debt are visited in ascending order of due date. *)
Lemma sortedObs_spec (obs : list Ob.t) :
  let visited :=
    stable_sort (λ a b, date_leb (Ob.dueDate a.2) (Ob.dueDate b.2)) (indexed obs) in
  sortedObs obs = visited.*1
  /\ visited ≡ₚ indexed obs
  /\ StronglySorted (λ a b, date_le (Ob.dueDate a.2) (Ob.dueDate b.2)) visited.
Proof.
  intros visited. split; [reflexivity|]. split; [apply stable_sort_perm|].
  eapply StronglySorted_mono; [|apply stable_sort_sorted].
  - intros a b H. now apply date_leb_le.
  - intros a b. apply date_leb_total.
  - intros a b c. apply date_leb_trans.
Qed.

(** C1, as stated, fails: in the second period of [shortPaymentPlan] the
    debt is settled with 999.7 of cash and a balance of 9000.3; its oldest
    obligation has 0.3 left, so the least of the three amounts is 0.3, and
    the obligation receives nothing: the whole cash goes to the next one. *)
Lemma C1_counterexample_small_remainder_skipped :
  let s1 := iterate 1 shortPaymentPlan in
  let p := runPeriod shortPaymentPlan s1 in
  let before := default [] (rolled p !! 1) in
  let after := default [] (s_obligations (settled p) !! 1) in
  MinEntry.ix <$> debtsForMin (accrued p) (rolled p) = [0%nat]
  /\ sortedObs before = [0%nat; 1%nat]
  /\ Qred <$> (Ob.amountRemaining <$> before) = [(3 # 10)%Q; 1000%Q]
  /\ Qred (initialCash p) = (9997 # 10)%Q
  /\ Qred <$> (Debt.balance <$> accrued p) = [(90003 # 10)%Q]
  /\ Qred (min3 (9997 # 10) (3 # 10) (90003 # 10)) = (3 # 10)%Q
  /\ Qred <$> (Ob.amountRemaining <$> after) = [(3 # 10)%Q; (3 # 10)%Q]
  /\ Qred (s_cash (settled p)) = 0%Q.
Proof. vm_compute. repeat split. Qed.

(** C1, amended: in every period the settlement handles exactly the debts
    that have an obligation with more than 0.5 remaining and a balance above
    0.5: an entry is handled if and only if it stands for such a debt and
    holds the earliest due date and the total of the obligations above 0.5
    of that debt, and every such debt has its entry.  Each debt is handled
    once, in ascending order of the earliest due date among the obligations
    above 0.5 of the debt and, for equal dates, larger total of those
    obligations first.  The obligations of a debt are visited oldest
    due date first.  An obligation with more than 0.5 remaining receives the
    least of the cash available, of what remains of it and of the balance of
    the debt, and the three are lowered by that amount; an obligation with
    0.5 or less remaining is passed over, and so is every obligation once the
    balance is used up.  Nothing is paid once the cash is exhausted.  No
    balance is raised, a balance that is touched is not negative afterwards,
    and a debt that is not handled keeps its balance. *)
Theorem C1_minimum_settlement (st : AppState) (s : Sim) :
  let p := runPeriod st s in
  let debts := accrued p in
  let m := rolled p in
  let es := debtsForMin debts m in
  settled p = foldl settleDebt (mkSettle (initialCash p) debts m 0) es
  /\ (forall e, e ∈ es <->
        exists debt,
          debts !! MinEntry.ix e = Some debt
          /\ (exists o, o ∈ obsOf m debt /\ (1 # 2 < Ob.amountRemaining o)%Q)
          /\ (1 # 2 < Debt.balance debt)%Q
          /\ (let activeObs := filter (λ o, isActiveOb o = true) (obsOf m debt) in
              (forall o, o ∈ activeObs ->
                         date_le (MinEntry.earliestDue e) (Ob.dueDate o))
              /\ (exists o, o ∈ activeObs /\ Ob.dueDate o = MinEntry.earliestDue e)
              /\ MinEntry.totalRemaining e
                 = foldl (λ t o, t + Ob.amountRemaining o)%Q 0%Q activeObs))
  /\ (forall i debt,
        debts !! i = Some debt ->
        (exists o, o ∈ obsOf m debt /\ (1 # 2 < Ob.amountRemaining o)%Q) ->
        (1 # 2 < Debt.balance debt)%Q ->
        exists e, e ∈ es /\ MinEntry.ix e = i)
  /\ NoDup (MinEntry.ix <$> es)
  /\ StronglySorted
       (λ a b, date_lt (MinEntry.earliestDue a) (MinEntry.earliestDue b)
               \/ (MinEntry.earliestDue a = MinEntry.earliestDue b
                   /\ (MinEntry.totalRemaining b <= MinEntry.totalRemaining a)%Q))
       es
  /\ (forall s1 e debt,
        s_debts s1 !! MinEntry.ix e = Some debt ->
        let obs := obsOf (s_obligations s1) debt in
        let r := payObligations (sortedObs obs)
                   (mkPay (s_cash s1) (Debt.balance debt) obs (s_paidMins s1)) in
        s_cash (settleDebt s1 e) = p_cash r
        /\ s_debts (settleDebt s1 e)
           = <[MinEntry.ix e := Debt.set_balance debt (p_balance r)]> (s_debts s1)
        /\ (forall obs0, s_obligations s1 !! Debt.id debt = Some obs0 ->
              s_obligations (settleDebt s1 e)
              = <[Debt.id debt := p_obs r]> (s_obligations s1)))
  /\ (forall obs,
        let visited :=
          stable_sort (λ a b, date_leb (Ob.dueDate a.2) (Ob.dueDate b.2))
            (indexed obs) in
        sortedObs obs = visited.*1
        /\ visited ≡ₚ indexed obs
        /\ StronglySorted (λ a b, date_le (Ob.dueDate a.2) (Ob.dueDate b.2)) visited)
  /\ (forall ps j rest,
        payObligations (j :: rest) ps
        = if qleb (p_cash ps) 0 then ps
          else payObligations rest (default ps (payOne ps j)))
  /\ (forall ps j ob,
        p_obs ps !! j = Some ob ->
        ((Ob.amountRemaining ob <= 1 # 2)%Q -> payOne ps j = None)
        /\ ((p_balance ps <= 0)%Q -> payOne ps j = None)
        /\ ((1 # 2 < Ob.amountRemaining ob)%Q ->
            (0 < p_cash ps)%Q -> (0 < p_balance ps)%Q ->
            let pay := min3 (p_cash ps) (Ob.amountRemaining ob) (p_balance ps) in
            (0 < pay)%Q
            /\ payOne ps j
               = Some (mkPay (p_cash ps - pay)%Q (p_balance ps - pay)%Q
                         (<[j := Ob.set_amountRemaining ob
                                   (Ob.amountRemaining ob - pay)%Q]> (p_obs ps))
                         (p_paidMins ps + pay)%Q)))
  /\ (forall js ps, (p_cash ps <= 0)%Q -> payObligations js ps = ps)
  /\ (forall es' s1, (s_cash s1 <= 0)%Q -> foldl settleDebt s1 es' = s1)
  /\ (forall i d,
        debts !! i = Some d ->
        exists d',
          s_debts (settled p) !! i = Some d'
          /\ (Debt.balance d' <= Debt.balance d)%Q
          /\ (Debt.balance d' = Debt.balance d \/ (0 <= Debt.balance d')%Q)
          /\ ((0 <= Debt.balance d)%Q -> (0 <= Debt.balance d')%Q)
          /\ (i ∉ MinEntry.ix <$> es -> d' = d)).
Proof.
  intros p debts m es.
  split; [reflexivity|].
  split.
  { intros e. unfold es. rewrite debtsForMin_elem. split.
    - intros (debt & Hd & He). exists debt. split; [exact Hd|].
      apply minEntryOf_char in He as (H1 & H2 & _ & H4).
      split; [exact H1|]. split; [exact H2|exact H4].
    - intros (debt & Hd & H1 & H2 & H4). exists debt. split; [exact Hd|].
      apply minEntryOf_char. split; [exact H1|]. split; [exact H2|].
      split; [reflexivity|exact H4]. }
  split.
  { intros i debt Hd Ho Hb.
    destruct (minEntryOf_complete m i debt Ho Hb) as (e & He).
    pose proof (minEntryOf_ix _ _ _ _ He) as Hi.
    exists e. split; [|exact Hi].
    unfold es. apply debtsForMin_elem. exists debt. rewrite Hi. now split. }
  split; [apply debtsForMin_NoDup|].
  split; [apply debtsForMin_sorted|].
  split.
  { intros s1 e debt Hd obs r. unfold settleDebt. rewrite Hd. simpl.
    split; [reflexivity|]. split; [reflexivity|].
    intros obs0 Ho. now rewrite Ho. }
  split; [apply sortedObs_spec|].
  split; [reflexivity|].
  split.
  { intros ps j ob Hj. split; [now apply payOne_skips|].
    split; [apply payOne_no_balance|]. now apply payOne_pays. }
  split; [intros js ps; apply payObligations_broke|].
  split; [intros es' s1; apply settle_fold_broke|].
  intros i d Hd.
  destruct (settle_fold_debts es (mkSettle (initialCash p) debts m 0) i d Hd)
    as (d' & H1 & [H2 H3] & H4).
  exists d'. split; [exact H1|]. split; [exact H2|]. split; [exact H3|].
  split; [|exact H4].
  intros H0. destruct H3 as [H3|H3]; [now rewrite H3|exact H3].
Qed.

(** ** Strategy allocation *)

Section Strategy.
Local Open Scope Q_scope.

Lemma activeDebts_elem currentDebts i d :
  (i, d) ∈ activeDebts currentDebts <->
  currentDebts !! i = Some d /\ 1 # 2 < Debt.balance d.
Proof.
  unfold activeDebts, isActiveDebt. rewrite list_elem_of_filter, indexed_lookup.
  simpl. rewrite qltb_true. unfold eps. tauto.
Qed.

Lemma orderedDebts_perm strategy currentDebts :
  orderedDebts strategy currentDebts ≡ₚ activeDebts currentDebts.
Proof. apply stable_sort_perm. Qed.

Lemma orderedDebts_NoDup strategy currentDebts :
  NoDup (orderedDebts strategy currentDebts).*1.
Proof.
  rewrite orderedDebts_perm. unfold activeDebts.
  eapply sublist_NoDup; [apply (indexed_NoDup_fst currentDebts)|].
  apply fmap_sublist, sublist_filter.
Qed.

Lemma strategy_leb_total strategy a b :
  strategy_leb strategy a b = true \/ strategy_leb strategy b a = true.
Proof.
  unfold strategy_leb.
  repeat match goal with |- context [String.eqb ?x ?y] => destruct (String.eqb x y) end;
    apply qleb_total.
Qed.

Lemma strategy_leb_trans strategy a b c :
  strategy_leb strategy a b = true -> strategy_leb strategy b c = true ->
  strategy_leb strategy a c = true.
Proof.
  unfold strategy_leb.
  repeat match goal with |- context [String.eqb ?x ?y] => destruct (String.eqb x y) end;
    intros H1 H2; eapply qleb_trans; eauto.
Qed.

Lemma orderedDebts_sorted strategy currentDebts :
  StronglySorted (λ a b, strategy_leb strategy a.2 b.2 = true)
    (orderedDebts strategy currentDebts).
Proof.
  unfold orderedDebts.
  apply (stable_sort_sorted (λ a b, strategy_leb strategy a.2 b.2)).
  - intros a b. apply strategy_leb_total.
  - intros a b c. apply strategy_leb_trans.
Qed.

(** The debt at the head of the order is below every active debt. *)
Lemma orderedDebts_head strategy currentDebts i d rest j d' :
  orderedDebts strategy currentDebts = (i, d) :: rest ->
  currentDebts !! j = Some d' -> 1 # 2 < Debt.balance d' ->
  strategy_leb strategy d d' = true.
Proof.
  intros Ho Hj Hb.
  apply (stable_sort_head (λ a b, strategy_leb strategy a.2 b.2)
           (λ a b, strategy_leb_total strategy a.2 b.2)
           (λ a b c, strategy_leb_trans strategy a.2 b.2 c.2)
           (i, d) rest (activeDebts currentDebts) Ho (j, d')).
  now apply activeDebts_elem.
Qed.

Lemma strategy_leb_other strategy a b :
  strategy <> "snowball"%string -> strategy <> "avalanche"%string ->
  strategy <> "highMin"%string -> strategy <> "reverseSnowball"%string ->
  strategy_leb strategy a b = qleb (Debt.rate b) (Debt.rate a).
Proof.
  intros H1 H2 H3 H4. unfold strategy_leb.
  apply String.eqb_neq in H1, H2, H3, H4. now rewrite H1, H2, H3, H4.
Qed.

(** *** Payments *)

Lemma payExtra_pays s i debt :
  x_debts s !! i = Some debt -> 0 < x_extra s -> 0 < Debt.balance debt ->
  let pay := qmin (x_extra s) (Debt.balance debt) in
  0 < pay
  /\ payExtra s i
     = Some (mkExtra (x_extra s - pay)
               (<[i := Debt.set_balance debt (Debt.balance debt - pay)]> (x_debts s))
               (x_log s ++ [Log.mk (Debt.name debt) pay])).
Proof.
  intros Hi He Hb pay.
  assert (0 < pay) as Hpay.
  { unfold pay. destruct (qmin_spec (x_extra s) (Debt.balance debt)) as [[_ ->]|[_ ->]];
      assumption. }
  split; [exact Hpay|]. unfold payExtra. rewrite Hi. fold pay.
  assert (qleb pay 0 = false) as -> by now apply qleb_false.
  reflexivity.
Qed.

Lemma payOrdered_stops ixs s : x_extra s <= 1 -> payOrdered ixs s = s.
Proof.
  intros H. apply qleb_true in H. destruct ixs; simpl; [reflexivity|now rewrite H].
Qed.

Lemma payOrdered_log ixs : forall s,
  exists l, x_log (payOrdered ixs s) = (x_log s ++ l)%list.
Proof.
  induction ixs as [|i ixs IH]; intros s; simpl.
  - exists []. now rewrite app_nil_r.
  - destruct (qleb (x_extra s) 1); [exists []; now rewrite app_nil_r|].
    destruct (payExtra s i) as [s'|] eqn:E; simpl; [|apply IH].
    destruct (IH s') as (l & Hl). rewrite Hl.
    unfold payExtra in E. destruct (x_debts s !! i) as [debt|]; [|discriminate].
    destruct (qleb _ 0); [discriminate|]. inversion E; subst; clear E. simpl.
    rewrite <- app_assoc. eexists. reflexivity.
Qed.

Lemma applyStrategy_idle strategy0 cashAvailable currentDebts :
  cashAvailable <= 1 ->
  applyStrategy strategy0 cashAvailable currentDebts
  = mkExtra cashAvailable currentDebts [].
Proof.
  intros H. unfold applyStrategy. apply qltb_false in H. now rewrite H.
Qed.

Lemma applyStrategy_sequential strategy0 cashAvailable currentDebts :
  1 < cashAvailable -> strategyOrDefault strategy0 <> "flat"%string ->
  applyStrategy strategy0 cashAvailable currentDebts
  = payOrdered (orderedDebts (strategyOrDefault strategy0) currentDebts).*1
      (mkExtra cashAvailable currentDebts []).
Proof.
  intros H Hf. unfold applyStrategy. apply qltb_true in H. rewrite H.
  apply String.eqb_neq in Hf. now rewrite Hf.
Qed.

(** The first entry of the log is the debt at the head of the order. *)
Lemma applyStrategy_first strategy0 cashAvailable currentDebts i d rest :
  1 < cashAvailable -> strategyOrDefault strategy0 <> "flat"%string ->
  orderedDebts (strategyOrDefault strategy0) currentDebts = (i, d) :: rest ->
  0 < qmin cashAvailable (Debt.balance d)
  /\ exists l,
       x_log (applyStrategy strategy0 cashAvailable currentDebts)
       = Log.mk (Debt.name d) (qmin cashAvailable (Debt.balance d)) :: l.
Proof.
  intros Hc Hf Ho.
  assert ((i, d) ∈ activeDebts currentDebts) as Hin.
  { rewrite <- orderedDebts_perm, Ho. apply elem_of_cons. now left. }
  apply activeDebts_elem in Hin as [Hi Hb].
  destruct (payExtra_pays (mkExtra cashAvailable currentDebts []) i d Hi)
    as [Hpay Hp]; simpl; [lra|lra|].
  simpl in Hpay, Hp. split; [exact Hpay|].
  rewrite applyStrategy_sequential, Ho by assumption.
  simpl. assert (qleb cashAvailable 1 = false) as -> by now apply qleb_false.
  rewrite Hp. simpl.
  match goal with |- context [payOrdered ?l ?s] =>
    destruct (payOrdered_log l s) as (l' & Hl) end.
  rewrite Hl. simpl. eexists. reflexivity.
Qed.

End Strategy.

(** The order of a named selector, read off the order of [strategy_leb]. *)
Ltac named_order Hsorted :=
  let Hs := fresh "Hs" in
  let H := fresh "H" in
  intros Hs; eapply StronglySorted_mono; [|exact Hsorted];
  intros ? ? H; rewrite Hs in H; now apply qleb_true in H.

(** C7, as stated, fails: in the first period of [halfUnitPlan] the
    snowball order is Plata (50) then Visa (100) and 50.5 of cash reaches the
    strategy; Plata is paid 50, which leaves 0.5, and Visa, for which the
    least of the remaining cash and of its balance is 0.5, is paid nothing:
    the 0.5 goes back to the pool. *)
Lemma C7_counterexample_half_unit_left :
  let p := runPeriod halfUnitPlan (initSim halfUnitPlan) in
  let before := s_debts (settled p) in
  (orderedDebts "snowball" before).*1 = [1%nat; 0%nat]
  /\ Qred <$> (Debt.balance <$> before) = [100%Q; 50%Q]
  /\ Qred (s_cash (settled p)) = (101 # 2)%Q
  /\ (λ x, (Log.name x, Qred (Log.amount x))) <$> x_log (extraPaid p)
     = [("Plata"%string, 50%Q)]
  /\ Qred (qmin ((101 # 2) - 50) 100) = (1 # 2)%Q
  /\ Qred <$> (Debt.balance <$> x_debts (extraPaid p)) = [100%Q; 0%Q]
  /\ Qred (x_extra (extraPaid p)) = (1 # 2)%Q.
Proof. vm_compute. repeat split. Qed.

(** C7, amended: the strategy allocation of a period runs only with more
    than 1 of cash.  The active debts, those with a balance above 0.5, are
    ordered by balance ascending under snowball, rate descending under
    avalanche, contractual monthly minimum descending under highMin, balance
    descending under reverseSnowball and rate descending under any other
    selector.  Outside the proportional variant the ordered debts are then
    visited in turn while more than 1 of cash remains, and the debt visited
    is paid the least of the remaining cash and of its balance.  So with more
    than 1 of cash the first debt paid is the first of the order: under
    snowball an active debt of smallest balance, under avalanche one of
    highest rate.  The cash not spent is what goal funding starts from. *)
Theorem C7_strategy_allocation (st : AppState) (s : Sim) :
  let p := runPeriod st s in
  let cashAvailable := s_cash (settled p) in
  let debts := s_debts (settled p) in
  let sel := strategyOrDefault (strategy st) in
  let ordered := orderedDebts sel debts in
  let r := extraPaid p in
  r = applyStrategy (strategy st) cashAvailable debts
  /\ (forall i d, (i, d) ∈ ordered <->
                  debts !! i = Some d /\ (1 # 2 < Debt.balance d)%Q)
  /\ NoDup ordered.*1
  /\ (sel = "snowball"%string ->
      StronglySorted (λ a b, (Debt.balance a.2 <= Debt.balance b.2)%Q) ordered)
  /\ (sel = "avalanche"%string ->
      StronglySorted (λ a b, (Debt.rate b.2 <= Debt.rate a.2)%Q) ordered)
  /\ (sel = "highMin"%string ->
      StronglySorted (λ a b, (Debt.monthlyMin b.2 <= Debt.monthlyMin a.2)%Q) ordered)
  /\ (sel = "reverseSnowball"%string ->
      StronglySorted (λ a b, (Debt.balance b.2 <= Debt.balance a.2)%Q) ordered)
  /\ (sel <> "snowball"%string -> sel <> "avalanche"%string ->
      sel <> "highMin"%string -> sel <> "reverseSnowball"%string ->
      StronglySorted (λ a b, (Debt.rate b.2 <= Debt.rate a.2)%Q) ordered)
  /\ ((cashAvailable <= 1)%Q -> r = mkExtra cashAvailable debts [])
  /\ ((1 < cashAvailable)%Q -> sel <> "flat"%string ->
      r = payOrdered ordered.*1 (mkExtra cashAvailable debts []))
  /\ (forall i rest x,
        payOrdered (i :: rest) x
        = if qleb (x_extra x) 1 then x
          else payOrdered rest (default x (payExtra x i)))
  /\ (forall x i debt,
        x_debts x !! i = Some debt -> (0 < x_extra x)%Q -> (0 < Debt.balance debt)%Q ->
        let pay := qmin (x_extra x) (Debt.balance debt) in
        (0 < pay)%Q
        /\ payExtra x i
           = Some (mkExtra (x_extra x - pay)%Q
                     (<[i := Debt.set_balance debt (Debt.balance debt - pay)%Q]>
                        (x_debts x))
                     (x_log x ++ [Log.mk (Debt.name debt) pay])))
  /\ ((1 < cashAvailable)%Q -> sel <> "flat"%string ->
      forall i d rest,
        ordered = (i, d) :: rest ->
        (0 < qmin cashAvailable (Debt.balance d))%Q
        /\ (exists l,
              x_log r = Log.mk (Debt.name d) (qmin cashAvailable (Debt.balance d)) :: l)
        /\ (sel = "snowball"%string ->
            forall j d', debts !! j = Some d' -> (1 # 2 < Debt.balance d')%Q ->
                         (Debt.balance d <= Debt.balance d')%Q)
        /\ (sel = "avalanche"%string ->
            forall j d', debts !! j = Some d' -> (1 # 2 < Debt.balance d')%Q ->
                         (Debt.rate d' <= Debt.rate d)%Q))
  /\ (x_extra r == cashAvailable - logTotal (x_log r))%Q
  /\ funded p = fundGoals (x_extra r) (debtRemainingEnd p) (currentGoals s).
Proof.
  intros p cashAvailable debts sel ordered r.
  pose proof (orderedDebts_sorted sel debts) as Hsorted. fold ordered in Hsorted.
  split; [reflexivity|].
  split.
  { intros i d. unfold ordered. rewrite orderedDebts_perm. apply activeDebts_elem. }
  split; [apply orderedDebts_NoDup|].
  split; [named_order Hsorted|].
  split; [named_order Hsorted|].
  split; [named_order Hsorted|].
  split; [named_order Hsorted|].
  split.
  { intros H1 H2 H3 H4. eapply StronglySorted_mono; [|exact Hsorted].
    intros a b H. cbv beta in H. rewrite strategy_leb_other in H by assumption.
    now apply qleb_true in H. }
  split; [apply applyStrategy_idle|].
  split; [apply applyStrategy_sequential|].
  split; [reflexivity|].
  split; [apply payExtra_pays|].
  split.
  { intros Hc Hf i d rest Ho.
    destruct (applyStrategy_first (strategy st) cashAvailable debts i d rest Hc Hf Ho)
      as [Hpay Hlog].
    split; [exact Hpay|]. split; [exact Hlog|].
    split; intros Hs j d' Hj Hb.
    - pose proof (orderedDebts_head sel debts i d rest j d' Ho Hj Hb) as H.
      rewrite Hs in H. now apply qleb_true in H.
    - pose proof (orderedDebts_head sel debts i d rest j d' Ho Hj Hb) as H.
      rewrite Hs in H. now apply qleb_true in H. }
  split; [apply applyStrategy_cash|reflexivity].
Qed.

(** * Further properties *)

(** ** The reference minimum and the binding minimum *)

(** X1: for a positive balance and a positive rate the reference minimum is
    positive, is at least 1.5% of the balance plus the monthly interest and
    its surcharge, and never exceeds the balance plus that interest and
    surcharge.  The second option is 1.25% of the credit limit when a
    positive limit is given and 0 otherwise.  The reference minimum is one of
    the first option, the second option and the balance plus interest and
    surcharge; it is at least the second option whenever that option does
    not exceed the balance plus interest and surcharge, and is below it only
    when it equals that sum. *)
Theorem X1_reference_minimum_bounds (prev rate : Q) (cl : option Q) :
  (0 < prev)%Q -> (0 < rate)%Q ->
  let c := computeBanxicoMonthlyComponents prev rate cl in
  (monthlyInterest c == prev * rate / 1200)%Q
  /\ (monthlyIVA c == monthlyInterest c * (16 # 100))%Q
  /\ (optionA c == (15 # 1000) * prev + monthlyInterest c + monthlyIVA c)%Q
  /\ (0 < optionA c)%Q
  /\ (optionA c <= baseMin c)%Q
  /\ (baseMin c <= prev + monthlyInterest c + monthlyIVA c)%Q
  /\ ((optionB c <= baseMin c)%Q
      \/ baseMin c = (prev + monthlyInterest c + monthlyIVA c)%Q)
  /\ (forall l, cl = Some l -> (0 < l)%Q -> optionB c = ((125 # 10000) * l)%Q)
  /\ (forall l, cl = Some l -> (l <= 0)%Q -> optionB c = 0%Q)
  /\ (cl = None -> optionB c = 0%Q)
  /\ (baseMin c = optionA c
      \/ baseMin c = optionB c
      \/ baseMin c = (prev + monthlyInterest c + monthlyIVA c)%Q)
  /\ ((optionB c <= prev + monthlyInterest c + monthlyIVA c)%Q ->
      (optionB c <= baseMin c)%Q).
Proof.
  intros Hp Hr. unfold computeBanxicoMonthlyComponents.
  assert (qleb prev 0 = false) as -> by now apply qleb_false.
  assert (qleb rate 0 = false) as -> by now apply qleb_false.
  cbv zeta. cbn [orb monthlyInterest monthlyIVA optionA optionB baseMin].
  assert (0 < prev * (rate / 100) / 12)%Q as Hi.
  { apply Qlt_shift_div_l; [lra|]. rewrite Qmult_0_l.
    apply Qmult_lt_0_compat; [exact Hp|]. apply Qlt_shift_div_l; lra. }
  split; [field|]. split; [reflexivity|]. split; [reflexivity|].
  set (mi := (prev * (rate / 100) / 12)%Q) in *.
  set (b := match cl with
            | Some cl0 => if qltb 0 cl0 then ((125 # 10000) * cl0)%Q else 0%Q
            | None => 0%Q
            end).
  split; [lra|].
  assert ((forall l, cl = Some l -> (0 < l)%Q -> b = ((125 # 10000) * l)%Q)
          /\ (forall l, cl = Some l -> (l <= 0)%Q -> b = 0%Q)
          /\ (cl = None -> b = 0%Q)) as (Hb1 & Hb2 & Hb3).
  { unfold b. split; [|split].
    - intros l -> Hl. apply qltb_true in Hl. now rewrite Hl.
    - intros l -> Hl. apply qltb_false in Hl. now rewrite Hl.
    - now intros ->. }
  clearbody b.
  destruct (qmax_spec ((15 # 1000) * prev + mi + mi * (16 # 100))%Q b)
    as [[H1 ->]|[H1 ->]];
    match goal with |- context [qltb ?x ?y] => destruct (qltb x y) eqn:E end;
    try (apply qltb_true in E); try (apply qltb_false in E);
    (split; [lra|]); (split; [lra|]);
    (split; [first [left; lra | right; reflexivity]|]);
    (split; [exact Hb1|]); (split; [exact Hb2|]); (split; [exact Hb3|]);
    (split; [|intros; lra]);
    first [left; reflexivity | right; left; reflexivity | right; right; reflexivity].
Qed.

Lemma X1_witness_plata :
  let c := computeBanxicoMonthlyComponents 2500 99 (Some 40000%Q) in
  (optionA c <= baseMin c)%Q
  /\ (baseMin c <= 2500 + monthlyInterest c + monthlyIVA c)%Q
  /\ optionB c = ((125 # 10000) * 40000)%Q
  /\ (optionB c <= baseMin c)%Q.
Proof.
  assert (0 < 2500)%Q as H1 by reflexivity.
  assert (0 < 99)%Q as H2 by reflexivity.
  pose proof (X1_reference_minimum_bounds 2500 99 (Some 40000%Q) H1 H2) as H.
  cbv zeta in H.
  destruct H as (_ & _ & _ & _ & Ha & Hm & _ & Hb & _ & _ & _ & Hc).
  split; [exact Ha|]. split; [exact Hm|].
  split; [apply (Hb 40000%Q); reflexivity|].
  apply Hc. vm_compute. discriminate.
Defined.

(** X2: the minimum of an obligation, at seeding and at every rollover, is
    never below the user's monthly minimum nor below the reference minimum
    recorded with it, is never negative, and is one of the two. *)
Theorem X2_binding_minimum_covers_both (debt : Debt.t) (balance : Q) (due : Date) :
  let ob := makeObligation debt balance due in
  Ob.banxicoBaseMin ob
  = baseMin (computeBanxicoMonthlyComponents balance (Debt.rate debt)
               (Debt.creditLimit debt))
  /\ (Debt.monthlyMin debt <= Ob.monthlyMin ob)%Q
  /\ (Ob.banxicoBaseMin ob <= Ob.monthlyMin ob)%Q
  /\ (0 <= Ob.monthlyMin ob)%Q
  /\ (Ob.monthlyMin ob = Debt.monthlyMin debt
      \/ Ob.monthlyMin ob = Ob.banxicoBaseMin ob)
  /\ Ob.amountRemaining ob = Ob.monthlyMin ob
  /\ Ob.dueDate ob = due.
Proof.
  intros ob. unfold ob, makeObligation. simpl.
  pose proof (baseMin_nonneg balance (Debt.rate debt) (Debt.creditLimit debt)) as Hb.
  set (floor := baseMin _) in *.
  split; [reflexivity|].
  destruct (qltb 0 (Debt.monthlyMin debt)) eqn:E.
  - apply qltb_true in E.
    destruct (qmax_spec (Debt.monthlyMin debt) floor) as [[H ->]|[H ->]];
      repeat split; try lra; auto.
  - apply qltb_false in E. repeat split; try lra; auto.
Qed.

(** ** Due dates *)

(** X3: with a year after 99 and before 275760, which [new Date] takes as
    given, and a month index from 0 to 11, [makeDueDate] on the due day of a
    debt gives a day of that very month: the due day when the month has it,
    the last day of the month otherwise; the due day is always between 1 and
    31, it is the day entered when that is between 1 and 31, 31 when a larger
    day was entered and 25 when the day is missing or not positive. *)
Theorem X3_due_date_stays_in_month (y m : Z) (debt : Debt.t) :
  plainYear y ->
  0 <= m < 12 ->
  let dueDay := getDueDayOrDefault debt in
  makeDueDate y m dueDay = mkDate y m (Z.min dueDay (days_in_month y m))
  /\ valid_date (makeDueDate y m dueDay)
  /\ 1 <= dueDay <= 31
  /\ (forall raw, Debt.dueDay debt = Some raw -> 1 <= raw <= 31 -> dueDay = raw)
  /\ (forall raw, Debt.dueDay debt = Some raw -> 31 < raw -> dueDay = 31)
  /\ (forall raw, Debt.dueDay debt = Some raw -> raw <= 0 -> dueDay = 25)
  /\ (Debt.dueDay debt = None -> dueDay = 25).
Proof.
  intros _ Hm dueDay. pose proof (getDueDayOrDefault_range debt) as Hr. fold dueDay in Hr.
  split; [apply makeDueDate_spec; lia|].
  split; [unfold makeDueDate; apply newDate_valid|].
  split; [exact Hr|].
  unfold dueDay, getDueDayOrDefault.
  repeat split; intros; try match goal with H : Debt.dueDay debt = _ |- _ => rewrite H end;
    try reflexivity.
  - assert ((0 <? raw) = true) as -> by (apply Z.ltb_lt; lia). lia.
  - assert ((0 <? raw) = true) as -> by (apply Z.ltb_lt; lia). lia.
  - assert ((0 <? raw) = false) as -> by (apply Z.ltb_ge; lia). reflexivity.
Qed.

Lemma X3_witness_february :
  makeDueDate 2025 1 (getDueDayOrDefault (Debt.mk 1 "Visa" 100 0 None 0 (Some 31)))
  = mkDate 2025 1 28.
Proof.
  assert (plainYear 2025) as Hy by (unfold plainYear; lia).
  assert (0 <= 1 < 12) as H by lia.
  exact (proj1 (X3_due_date_stays_in_month 2025 1
                  (Debt.mk 1 "Visa" 100 0 None 0 (Some 31)) Hy H)).
Defined.

(** X4: for a start date that is a day at midnight, as [dateFromYMD] builds
    it from the start date of the profile, in a year after 99 and before
    275760, the first due date of a debt is never before the start date; it
    is the due day, clamped, of the month of the start date when that day is
    not before the start date, and the due day, clamped, of the next month
    otherwise. *)
Theorem X4_first_due_date_on_or_after_start (simStartDate : Date) (debt : Debt.t) :
  plainYear (getFullYear simStartDate) ->
  valid_date simStartDate ->
  let r := getFirstDueDate simStartDate debt in
  let dueDay := getDueDayOrDefault debt in
  let y0 := getFullYear simStartDate in
  let m0 := getMonth simStartDate in
  let inMonth := mkDate y0 m0 (Z.min dueDay (days_in_month y0 m0)) in
  date_le simStartDate r
  /\ valid_date r
  /\ getDate r = Z.min dueDay (days_in_month (getFullYear r) (getMonth r))
  /\ (date_le simStartDate inMonth -> r = inMonth)
  /\ (date_lt inMonth simStartDate -> r = oneMonthAfter (mkDate y0 m0 dueDay)).
Proof.
  intros _ Hv. cbv zeta. destruct simStartDate as [y0 m0 d0].
  destruct Hv as [Hm Hd]. simpl in Hm, Hd. cbn [getFullYear getMonth].
  pose proof (getDueDayOrDefault_range debt) as Hr.
  set (dueDay := getDueDayOrDefault debt) in *.
  set (inMonth := mkDate y0 m0 (Z.min dueDay (days_in_month y0 m0))).
  set (start := mkDate y0 m0 d0).
  assert (getFirstDueDate start debt
          = if date_leb start inMonth then inMonth
            else oneMonthAfter (mkDate y0 m0 dueDay)) as Hrr.
  { unfold getFirstDueDate. cbn [getFullYear getMonth start]. fold dueDay.
    rewrite (makeDueDate_spec y0 m0 dueDay) by lia. fold inMonth.
    destruct (date_leb start inMonth); [reflexivity|].
    unfold oneMonthAfter. cbn [getFullYear getMonth getDate].
    destruct (11 <? m0 + 1) eqn:E.
    - apply Z.ltb_lt in E.
      assert ((m0 =? 11) = true) as -> by (apply Z.eqb_eq; lia).
      apply makeDueDate_spec; lia.
    - apply Z.ltb_ge in E.
      assert ((m0 =? 11) = false) as -> by (apply Z.eqb_neq; lia).
      apply makeDueDate_spec; lia. }
  assert (date_lt inMonth start -> date_leb start inMonth = false) as Hlt.
  { intros H. destruct (date_leb start inMonth) eqn:E; [|reflexivity].
    apply date_leb_le, date_le_not_lt in E. contradiction. }
  split; [|split; [|split; [|split]]].
  - rewrite Hrr. destruct (date_leb start inMonth) eqn:E.
    + now apply date_leb_le.
    + apply date_le_iff. left. apply date_lt_iff. unfold oneMonthAfter, start.
      cbn [getFullYear getMonth getDate].
      destruct (m0 =? 11) eqn:E2; [apply Z.eqb_eq in E2|apply Z.eqb_neq in E2]; lia.
  - apply getFirstDueDate_valid. split; simpl; lia.
  - rewrite Hrr. destruct (date_leb start inMonth); reflexivity.
  - intros H. apply date_leb_le in H. now rewrite Hrr, H.
  - intros H. now rewrite Hrr, (Hlt H).
Qed.

Lemma X4_witness_next_month :
  getFirstDueDate (mkDate 2025 10 20) (Debt.mk 2 "Visa 40" 100 72 None 1500 (Some 18))
  = mkDate 2025 11 18.
Proof.
  assert (plainYear (getFullYear (mkDate 2025 10 20))) as Hy
    by (unfold plainYear; cbn; lia).
  assert (valid_date (mkDate 2025 10 20)) as Hv by (unfold valid_date; cbn; lia).
  assert (date_lt (mkDate 2025 10 18) (mkDate 2025 10 20)) as Hlt by reflexivity.
  exact (proj2 (proj2 (proj2 (proj2
    (X4_first_due_date_on_or_after_start (mkDate 2025 10 20)
       (Debt.mk 2 "Visa 40" 100 72 None 1500 (Some 18)) Hy Hv)))) Hlt).
Defined.

(** ** Date strings *)

Section DateStrings.

Lemma parseYMD_nonzero str p :
  parseYMD str = Some p -> ymd_year p <> 0 /\ ymd_month p <> 0 /\ ymd_day p <> 0.
Proof.
  unfold parseYMD, falsy. destruct str as [[y|] [m|] [d|]]; simpl;
    try (destruct (y =? 0) eqn:Ey); try (destruct (m =? 0) eqn:Em);
    try (destruct (d =? 0) eqn:Ed); simpl; try discriminate.
  intros H. inversion H; subst; simpl.
  apply Z.eqb_neq in Ey, Em, Ed. tauto.
Qed.

Lemma compareYMD_parsed aStr bStr a b :
  parseYMD aStr = Some a -> parseYMD bStr = Some b ->
  (compareYMD aStr bStr < 0 <->
   ymd_year a < ymd_year b
   \/ (ymd_year a = ymd_year b
       /\ (ymd_month a < ymd_month b
           \/ (ymd_month a = ymd_month b /\ ymd_day a < ymd_day b))))
  /\ (compareYMD aStr bStr = 0 <-> a = b).
Proof.
  intros Ha Hb. unfold compareYMD. rewrite Ha, Hb.
  destruct a as [ya ma da], b as [yb mb db]. simpl.
  destruct (Z.eqb_spec ya yb) as [->|Hy]; simpl.
  - destruct (Z.eqb_spec ma mb) as [->|Hm]; simpl.
    + split; [lia|]. split; intros H; [f_equal; lia|inversion H; lia].
    + split; [lia|]. split; intros H; [exfalso; lia|inversion H; lia].
  - split; [lia|]. split; intros H; [exfalso; lia|inversion H; lia].
Qed.

Lemma dateFromYMD_calendar p :
  calendar_ymd p -> dateFromYMD p = mkDate (ymd_year p) (ymd_month p - 1) (ymd_day p).
Proof. intros [Hm Hd]. unfold dateFromYMD. apply newDate_id; lia. Qed.

End DateStrings.

(** X5: [compareYMD] is antisymmetric; when one of the two strings does not
    give three non-zero numbers the result is 0 whatever the other string;
    when both do, the result is negative exactly when the first is earlier
    as (year, month, day) and 0 exactly when the three numbers agree. *)
Theorem X5_compareYMD_orders_parsed_dates (aStr bStr : RawYMD) :
  compareYMD bStr aStr = - compareYMD aStr bStr
  /\ (parseYMD aStr = None \/ parseYMD bStr = None -> compareYMD aStr bStr = 0)
  /\ (forall a b,
        parseYMD aStr = Some a -> parseYMD bStr = Some b ->
        (compareYMD aStr bStr < 0 <->
         ymd_year a < ymd_year b
         \/ (ymd_year a = ymd_year b
             /\ (ymd_month a < ymd_month b
                 \/ (ymd_month a = ymd_month b /\ ymd_day a < ymd_day b))))
        /\ (compareYMD aStr bStr = 0 <-> a = b))
  /\ (forall p, parseYMD aStr = Some p ->
        raw_y aStr = Some (ymd_year p) /\ raw_m aStr = Some (ymd_month p)
        /\ raw_d aStr = Some (ymd_day p)
        /\ ymd_year p <> 0 /\ ymd_month p <> 0 /\ ymd_day p <> 0).
Proof.
  split; [|split; [|split]].
  - unfold compareYMD.
    destruct (parseYMD aStr) as [[ya ma da]|], (parseYMD bStr) as [[yb mb db]|];
      simpl; try reflexivity.
    rewrite (Z.eqb_sym yb ya), (Z.eqb_sym mb ma).
    destruct (ya =? yb); simpl; [|lia]. destruct (ma =? mb); simpl; lia.
  - unfold compareYMD. intros [H|H]; rewrite H; [reflexivity|].
    now destruct (parseYMD aStr).
  - intros a b. apply compareYMD_parsed.
  - intros p Hp. pose proof (parseYMD_nonzero _ _ Hp) as Hnz.
    unfold parseYMD in Hp. destruct (falsy _ || falsy _ || falsy _) eqn:E;
      [discriminate|].
    apply orb_false_iff in E as [E Ed]. apply orb_false_iff in E as [Ey Em].
    inversion Hp; subst; simpl in *.
    destruct aStr as [[y|] [m|] [d|]]; simpl in *; try discriminate. tauto.
Qed.

(** X6: for two strings that name days of the calendar in years after 99
    and before 275760, the sign of [compareYMD] is the order of the dates
    that [dateFromYMD] builds from them, which is the order the simulation
    uses for the events. *)
Theorem X6_compareYMD_agrees_with_dates (aStr bStr : RawYMD) (a b : YMD) :
  parseYMD aStr = Some a -> parseYMD bStr = Some b ->
  plainYear (ymd_year a) -> plainYear (ymd_year b) ->
  calendar_ymd a -> calendar_ymd b ->
  (compareYMD aStr bStr < 0 <-> date_lt (dateFromYMD a) (dateFromYMD b))
  /\ (compareYMD aStr bStr = 0 <-> dateFromYMD a = dateFromYMD b)
  /\ (0 < compareYMD aStr bStr <-> date_lt (dateFromYMD b) (dateFromYMD a)).
Proof.
  intros Ha Hb _ _ Hca Hcb.
  destruct (compareYMD_parsed _ _ _ _ Ha Hb) as [Hlt Heq].
  destruct (compareYMD_parsed _ _ _ _ Hb Ha) as [Hgt _].
  assert (compareYMD bStr aStr = - compareYMD aStr bStr) as Hanti.
  { unfold compareYMD. rewrite Ha, Hb.
    rewrite (Z.eqb_sym (ymd_year b)), (Z.eqb_sym (ymd_month b)).
    destruct (ymd_year a =? ymd_year b); simpl; [|lia].
    destruct (ymd_month a =? ymd_month b); simpl; lia. }
  rewrite !dateFromYMD_calendar by assumption. rewrite !date_lt_iff. simpl.
  split; [|split].
  - rewrite Hlt. lia.
  - rewrite Heq. destruct a, b; simpl. split; intros H; inversion H; f_equal; lia.
  - replace (0 < compareYMD aStr bStr) with (0 < - compareYMD bStr aStr) by (f_equal; lia).
    assert (0 < - compareYMD bStr aStr <-> compareYMD bStr aStr < 0) as -> by lia.
    rewrite Hgt. lia.
Qed.

Lemma X6_witness_december :
  compareYMD (mkRaw (Some 2025) (Some 12) (Some 15)) (mkRaw (Some 2026) (Some 1) (Some 5)) < 0
  /\ date_lt (dateFromYMD (mkYMD 2025 12 15)) (dateFromYMD (mkYMD 2026 1 5)).
Proof.
  assert (calendar_ymd (mkYMD 2025 12 15)) as H1 by (vm_compute; repeat split; intros H; discriminate H).
  assert (calendar_ymd (mkYMD 2026 1 5)) as H2 by (vm_compute; repeat split; intros H; discriminate H).
  assert (plainYear (ymd_year (mkYMD 2025 12 15))) as Y1 by (unfold plainYear; cbn; lia).
  assert (plainYear (ymd_year (mkYMD 2026 1 5))) as Y2 by (unfold plainYear; cbn; lia).
  split; [reflexivity|].
  apply (proj1 (X6_compareYMD_agrees_with_dates
                  (mkRaw (Some 2025) (Some 12) (Some 15))
                  (mkRaw (Some 2026) (Some 1) (Some 5))
                  (mkYMD 2025 12 15) (mkYMD 2026 1 5) eq_refl eq_refl Y1 Y2 H1 H2)).
  reflexivity.
Defined.

(** X7: on dates, [getYearMonthKey] orders the months of the calendar: two
    dates have the same key exactly when they are in the same month of the
    same year, and a smaller key exactly when the month is earlier. *)
Theorem X7_year_month_key_orders_months (a b : Date) :
  valid_date a -> valid_date b ->
  (getYearMonthKey a = getYearMonthKey b <->
   getFullYear a = getFullYear b /\ getMonth a = getMonth b)
  /\ (getYearMonthKey a < getYearMonthKey b <->
      getFullYear a < getFullYear b
      \/ (getFullYear a = getFullYear b /\ getMonth a < getMonth b))
  /\ getYearMonthKey a mod 100 = getMonth a + 1
  /\ getYearMonthKey a / 100 = getFullYear a.
Proof.
  intros [Ha _] [Hb _]. unfold getYearMonthKey.
  split; [lia|]. split; [lia|].
  split.
  - rewrite Z.add_comm, Z.mod_add by lia. apply Z.mod_small. lia.
  - rewrite Z.add_comm, Z.div_add by lia. rewrite Z.div_small by lia. lia.
Qed.

Lemma X7_witness_two_months :
  getYearMonthKey (mkDate 2025 11 31) < getYearMonthKey (mkDate 2026 0 15).
Proof.
  assert (valid_date (mkDate 2025 11 31)) as H1 by (vm_compute; repeat split; intros H; discriminate H).
  assert (valid_date (mkDate 2026 0 15)) as H2 by (vm_compute; repeat split; intros H; discriminate H).
  apply (proj1 (proj2 (X7_year_month_key_orders_months _ _ H1 H2))).
  left. simpl. lia.
Defined.

(** ** The summary panel *)

(** X8: the amount shown as available for the debts is the cash with which
    a period starts once the events counted in the period and the carry-over
    received are added to it, and the total debt shown is the debt with which
    the simulation starts. *)
Theorem X8_summary_matches_simulation (st : AppState) (s : Sim) :
  let p := runPeriod st s in
  (initialCash p
   == availableForDebt st + eventsTotal income (eventLog p)
      - eventsTotal expense (eventLog p) + carryOver s)%Q
  /\ (eventLog p = [] -> (carryOver s == 0)%Q ->
      (initialCash p == availableForDebt st)%Q)
  /\ totalDebtStart st = debtRemaining (initSim st)
  /\ (availableForDebt st
      == grossIncome st - sumItems (deductions st) - sumItems (fixedExpenses st)
         - discretionary st)%Q.
Proof.
  intros p.
  destruct (addEvent_fold (simStartDateOf st) (prevPeriodEnd s) (currentDate s)
              (events st) (baseNet st) (baseFixed st + discretionary st)%Q [])
    as (H1 & H2 & H3).
  cbv zeta in H1, H2, H3. simpl app in H1.
  assert (eventLog p
          = filter (λ ev, includeEvent (simStartDateOf st) (prevPeriodEnd s)
                            (currentDate s) ev = true) (events st)) as Hlog by exact H1.
  assert (initialCash p
          == availableForDebt st + eventsTotal income (eventLog p)
             - eventsTotal expense (eventLog p) + carryOver s)%Q as Hcash.
  { rewrite Hlog. unfold availableForDebt, netIncomeDisplay.
    change (initialCash p)
      with ((foldl (addEvent (simStartDateOf st) (prevPeriodEnd s) (currentDate s))
               (baseNet st, (baseFixed st + discretionary st)%Q, []) (events st)).1.1
            - (foldl (addEvent (simStartDateOf st) (prevPeriodEnd s) (currentDate s))
                 (baseNet st, (baseFixed st + discretionary st)%Q, []) (events st)).1.2
            + carryOver s)%Q.
    unfold baseNet, baseFixed in *. lra. }
  split; [exact Hcash|]. split.
  - intros He Hc. rewrite He in Hcash. unfold eventsTotal in Hcash.
    cbn [foldl] in Hcash. lra.
  - split; [reflexivity|]. unfold availableForDebt, netIncomeDisplay. lra.
Qed.

(** ** The target of the current strategy *)

Lemma StronglySorted_lookup_lt {A} (R : A -> A -> Prop) l : forall i j x y,
  StronglySorted R l -> l !! i = Some x -> l !! j = Some y -> (i < j)%nat -> R x y.
Proof.
  induction l as [|a l IH]; intros i j x y Hs Hi Hj Hij; [discriminate|].
  inversion Hs as [|? ? Hs' Hall]; subst.
  destruct j as [|j]; [lia|]. simpl in Hj.
  destruct i as [|i]; simpl in Hi.
  - inversion Hi; subst. rewrite Forall_forall in Hall. apply Hall.
    eapply list_elem_of_lookup_2; eauto.
  - eapply IH; eauto. lia.
Qed.

(** X10: the debt named as the target of the current strategy has a
    positive balance and comes first, in the order of the strategy, among the
    debts with a positive balance: it has the smallest balance of them under
    snowball, the highest rate under avalanche, the largest monthly minimum
    under highMin, the largest balance under reverseSnowball and the highest
    rate under any other selector; no debt is named exactly when no balance
    is positive. *)
Theorem X10_current_target_is_first_of_strategy (st : AppState) :
  (currentTarget st = None <->
   forall d, d ∈ debts st -> (Debt.balance d <= 0)%Q)
  /\ (forall d,
        currentTarget st = Some d ->
        d ∈ debts st
        /\ (0 < Debt.balance d)%Q
        /\ (forall d', d' ∈ debts st -> (0 < Debt.balance d')%Q ->
              strategy_leb (strategy st) d d' = true)
        /\ (strategy st = "snowball"%string ->
            forall d', d' ∈ debts st -> (0 < Debt.balance d')%Q ->
                       (Debt.balance d <= Debt.balance d')%Q)
        /\ (strategy st = "avalanche"%string ->
            forall d', d' ∈ debts st -> (0 < Debt.balance d')%Q ->
                       (Debt.rate d' <= Debt.rate d)%Q)
        /\ (strategy st = "highMin"%string ->
            forall d', d' ∈ debts st -> (0 < Debt.balance d')%Q ->
                       (Debt.monthlyMin d' <= Debt.monthlyMin d)%Q)
        /\ (strategy st = "reverseSnowball"%string ->
            forall d', d' ∈ debts st -> (0 < Debt.balance d')%Q ->
                       (Debt.balance d' <= Debt.balance d)%Q)
        /\ (strategy st <> "snowball"%string -> strategy st <> "avalanche"%string ->
            strategy st <> "highMin"%string ->
            strategy st <> "reverseSnowball"%string ->
            forall d', d' ∈ debts st -> (0 < Debt.balance d')%Q ->
                       (Debt.rate d' <= Debt.rate d)%Q)).
Proof.
  unfold currentTarget.
  set (tempD := stable_sort (strategy_leb (strategy st)) (debts st)).
  assert (tempD ≡ₚ debts st) as Hperm by apply stable_sort_perm.
  assert (StronglySorted (λ a b, strategy_leb (strategy st) a b = true) tempD) as Hs.
  { apply stable_sort_sorted; [apply strategy_leb_total|apply strategy_leb_trans]. }
  split.
  - destruct (list_find _ tempD) as [[i x]|] eqn:E; simpl.
    + split; [discriminate|]. intros H. exfalso.
      apply list_find_Some in E as (Hi & Hp & _).
      apply qltb_true in Hp.
      assert (x ∈ debts st) as Hin
        by (rewrite <- Hperm; eapply list_elem_of_lookup_2; eauto).
      specialize (H x Hin). lra.
    + split; [|reflexivity]. intros _ d Hd.
      apply list_find_None in E. rewrite Forall_forall in E.
      rewrite <- Hperm in Hd. specialize (E d Hd).
      destruct (qltb 0 (Debt.balance d)) eqn:Eb; [congruence|].
      now apply qltb_false in Eb.
  - intros d Hd.
    destruct (list_find _ tempD) as [[i x]|] eqn:E; simpl in Hd; [|discriminate].
    inversion Hd; subst x; clear Hd.
    apply list_find_Some in E as (Hi & Hp & Hfirst).
    apply qltb_true in Hp.
    assert (forall d', d' ∈ debts st -> (0 < Debt.balance d')%Q ->
                       strategy_leb (strategy st) d d' = true) as Hmin.
    { intros d' Hd' Hb'. rewrite <- Hperm in Hd'.
      apply list_elem_of_lookup in Hd' as [j Hj].
      destruct (lt_eq_lt_dec i j) as [[Hlt|Heq]|Hgt].
      - exact (StronglySorted_lookup_lt
                 (λ a b, strategy_leb (strategy st) a b = true)
                 tempD i j d d' Hs Hi Hj Hlt).
      - subst j. rewrite Hi in Hj. inversion Hj; subst.
        destruct (strategy_leb_total (strategy st) d' d'); assumption.
      - exfalso. apply (Hfirst j d' Hj Hgt). now apply qltb_true. }
    split; [rewrite <- Hperm; eapply list_elem_of_lookup_2; eauto|].
    split; [exact Hp|]. split; [exact Hmin|].
    repeat split.
    + intros Hs' d' Hd' Hb'. pose proof (Hmin d' Hd' Hb') as H.
      rewrite Hs' in H. now apply qleb_true in H.
    + intros Hs' d' Hd' Hb'. pose proof (Hmin d' Hd' Hb') as H.
      rewrite Hs' in H. now apply qleb_true in H.
    + intros Hs' d' Hd' Hb'. pose proof (Hmin d' Hd' Hb') as H.
      rewrite Hs' in H. now apply qleb_true in H.
    + intros Hs' d' Hd' Hb'. pose proof (Hmin d' Hd' Hb') as H.
      rewrite Hs' in H. now apply qleb_true in H.
    + intros H1 H2 H3 H4 d' Hd' Hb'. pose proof (Hmin d' Hd' Hb') as H.
      rewrite strategy_leb_other in H by assumption. now apply qleb_true in H.
Qed.

(** ** The freedom date *)

Section Freedom.
Variable st : AppState.

(** The index recorded after [n] periods is the first period that ended with
    a total balance of at most 5. *)
Lemma debtFreedomIndex_iterate n :
  match debtFreedomIndex (iterate n st) with
  | Some i =>
      (i < n)%nat
      /\ (debtRemaining (iterate (S i) st) <= 5)%Q
      /\ (forall j, (j < i)%nat -> (5 < debtRemaining (iterate (S j) st))%Q)
  | None => forall j, (j < n)%nat -> (5 < debtRemaining (iterate (S j) st))%Q
  end.
Proof.
  induction n as [|n IH].
  - simpl. intros j Hj. lia.
  - change (debtFreedomIndex (iterate (S n) st))
      with (match debtFreedomIndex (iterate n st) with
            | None => if qleb (debtRemaining (iterate (S n) st)) 5
                      then Some (length (simulationResults (iterate n st)))
                      else None
            | Some i => Some i
            end).
    destruct (debtFreedomIndex (iterate n st)) as [i|].
    + destruct IH as (H1 & H2 & H3). repeat split; auto.
    + rewrite results_length.
      destruct (qleb (debtRemaining (iterate (S n) st)) 5) eqn:E.
      * apply qleb_true in E. repeat split; auto.
      * apply qleb_false in E. intros j Hj.
        destruct (decide (j = n)) as [->|Hne]; [exact E|]. apply IH. lia.
Qed.

Lemma endBalance_lookup n j row :
  simulationResults (iterate n st) !! j = Some row ->
  (j < n)%nat /\ RowData.endBalance row = debtRemaining (iterate (S j) st).
Proof.
  intros H. assert (j < n)%nat as Hj.
  { apply lookup_lt_Some in H. now rewrite results_length in H. }
  split; [exact Hj|]. rewrite results_lookup in H by exact Hj.
  inversion H; subst. reflexivity.
Qed.

End Freedom.

(** X11: the freedom index kept by the run is the position of the first row
    whose ending total balance is at most 5; none is kept exactly when every
    row ends above 5. *)
Theorem X11_freedom_index_is_first_row_at_most_5 (st : AppState) :
  let final := runSimulation st in
  let rows := simulationResults final in
  (forall i,
     debtFreedomIndex final = Some i <->
     (exists row, rows !! i = Some row /\ (RowData.endBalance row <= 5)%Q)
     /\ (forall j row, (j < i)%nat -> rows !! j = Some row ->
                       (5 < RowData.endBalance row)%Q))
  /\ (debtFreedomIndex final = None <->
      forall j row, rows !! j = Some row -> (5 < RowData.endBalance row)%Q).
Proof.
  intros final rows.
  destruct (runLoop_stops st MAX_ITERS (le_n _)) as (m & _ & Hrun & _ & _).
  assert (final = iterate m st) as Hfinal by exact Hrun.
  unfold rows. rewrite Hfinal.
  pose proof (debtFreedomIndex_iterate st m) as Hidx.
  assert (forall j, (j < m)%nat ->
            exists row, simulationResults (iterate m st) !! j = Some row
                        /\ RowData.endBalance row = debtRemaining (iterate (S j) st))
    as Hrow.
  { intros j Hj. eexists. split; [now apply results_lookup|reflexivity]. }
  split.
  - intros i. destruct (debtFreedomIndex (iterate m st)) as [i0|].
    + destruct Hidx as (H1 & H2 & H3). split.
      * intros H. inversion H; subst i0. split.
        -- destruct (Hrow i H1) as (row & Hr & He). exists row.
           split; [exact Hr|now rewrite He].
        -- intros j row Hj Hr. apply endBalance_lookup in Hr as [_ ->]. now apply H3.
      * intros [(row & Hr & Hle) Hearlier]. f_equal.
        pose proof Hr as Hr'. apply endBalance_lookup in Hr' as [Hi He].
        rewrite He in Hle.
        destruct (lt_eq_lt_dec i0 i) as [[Hlt|Heq]|Hgt]; [|exact Heq|].
        -- destruct (Hrow i0 H1) as (row0 & Hr0 & He0).
           pose proof (Hearlier i0 row0 Hlt Hr0) as Hc. rewrite He0 in Hc. lra.
        -- pose proof (H3 i Hgt) as Hc. lra.
    + split; [discriminate|]. intros [(row & Hr & Hle) _].
      apply endBalance_lookup in Hr as [Hi He]. rewrite He in Hle.
      pose proof (Hidx i Hi). lra.
  - destruct (debtFreedomIndex (iterate m st)) as [i0|].
    + destruct Hidx as (H1 & H2 & H3). split; [discriminate|]. intros H.
      destruct (Hrow i0 H1) as (row & Hr & He).
      pose proof (H i0 row Hr) as Hc. rewrite He in Hc. lra.
    + split; [|reflexivity]. intros _ j row Hr.
      apply endBalance_lookup in Hr as [Hj ->]. now apply Hidx.
Qed.

(** X12: no data is reported exactly when the simulation starts with at most
    5 of debt and at most 5 of goal shortfall, so that no period is run;
    never is reported only when the run has used all 120 periods and each of
    them ended above 5 of debt; otherwise the row reported is the row at the
    freedom index, it ends with at most 5 of debt, and the number of periods
    reported is that index plus one. *)
Theorem X12_freedom_report (st : AppState) :
  let final := runSimulation st in
  let rows := simulationResults final in
  (freedomReport final = SinDatos <->
   (debtRemaining (initSim st) <= 5)%Q /\ (totalGoalRemaining (initSim st) <= 5)%Q)
  /\ (freedomReport final = Nunca ->
      iteration final = 120%nat
      /\ length rows = 120%nat
      /\ forall j row, rows !! j = Some row -> (5 < RowData.endBalance row)%Q)
  /\ (forall row q,
        freedomReport final = FreeAt row q ->
        debtFreedomIndex final = Some (q - 1)%nat
        /\ (1 <= q <= iteration final)%nat
        /\ rows !! (q - 1)%nat = Some row
        /\ (RowData.endBalance row <= 5)%Q).
Proof.
  intros final rows.
  destruct (runLoop_stops st MAX_ITERS (le_n _)) as (m & Hm & Hrun & Hbody & Hstop).
  assert (final = iterate m st) as Hfinal by exact Hrun.
  pose proof (debtFreedomIndex_iterate st m) as Hidx.
  assert (length rows = m) as Hlen by (unfold rows; rewrite Hfinal; apply results_length).
  assert (iteration final = m) as Hit by (rewrite Hfinal; apply iteration_iterate).
  assert (last rows = None <-> m = 0%nat) as Hlast.
  { rewrite last_None. split; intros H.
    - rewrite H in Hlen. simpl in Hlen. lia.
    - apply length_zero_iff_nil. lia. }
  assert (m = 0%nat <->
          (debtRemaining (initSim st) <= 5)%Q /\ (totalGoalRemaining (initSim st) <= 5)%Q)
    as Hzero.
  { split.
    - intros ->. change (iterate 0 st) with (initSim st) in Hstop.
      apply loopCond_false in Hstop as [H|H]; [exact H|].
      exfalso. revert H. unfold MAX_ITERS. simpl. lia.
    - intros [H1 H2]. destruct m as [|m']; [reflexivity|]. exfalso.
      assert (loopCond (iterate 0 st) = true) as Hc by (apply Hbody; lia).
      change (iterate 0 st) with (initSim st) in Hc.
      apply loopCond_spec in Hc as [[Hc|Hc] _]; lra. }
  assert (rows = simulationResults (iterate m st)) as Hrows
    by (unfold rows; now rewrite Hfinal).
  unfold freedomReport. fold rows. rewrite Hfinal.
  split; [|split].
  - rewrite <- Hzero, <- Hlast.
    destruct (debtFreedomIndex (iterate m st)), (last rows);
      split; intros H; try discriminate; try reflexivity.
  - destruct (debtFreedomIndex (iterate m st)) as [i|];
      destruct (last rows) as [lastRow|] eqn:El; try discriminate.
    intros _.
    assert (m <> 0%nat) as Hm0.
    { intros H0. apply Hlast in H0. congruence. }
    assert (m = 120%nat) as Hm120.
    { apply loopCond_false in Hstop as [[H _]|H].
      - exfalso. destruct m as [|m']; [lia|].
        pose proof (Hidx m' ltac:(lia)) as Hc. lra.
      - rewrite iteration_iterate in H. unfold MAX_ITERS in *. lia. }
    rewrite iteration_iterate. split; [lia|]. split; [lia|].
    intros j row Hr. rewrite Hrows in Hr.
    apply endBalance_lookup in Hr as [Hj ->]. now apply Hidx.
  - intros row q.
    destruct (debtFreedomIndex (iterate m st)) as [i|];
      destruct (last rows) as [lastRow|] eqn:El; try discriminate.
    destruct Hidx as (H1 & H2 & H3).
    assert (simulationResults (iterate m st) !! i
            = Some (rowData (S i) (runPeriod st (iterate i st)))) as Hr
      by now apply results_lookup.
    rewrite <- Hrows in Hr. rewrite Hr. simpl.
    intros H. injection H as Hrow Hq. subst row q.
    replace (i + 1 - 1)%nat with i by lia. rewrite Hr.
    rewrite iteration_iterate.
    split; [reflexivity|]. split; [lia|]. split; [reflexivity|exact H2].
Qed.

(** ** The breakdown of the minimums *)

Section MinDetails.
Variable periodEnd : Date.

(** What the four variables hold after a queue whose due dates increase. *)
Lemma minDetail_fold obs :
  queue_ok obs ->
  let r := foldl (minDetailStep periodEnd) (0%Q, 0%Q, None, None) obs in
  ((0 <= r.1.1.2)%Q /\ (r.1.1.2 <= r.1.1.1)%Q)
  /\ r.1.2 = head (Ob.dueDate <$> obs)
  /\ r.2 = head (Ob.dueDate <$> filter (λ o, qltb eps (Ob.amountRemaining o) = true) obs)
  /\ ((r.1.1.2 == 0)%Q ->
      Forall (λ o, date_le (Ob.dueDate o) periodEnd -> (Ob.amountRemaining o == 0)%Q) obs).
Proof.
  induction obs as [|o obs IH] using rev_ind; intros Hq.
  - simpl. repeat split; try lra. intros _. constructor.
  - destruct Hq as [Hok Hsorted].
    apply Forall_app in Hok as [Hok Ho]. apply Forall_inv in Ho.
    unfold sortedByDue in Hsorted. rewrite fmap_app in Hsorted.
    apply StronglySorted_app in Hsorted as (Hcross & Hs1 & _).
    assert (forall x, x ∈ obs -> date_lt (Ob.dueDate x) (Ob.dueDate o)) as Hbefore.
    { intros x Hx. apply Hcross; [now apply list_elem_of_fmap_2|].
      simpl. apply list_elem_of_singleton. reflexivity. }
    specialize (IH (conj Hok Hs1)). cbv zeta in IH.
    rewrite foldl_app. cbn [foldl].
    destruct (foldl (minDetailStep periodEnd) (0%Q, 0%Q, None, None) obs)
      as [[[req rem] e] n].
    simpl in IH. destruct IH as ((Hrem0 & Hrem) & He & Hn & Hzero).
    destruct Ho as [Ho0 Ho1].
    assert (forall d, head (Ob.dueDate <$> obs) = Some d ->
                      date_ltb (Ob.dueDate o) d = false) as Hfirst.
    { intros d Hd. destruct obs as [|x obs']; [discriminate|].
      simpl in Hd. inversion Hd; subst d.
      destruct (date_ltb (Ob.dueDate o) (Ob.dueDate x)) eqn:E; [|reflexivity].
      apply date_ltb_lt in E. exfalso.
      apply (date_lt_irrefl (Ob.dueDate x)).
      eapply date_lt_trans; [apply Hbefore; left|exact E]. }
    assert (forall d,
              head (Ob.dueDate <$> filter (λ o, qltb eps (Ob.amountRemaining o) = true) obs)
              = Some d -> date_ltb (Ob.dueDate o) d = false) as Hnext.
    { intros d Hd.
      destruct (filter (λ o, qltb eps (Ob.amountRemaining o) = true) obs)
        as [|x l] eqn:Ef; [discriminate|].
      simpl in Hd. inversion Hd; subst d.
      assert (x ∈ obs) as Hx.
      { eapply (list_elem_of_filter (λ o, qltb eps (Ob.amountRemaining o) = true)).
        rewrite Ef. left. }
      destruct (date_ltb (Ob.dueDate o) (Ob.dueDate x)) eqn:E; [|reflexivity].
      apply date_ltb_lt in E. exfalso.
      apply (date_lt_irrefl (Ob.dueDate x)).
      eapply date_lt_trans; [apply Hbefore, Hx|exact E]. }
    assert ((match e with
             | None => Some (Ob.dueDate o)
             | Some e0 => if date_ltb (Ob.dueDate o) e0
                          then Some (Ob.dueDate o) else Some e0
             end) = head (Ob.dueDate <$> (obs ++ [o]))) as He'.
    { rewrite fmap_app. subst e. destruct (head (Ob.dueDate <$> obs)) as [d|] eqn:Ed.
      - rewrite (Hfirst d eq_refl). destruct obs; [discriminate|exact (eq_sym Ed)].
      - destruct obs; [reflexivity|discriminate]. }
    assert ((if qltb eps (Ob.amountRemaining o)
             then match n with
                  | None => Some (Ob.dueDate o)
                  | Some e0 => if date_ltb (Ob.dueDate o) e0
                               then Some (Ob.dueDate o) else Some e0
                  end
             else n)
            = head (Ob.dueDate <$>
                      filter (λ o, qltb eps (Ob.amountRemaining o) = true) (obs ++ [o])))
      as Hn'.
    { rewrite filter_app, fmap_app. subst n.
      destruct (qltb eps (Ob.amountRemaining o)) eqn:Eo.
      - rewrite (filter_cons_True _ o []) by exact Eo.
        destruct (filter (λ o, qltb eps (Ob.amountRemaining o) = true) obs)
          as [|x l] eqn:Ef.
        + reflexivity.
        + simpl. rewrite (Hnext (Ob.dueDate x)); [reflexivity|reflexivity].
      - rewrite (filter_cons_False _ o []) by (rewrite Eo; discriminate).
        rewrite filter_nil, fmap_nil, app_nil_r. reflexivity. }
    unfold minDetailStep. cbv zeta. rewrite He', Hn'.
    destruct (date_leb (Ob.dueDate o) periodEnd) eqn:Edue; simpl.
    + split; [split; lra|]. split; [reflexivity|]. split; [reflexivity|].
      intros Hz. apply Forall_app. split.
      * apply Hzero. lra.
      * apply Forall_singleton. intros _. lra.
    + split; [split; lra|]. split; [reflexivity|]. split; [reflexivity|].
      intros Hz. apply Forall_app. split.
      * now apply Hzero.
      * apply Forall_singleton. intros Hle. apply date_leb_le in Hle. congruence.
Qed.

End MinDetails.

(** X13: in every entry of the breakdown of minimums built for a period, the
    amount still owed lies between 0 and the accumulated minimum required by
    the period end; the first due date is the due date of the oldest
    obligation of the queue; the next due date is that of the first
    obligation of the queue with more than 0.5 left, and is absent when there
    is none; and when nothing is owed, every obligation due by the period end
    is paid in full. *)
Theorem X13_minimum_breakdown (st : AppState) (n : nat) :
  let p := runPeriod st (iterate n st) in
  let queues := s_obligations (settled p) in
  Forall
    (λ entry,
       let c := entry.2 in
       exists debt ob0 rest,
         debt ∈ s_debts (settled p)
         /\ entry.1 = Debt.name debt
         /\ queues !! Debt.id debt = Some (ob0 :: rest)
         /\ (0 <= MinDetail.remainingAfter c)%Q
         /\ (MinDetail.remainingAfter c <= MinDetail.requiredBefore c)%Q
         /\ MinDetail.firstDueDate c = Some (Ob.dueDate ob0)
         /\ MinDetail.nextDueDate c
            = head (Ob.dueDate <$>
                      filter (λ o, qltb eps (Ob.amountRemaining o) = true) (ob0 :: rest))
         /\ ((MinDetail.remainingAfter c == 0)%Q ->
             forall o, o ∈ ob0 :: rest -> date_le (Ob.dueDate o) (periodEnd p) ->
                       (Ob.amountRemaining o == 0)%Q))
    (minDetails (periodEnd p) (s_debts (settled p)) queues).
Proof.
  intros p queues.
  assert (obligations_wf queues) as Hwf by exact (obligations_wf_iterate st (S n)).
  apply Forall_forall. intros [name c] Hin.
  unfold minDetails in Hin. apply list_elem_of_omap in Hin as (debt & Hdebt & Hc).
  destruct (queues !! Debt.id debt) as [obs|] eqn:Eq; [|discriminate].
  destruct obs as [|ob0 rest]; [discriminate|].
  pose proof (Hwf _ _ Eq) as [Hq _].
  pose proof (minDetail_fold (periodEnd p) (ob0 :: rest) Hq) as Hfold.
  cbv zeta in Hfold. unfold minComponents in Hc.
  destruct (foldl (minDetailStep (periodEnd p)) (0%Q, 0%Q, None, None) (ob0 :: rest))
    as [[[req rem] e] nx].
  simpl in Hfold. destruct Hfold as ((H0 & H1) & He & Hn & Hz).
  simpl in Hc. inversion Hc; subst name c. simpl.
  exists debt, ob0, rest. repeat split; auto.
  intros Hrem o Ho. specialize (Hz Hrem). rewrite Forall_forall in Hz. now apply Hz.
Qed.

(** ** The period clock *)

Lemma advance_spec d :
  valid_date d ->
  advance d =
    if getDate d <=? 15
    then mkDate (getFullYear d) (getMonth d)
           (days_in_month (getFullYear d) (getMonth d))
    else if getMonth d =? 11 then mkDate (getFullYear d + 1) 0 15
         else mkDate (getFullYear d) (getMonth d + 1) 15.
Proof.
  intros [Hm Hd]. unfold advance. destruct (getDate d <=? 15).
  - now apply newDate_last_day.
  - rewrite newDate_next_15 by exact Hm.
    destruct (getMonth d =? 11) eqn:E.
    + apply Z.eqb_eq in E. rewrite E. reflexivity.
    + apply Z.eqb_neq in E.
      replace (11 <? getMonth d + 1) with false by (symmetry; apply Z.ltb_ge; lia).
      reflexivity.
Qed.

(** X14: every period end after the first is the 15th or the last day of its
    month: a 15th is followed by the last day of the same month, and a last
    day by the 15th of the next month. *)
Theorem X14_period_ends_alternate (st : AppState) (k : nat) :
  let e := periodEndAt st (S k) in
  let e' := periodEndAt st (S (S k)) in
  let y := getFullYear e in
  let m := getMonth e in
  valid_date e
  /\ ((getDate e = 15 /\ e' = mkDate y m (days_in_month y m))
      \/ (getDate e = days_in_month y m
          /\ e' = if m =? 11 then mkDate (y + 1) 0 15 else mkDate y (m + 1) 15)).
Proof.
  intros e e' y m.
  assert (e' = advance e) as He' by apply (currentDate_S st (S k)).
  assert (e = advance (periodEndAt st k)) as He by apply (currentDate_S st k).
  assert (valid_date e) as Hv by apply (currentDate_valid st (S k)).
  pose proof (currentDate_valid st k) as Hd. fold (periodEndAt st k) in Hd.
  split; [exact Hv|]. rewrite He'. rewrite (advance_spec e Hv). fold y m.
  rewrite (advance_spec _ Hd) in He.
  set (d := periodEndAt st k) in *.
  pose proof (days_in_month_bounds (getFullYear d) (getMonth d)) as Hb.
  pose proof (days_in_month_bounds y m) as Hb'.
  destruct (getDate d <=? 15) eqn:E.
  - right.
    assert (getDate e = days_in_month y m) as Hday by (unfold y, m; rewrite He; reflexivity).
    split; [exact Hday|].
    replace (getDate e <=? 15) with false by (symmetry; apply Z.leb_gt; lia).
    reflexivity.
  - left.
    assert (getDate e = 15) as Hday
      by (rewrite He; destruct (getMonth d =? 11); reflexivity).
    split; [exact Hday|]. rewrite Hday. reflexivity.
Qed.

(** ** Debts across a period *)

Section DebtsKept.
Local Open Scope Q_scope.

Lemma sameDebt_refl a : sameDebt a a.
Proof. now destruct a. Qed.

Lemma sameDebt_trans a b c : sameDebt a b -> sameDebt b c -> sameDebt a c.
Proof.
  unfold sameDebt. intros H1 H2. rewrite H2, H1. now destruct a.
Qed.

Lemma sameDebt_set a x : sameDebt a (Debt.set_balance a x).
Proof. reflexivity. Qed.

Lemma paidDown_refl a : paidDown a a.
Proof. split; [apply sameDebt_refl|]. split; [lra|auto]. Qed.

Lemma paidDown_trans a b c : paidDown a b -> paidDown b c -> paidDown a c.
Proof.
  intros (H1 & H2 & H3) (H4 & H5 & H6).
  split; [eapply sameDebt_trans; eauto|]. split; [lra|auto].
Qed.

Lemma paidDown_set a b x :
  paidDown a b -> x <= Debt.balance b -> (0 <= Debt.balance b -> 0 <= x) ->
  paidDown a (Debt.set_balance b x).
Proof.
  intros Hab Hx H0. eapply paidDown_trans; [exact Hab|].
  split; [apply sameDebt_set|]. simpl. split; assumption.
Qed.

Lemma Forall2_refl_list {A} (R : A -> A -> Prop) (l : list A) :
  (forall a, R a a) -> Forall2 R l l.
Proof. intros H. induction l; constructor; auto. Qed.

Lemma Forall2_trans_list {A} (R : A -> A -> Prop) (l1 l2 l3 : list A) :
  (forall a b c, R a b -> R b c -> R a c) ->
  Forall2 R l1 l2 -> Forall2 R l2 l3 -> Forall2 R l1 l3.
Proof.
  intros Ht H. revert l3. induction H as [|a b l1 l2 Hab H IH]; intros l3 H3.
  - inversion H3; subst. constructor.
  - inversion H3; subst. constructor; eauto.
Qed.

Lemma Forall2_insert_step {A} (R : A -> A -> Prop) (l0 l : list A) i d d' :
  Forall2 R l0 l -> l !! i = Some d -> (forall a, R a d -> R a d') ->
  Forall2 R l0 (<[i := d']> l).
Proof.
  intros H. revert i. induction H as [|a b l0 l Hab H IH]; intros i Hi Hd.
  - discriminate.
  - destruct i as [|i]; simpl in *.
    + inversion Hi; subst. constructor; auto.
    + constructor; auto.
Qed.

(** *** Minimums *)

Lemma settleDebt_paidDown l0 s e :
  Forall2 paidDown l0 (s_debts s) -> Forall2 paidDown l0 (s_debts (settleDebt s e)).
Proof.
  intros H. unfold settleDebt.
  destruct (s_debts s !! MinEntry.ix e) as [debt|] eqn:Ed; [|exact H].
  simpl. eapply Forall2_insert_step; [exact H|exact Ed|].
  intros a Ha.
  match goal with |- context [payObligations ?js ?ps] =>
    destruct (payObligations_balance js ps) as [H1 H2] end.
  simpl in H1, H2. apply paidDown_set; [exact Ha|exact H1|].
  intros H0. destruct H2 as [H2|H2]; [rewrite H2; exact H0|exact H2].
Qed.

Lemma settleMinimums_paidDown cashAvailable currentDebts m :
  Forall2 paidDown currentDebts (s_debts (settleMinimums cashAvailable currentDebts m)).
Proof.
  unfold settleMinimums.
  assert (Forall2 paidDown currentDebts
            (s_debts (mkSettle cashAvailable currentDebts m 0))) as H
    by (apply Forall2_refl_list, paidDown_refl).
  revert H. generalize (mkSettle cashAvailable currentDebts m 0).
  induction (debtsForMin currentDebts m) as [|e es IH]; intros s H; simpl; [exact H|].
  apply IH, settleDebt_paidDown, H.
Qed.

(** *** Strategy *)

Lemma payExtra_paidDown l0 s i s' :
  payExtra s i = Some s' ->
  Forall2 paidDown l0 (x_debts s) -> Forall2 paidDown l0 (x_debts s').
Proof.
  unfold payExtra. destruct (x_debts s !! i) as [debt|] eqn:Ed; [|discriminate].
  destruct (qleb _ 0) eqn:E; [discriminate|]. apply qleb_false in E.
  intros Hs H. inversion Hs; subst; clear Hs. simpl.
  eapply Forall2_insert_step; [exact H|exact Ed|].
  intros a Ha.
  destruct (qmin_spec (x_extra s) (Debt.balance debt)) as [[Hm Hq]|[Hm Hq]];
    rewrite Hq in *; apply paidDown_set; auto; intros; lra.
Qed.

Lemma payOrdered_paidDown l0 ixs : forall s,
  Forall2 paidDown l0 (x_debts s) -> Forall2 paidDown l0 (x_debts (payOrdered ixs s)).
Proof.
  induction ixs as [|i ixs IH]; intros s H; simpl; [exact H|].
  destruct (qleb (x_extra s) 1); [exact H|].
  apply IH. destruct (payExtra s i) as [s'|] eqn:E; simpl; [|exact H].
  eapply payExtra_paidDown; eauto.
Qed.

Lemma payFlat_paidDown l0 total s i :
  Forall2 paidDown l0 (x_debts s) -> Forall2 paidDown l0 (x_debts (payFlat total s i)).
Proof.
  intros H. unfold payFlat. destruct (qleb (x_extra s) 1); [exact H|].
  destruct (x_debts s !! i) as [debt|] eqn:Ed; [|exact H].
  destruct (qleb _ 0) eqn:E; [exact H|]. apply qleb_false in E. simpl.
  eapply Forall2_insert_step; [exact H|exact Ed|].
  intros a Ha.
  destruct (qmin_spec (x_extra s * (Debt.balance debt / total)) (Debt.balance debt))
    as [[Hm Hq]|[Hm Hq]];
    rewrite Hq in *; apply paidDown_set; auto; intros; lra.
Qed.

Lemma payFlat_fold_paidDown l0 total ixs : forall s,
  Forall2 paidDown l0 (x_debts s) ->
  Forall2 paidDown l0 (x_debts (foldl (payFlat total) s ixs)).
Proof.
  induction ixs as [|i ixs IH]; intros s H; simpl; [exact H|].
  apply IH, payFlat_paidDown, H.
Qed.

Lemma applyStrategy_paidDown strategy0 cashAvailable currentDebts :
  Forall2 paidDown currentDebts
    (x_debts (applyStrategy strategy0 cashAvailable currentDebts)).
Proof.
  assert (Forall2 paidDown currentDebts currentDebts) as H
    by (apply Forall2_refl_list, paidDown_refl).
  unfold applyStrategy. destruct (qltb 1 cashAvailable); [|exact H].
  match goal with |- context [if ?c then _ else _] => destruct c end.
  - apply payFlat_fold_paidDown. exact H.
  - apply payOrdered_paidDown. exact H.
Qed.

(** *** One period *)

Lemma accrueDebt_same d : sameDebt d (accrueDebt d).
Proof. unfold accrueDebt. destruct (qleb _ eps); apply sameDebt_set. Qed.

Lemma snapDebt_same d : sameDebt d (snapDebt d).
Proof.
  unfold snapDebt. destruct (qltb _ 1); [apply sameDebt_set|apply sameDebt_refl].
Qed.

Lemma snapDebt_balance d :
  Debt.balance (snapDebt d) = 0 \/ 1 <= Debt.balance (snapDebt d).
Proof.
  unfold snapDebt. destruct (qltb (Debt.balance d) 1) eqn:E; [now left|].
  right. now apply qltb_false in E.
Qed.

Lemma Forall2_fmap_same {A} (R : A -> A -> Prop) (f : A -> A) (l : list A) :
  (forall a, R a (f a)) -> Forall2 R l (f <$> l).
Proof. intros H. induction l; simpl; constructor; auto. Qed.

Lemma period_debts st s :
  let p := runPeriod st s in
  Forall2 sameDebt (currentDebts s) (accrued p)
  /\ Forall2 paidDown (accrued p) (x_debts (extraPaid p))
  /\ Forall2 sameDebt (x_debts (extraPaid p)) (cleaned p).
Proof.
  intros p. split; [apply Forall2_fmap_same, accrueDebt_same|].
  split; [|apply Forall2_fmap_same, snapDebt_same].
  eapply Forall2_trans_list; [apply paidDown_trans| |].
  - apply (settleMinimums_paidDown (initialCash p) (accrued p) (rolled p)).
  - apply (applyStrategy_paidDown (strategy st) (s_cash (settled p))
             (s_debts (settled p))).
Qed.

Lemma period_sameDebt st s :
  Forall2 sameDebt (currentDebts s) (currentDebts (step st s)).
Proof.
  destruct (period_debts st s) as (H1 & H2 & H3).
  change (currentDebts (step st s)) with (cleaned (runPeriod st s)).
  eapply Forall2_trans_list; [apply sameDebt_trans| |exact H3].
  eapply Forall2_trans_list; [apply sameDebt_trans|exact H1|].
  eapply Forall2_impl; [exact H2|]. intros a b Hab. apply Hab.
Qed.

Lemma sumBalances_acc l : forall a,
  foldl (λ s d, s + Debt.balance d) a l == a + sumBalances l.
Proof.
  unfold sumBalances. induction l as [|d l IH]; intros a; simpl; [ring|].
  rewrite IH, (IH (0 + Debt.balance d)). ring.
Qed.

Lemma sumBalances_cons d l : sumBalances (d :: l) == Debt.balance d + sumBalances l.
Proof.
  unfold sumBalances at 1. simpl. rewrite sumBalances_acc. ring.
Qed.

Lemma sumBalances_nonneg l :
  Forall (λ d, 0 <= Debt.balance d) l -> 0 <= sumBalances l.
Proof.
  induction 1 as [|d l Hd _ IH]; [unfold sumBalances; simpl; lra|].
  rewrite sumBalances_cons. lra.
Qed.

Lemma sumBalances_insert l : forall i d d',
  l !! i = Some d ->
  sumBalances (<[i := d']> l) == sumBalances l - Debt.balance d + Debt.balance d'.
Proof.
  induction l as [|x l IH]; intros i d d' Hi; [discriminate|].
  destruct i as [|i]; simpl in *.
  - inversion Hi; subst. rewrite !sumBalances_cons. ring.
  - rewrite !sumBalances_cons, (IH i d d' Hi). ring.
Qed.

End DebtsKept.

(** X15: the run changes nothing of a debt but its balance: after any number
    of periods the debts are those of the profile, in the same number and
    order, with the same id, name, rate, credit limit, minimum and due day. *)
Theorem X15_run_keeps_debts_but_balance (st : AppState) (n : nat) :
  Forall2 sameDebt (debts st) (currentDebts (iterate n st)).
Proof.
  induction n as [|n IH].
  - apply Forall2_refl_list, sameDebt_refl.
  - eapply Forall2_trans_list; [apply sameDebt_trans|exact IH|].
    apply (period_sameDebt st (iterate n st)).
Qed.

(** X16: in every period, minimums and strategy payments together never
    raise the balance of a debt and never take it below zero; after the
    cleanup every balance is 0 or at least 1, so the total carried to the
    next period is not negative. *)
Theorem X16_payments_never_overpay (st : AppState) (s : Sim) :
  let p := runPeriod st s in
  Forall2 paidDown (accrued p) (x_debts (extraPaid p))
  /\ Forall (λ d, Debt.balance d = 0%Q \/ (1 <= Debt.balance d)%Q)
       (currentDebts (step st s))
  /\ (0 <= debtRemaining (step st s))%Q.
Proof.
  intros p. destruct (period_debts st s) as (_ & H2 & _).
  split; [exact H2|].
  assert (Forall (λ d, Debt.balance d = 0%Q \/ (1 <= Debt.balance d)%Q) (cleaned p))
    as Hc.
  { unfold p. simpl. apply Forall_fmap, Forall_forall. intros d _.
    apply snapDebt_balance. }
  split; [exact Hc|].
  change (debtRemaining (step st s)) with (sumBalances (cleaned p)).
  apply sumBalances_nonneg. eapply Forall_impl; [exact Hc|].
  intros d [H|H]; simpl in *; [rewrite H|]; lra.
Qed.

(** ** Where the payments go *)

Section Conservation.
Local Open Scope Q_scope.

Lemma payOne_conserve s j s' :
  payOne s j = Some s' ->
  p_balance s' + p_paidMins s' == p_balance s + p_paidMins s.
Proof.
  unfold payOne. destruct (p_obs s !! j) as [ob|]; [|discriminate].
  destruct (qleb (Ob.amountRemaining ob) eps); [discriminate|].
  destruct (qleb _ 0); [discriminate|].
  intros H. inversion H; subst; clear H. simpl. ring.
Qed.

Lemma payObligations_conserve js : forall s,
  p_balance (payObligations js s) + p_paidMins (payObligations js s)
  == p_balance s + p_paidMins s.
Proof.
  induction js as [|j js IH]; intros s; simpl; [reflexivity|].
  destruct (qleb (p_cash s) 0); [reflexivity|].
  rewrite IH. destruct (payOne s j) as [s'|] eqn:E; simpl; [|reflexivity].
  eapply payOne_conserve; eauto.
Qed.

Lemma settleDebt_conserve s e :
  sumBalances (s_debts (settleDebt s e)) + s_paidMins (settleDebt s e)
  == sumBalances (s_debts s) + s_paidMins s.
Proof.
  unfold settleDebt.
  destruct (s_debts s !! MinEntry.ix e) as [debt|] eqn:Ed; [|reflexivity].
  simpl.
  match goal with |- context [payObligations ?js ?ps] =>
    pose proof (payObligations_conserve js ps) as H;
    pose proof (sumBalances_insert (s_debts s) (MinEntry.ix e) debt
                  (Debt.set_balance debt (p_balance (payObligations js ps))) Ed) as Hi
  end.
  simpl in H, Hi. lra.
Qed.

Lemma settle_fold_conserve es : forall s,
  sumBalances (s_debts (foldl settleDebt s es)) + s_paidMins (foldl settleDebt s es)
  == sumBalances (s_debts s) + s_paidMins s.
Proof.
  induction es as [|e es IH]; intros s; simpl; [reflexivity|].
  rewrite IH. apply settleDebt_conserve.
Qed.

Lemma payExtra_conserve s i s' :
  payExtra s i = Some s' ->
  sumBalances (x_debts s') + logTotal (x_log s')
  == sumBalances (x_debts s) + logTotal (x_log s).
Proof.
  unfold payExtra. destruct (x_debts s !! i) as [debt|] eqn:Ed; [|discriminate].
  destruct (qleb _ 0); [discriminate|].
  intros H. inversion H; subst; clear H. simpl. rewrite logTotal_snoc. simpl.
  pose proof (sumBalances_insert (x_debts s) i debt
                (Debt.set_balance debt
                   (Debt.balance debt - qmin (x_extra s) (Debt.balance debt))) Ed) as Hi.
  simpl in Hi. lra.
Qed.

Lemma payOrdered_conserve ixs : forall s,
  sumBalances (x_debts (payOrdered ixs s)) + logTotal (x_log (payOrdered ixs s))
  == sumBalances (x_debts s) + logTotal (x_log s).
Proof.
  induction ixs as [|i ixs IH]; intros s; simpl; [reflexivity|].
  destruct (qleb (x_extra s) 1); [reflexivity|].
  rewrite IH. destruct (payExtra s i) as [s'|] eqn:E; simpl; [|reflexivity].
  eapply payExtra_conserve; eauto.
Qed.

Lemma payFlat_conserve total s i :
  sumBalances (x_debts (payFlat total s i)) + logTotal (x_log (payFlat total s i))
  == sumBalances (x_debts s) + logTotal (x_log s).
Proof.
  unfold payFlat. destruct (qleb (x_extra s) 1); [reflexivity|].
  destruct (x_debts s !! i) as [debt|] eqn:Ed; [|reflexivity].
  destruct (qleb _ 0); [reflexivity|].
  simpl. rewrite logTotal_snoc. simpl.
  pose proof (sumBalances_insert (x_debts s) i debt
                (Debt.set_balance debt
                   (Debt.balance debt
                    - qmin (x_extra s * (Debt.balance debt / total))
                        (Debt.balance debt))) Ed) as Hi.
  simpl in Hi. lra.
Qed.

Lemma payFlat_fold_conserve total ixs : forall s,
  sumBalances (x_debts (foldl (payFlat total) s ixs))
  + logTotal (x_log (foldl (payFlat total) s ixs))
  == sumBalances (x_debts s) + logTotal (x_log s).
Proof.
  induction ixs as [|i ixs IH]; intros s; simpl; [reflexivity|].
  rewrite IH. apply payFlat_conserve.
Qed.

Lemma applyStrategy_conserve strategy0 cashAvailable currentDebts :
  let r := applyStrategy strategy0 cashAvailable currentDebts in
  sumBalances (x_debts r) + logTotal (x_log r) == sumBalances currentDebts.
Proof.
  simpl. unfold applyStrategy.
  destruct (qltb 1 cashAvailable); [|simpl; unfold logTotal; simpl; ring].
  match goal with |- context [if ?c then _ else _] => destruct c end.
  - match goal with |- context [foldl (payFlat ?t) ?s ?l] =>
      pose proof (payFlat_fold_conserve t l s) as H end.
    simpl in H. unfold logTotal at 2 in H. simpl in H. lra.
  - match goal with |- context [payOrdered ?l ?s] =>
      pose proof (payOrdered_conserve l s) as H end.
    simpl in H. unfold logTotal at 2 in H. simpl in H. lra.
Qed.

End Conservation.

(** X17: in every period the total of the balances goes down by exactly the
    minimums paid plus the strategy payments logged in the row, and the cash
    goes down by the same amount: balances less cash is the same before the
    minimums and after the strategy. *)
Theorem X17_payments_reduce_balances (st : AppState) (s : Sim) :
  let p := runPeriod st s in
  (sumBalances (x_debts (extraPaid p))
   == sumBalances (accrued p) - s_paidMins (settled p)
      - logTotal (x_log (extraPaid p)))%Q
  /\ (sumBalances (x_debts (extraPaid p)) - x_extra (extraPaid p)
      == sumBalances (accrued p) - initialCash p)%Q.
Proof.
  intros p.
  assert (sumBalances (s_debts (settled p)) + s_paidMins (settled p)
          == sumBalances (accrued p) + 0)%Q as Hs
    by exact (settle_fold_conserve (debtsForMin (accrued p) (rolled p))
                (mkSettle (initialCash p) (accrued p) (rolled p) 0)).
  pose proof (applyStrategy_conserve (strategy st) (s_cash (settled p))
                (s_debts (settled p))) as Hx.
  pose proof (applyStrategy_cash (strategy st) (s_cash (settled p))
                (s_debts (settled p))) as Hxc.
  pose proof (settleMinimums_cash (initialCash p) (accrued p) (rolled p)) as Hsc.
  cbv zeta in Hx, Hxc, Hsc.
  change (applyStrategy _ _ _) with (extraPaid p) in Hx, Hxc.
  change (settleMinimums _ _ _) with (settled p) in Hsc.
  split; lra.
Qed.

(** ** Goals across the run *)

Section GoalsKept.
Local Open Scope Q_scope.

Lemma fundedUp_refl g : fundedUp g g.
Proof.
  split; [now destruct g|]. split; [lra|now left].
Qed.

Lemma fundedUp_trans a b c : fundedUp a b -> fundedUp b c -> fundedUp a c.
Proof.
  intros (H1 & H2 & H3) (H4 & H5 & H6).
  assert (Goal.targetAmount b = Goal.targetAmount a) as Ht by (rewrite H1; reflexivity).
  split; [rewrite H4, H1; now destruct a|]. split; [lra|].
  destruct H6 as [H6|H6].
  - destruct H3 as [H3|H3]; [left; congruence|right; rewrite H6; exact H3].
  - right. rewrite <- Ht. exact H6.
Qed.

Lemma fundOne_fundedUp l0 s i s' :
  0 <= g_extra s -> fundOne s i = Some s' ->
  Forall2 fundedUp l0 (g_goals s) -> Forall2 fundedUp l0 (g_goals s').
Proof.
  intros Hx. unfold fundOne.
  destruct (g_goals s !! i) as [goal|] eqn:Eg; [|discriminate].
  destruct (qleb (need goal) 0) eqn:E; [discriminate|]. apply qleb_false in E.
  intros Hs H. inversion Hs; subst; clear Hs. simpl.
  eapply Forall2_insert_step; [exact H|exact Eg|].
  intros a Ha. eapply fundedUp_trans; [exact Ha|].
  unfold need in *.
  split; [reflexivity|]. simpl.
  destruct (qmin_spec (Goal.targetAmount goal - Goal.saved goal) (g_extra s))
    as [[Hm Hq]|[Hm Hq]]; rewrite Hq; split; try lra; right; lra.
Qed.

Lemma fundOrdered_fundedUp l0 ixs : forall s,
  Forall2 fundedUp l0 (g_goals s) -> Forall2 fundedUp l0 (g_goals (fundOrdered ixs s)).
Proof.
  induction ixs as [|i ixs IH]; intros s H; simpl; [exact H|].
  destruct (qleb (g_extra s) 1) eqn:E; [exact H|]. apply qleb_false in E.
  apply IH. destruct (fundOne s i) as [s'|] eqn:Ef; simpl; [|exact H].
  eapply fundOne_fundedUp; [|exact Ef|exact H]. lra.
Qed.

Lemma fundGoals_fundedUp cashAvailable debtRemaining currentGoals :
  Forall2 fundedUp currentGoals
    (g_goals (fundGoals cashAvailable debtRemaining currentGoals)).
Proof.
  assert (Forall2 fundedUp currentGoals currentGoals) as H
    by (apply Forall2_refl_list, fundedUp_refl).
  unfold fundGoals.
  destruct (qltb 1 cashAvailable && canSaveNow debtRemaining currentGoals); [|exact H].
  apply fundOrdered_fundedUp. exact H.
Qed.

(** *** The shortfall *)

Lemma goalShortfall_acc l : forall a,
  foldl (λ s g, s + qmax 0 (need g)) a l == a + goalShortfall l.
Proof.
  unfold goalShortfall. induction l as [|g l IH]; intros a; simpl; [ring|].
  rewrite IH, (IH (0 + qmax 0 (need g))). ring.
Qed.

Lemma goalShortfall_cons g l :
  goalShortfall (g :: l) == qmax 0 (need g) + goalShortfall l.
Proof.
  unfold goalShortfall at 1. simpl. rewrite goalShortfall_acc. ring.
Qed.

Lemma goalShortfall_insert l : forall i g g',
  l !! i = Some g ->
  goalShortfall (<[i := g']> l)
  == goalShortfall l - qmax 0 (need g) + qmax 0 (need g').
Proof.
  induction l as [|x l IH]; intros i g g' Hi; [discriminate|].
  destruct i as [|i]; simpl in *.
  - inversion Hi; subst. rewrite !goalShortfall_cons. ring.
  - rewrite !goalShortfall_cons, (IH i g g' Hi). ring.
Qed.

Lemma fundOne_shortfall s i s' :
  fundOne s i = Some s' ->
  goalShortfall (g_goals s') + logTotal (g_log s')
  == goalShortfall (g_goals s) + logTotal (g_log s).
Proof.
  unfold fundOne. destruct (g_goals s !! i) as [goal|] eqn:Eg; [|discriminate].
  destruct (qleb (need goal) 0) eqn:E; [discriminate|]. apply qleb_false in E.
  intros H. inversion H; subst; clear H. simpl. rewrite logTotal_snoc. simpl.
  pose proof (goalShortfall_insert (g_goals s) i goal
                (Goal.set_saved goal (Goal.saved goal + qmin (need goal) (g_extra s)))
                Eg) as Hi.
  assert (need (Goal.set_saved goal (Goal.saved goal + qmin (need goal) (g_extra s)))
          == need goal - qmin (need goal) (g_extra s)) as Hn
    by (unfold need; simpl; ring).
  destruct (qmax_spec 0 (need goal)) as [[_ Hq]|[Hc _]]; [|lra].
  rewrite Hq in Hi.
  destruct (qmax_spec 0
              (need (Goal.set_saved goal
                       (Goal.saved goal + qmin (need goal) (g_extra s)))))
    as [[_ Hq']|[Hc Hq']]; rewrite Hq' in Hi.
  - lra.
  - exfalso.
    destruct (qmin_spec (need goal) (g_extra s)) as [[Hm Hqm]|[Hm Hqm]];
      rewrite Hqm in *; lra.
Qed.

Lemma fundOrdered_shortfall ixs : forall s,
  goalShortfall (g_goals (fundOrdered ixs s)) + logTotal (g_log (fundOrdered ixs s))
  == goalShortfall (g_goals s) + logTotal (g_log s).
Proof.
  induction ixs as [|i ixs IH]; intros s; simpl; [reflexivity|].
  destruct (qleb (g_extra s) 1); [reflexivity|].
  rewrite IH. destruct (fundOne s i) as [s'|] eqn:E; simpl; [|reflexivity].
  eapply fundOne_shortfall; eauto.
Qed.

Lemma fundGoals_shortfall cashAvailable debtRemaining currentGoals :
  let r := fundGoals cashAvailable debtRemaining currentGoals in
  goalShortfall (g_goals r) + logTotal (g_log r) == goalShortfall currentGoals.
Proof.
  simpl. unfold fundGoals.
  destruct (qltb 1 cashAvailable && canSaveNow debtRemaining currentGoals);
    [|simpl; unfold logTotal; simpl; ring].
  match goal with |- context [fundOrdered ?l ?s] =>
    pose proof (fundOrdered_shortfall l s) as H end.
  simpl in H. unfold logTotal at 2 in H. simpl in H. lra.
Qed.

Lemma fundOne_log s i s' :
  0 <= g_extra s -> fundOne s i = Some s' -> logTotal (g_log s) <= logTotal (g_log s').
Proof.
  intros Hx. unfold fundOne.
  destruct (g_goals s !! i) as [goal|]; [|discriminate].
  destruct (qleb (need goal) 0) eqn:E; [discriminate|]. apply qleb_false in E.
  intros H. inversion H; subst; clear H. simpl. rewrite logTotal_snoc. simpl.
  destruct (qmin_spec (need goal) (g_extra s)) as [[Hm Hq]|[Hm Hq]]; rewrite Hq; lra.
Qed.

Lemma fundOrdered_log ixs : forall s,
  logTotal (g_log s) <= logTotal (g_log (fundOrdered ixs s)).
Proof.
  induction ixs as [|i ixs IH]; intros s; simpl; [lra|].
  destruct (qleb (g_extra s) 1) eqn:E; [lra|]. apply qleb_false in E.
  destruct (fundOne s i) as [s'|] eqn:Ef; simpl; [|apply IH].
  pose proof (fundOne_log s i s' ltac:(lra) Ef). pose proof (IH s'). lra.
Qed.

Lemma fundGoals_log cashAvailable debtRemaining currentGoals :
  0 <= logTotal (g_log (fundGoals cashAvailable debtRemaining currentGoals)).
Proof.
  unfold fundGoals.
  destruct (qltb 1 cashAvailable && canSaveNow debtRemaining currentGoals);
    [|simpl; unfold logTotal; simpl; lra].
  match goal with |- context [fundOrdered ?l ?s] =>
    pose proof (fundOrdered_log l s) as H end.
  simpl in H. unfold logTotal at 1 in H. simpl in H. exact H.
Qed.

End GoalsKept.

(** X18: the run changes nothing of a goal but the amount saved; from one
    period to any later one the amount saved never goes down, and a goal
    that received money holds no more than its target. *)
Theorem X18_goals_never_overfunded (st : AppState) (n k : nat) :
  Forall2 fundedUp (currentGoals (iterate n st)) (currentGoals (iterate (k + n) st)).
Proof.
  induction k as [|k IH]; simpl.
  - apply Forall2_refl_list, fundedUp_refl.
  - eapply Forall2_trans_list; [apply fundedUp_trans|exact IH|].
    apply fundGoals_fundedUp.
Qed.

(** X19: what a period logs as saved is exactly what the shortfall of the
    goals goes down by, it is never negative, and so the shortfall tested by
    the loop never goes up from one period to the next. *)
Theorem X19_saving_reduces_shortfall (st : AppState) (n : nat) :
  let s := iterate n st in
  let p := runPeriod st s in
  totalGoalRemaining s = goalShortfall (currentGoals s)
  /\ (totalGoalRemaining (step st s)
      == totalGoalRemaining s - logTotal (g_log (funded p)))%Q
  /\ (0 <= logTotal (g_log (funded p)))%Q
  /\ (totalGoalRemaining (step st s) <= totalGoalRemaining s)%Q.
Proof.
  intros s p.
  assert (totalGoalRemaining s = goalShortfall (currentGoals s)) as Hs
    by (unfold s; destruct n; reflexivity).
  pose proof (fundGoals_shortfall (x_extra (extraPaid p)) (debtRemainingEnd p)
                (currentGoals s)) as Hf.
  pose proof (fundGoals_log (x_extra (extraPaid p)) (debtRemainingEnd p)
                (currentGoals s)) as Hl.
  cbv zeta in Hf.
  change (fundGoals _ _ _) with (funded p) in Hf, Hl.
  change (totalGoalRemaining (step st s)) with (goalShortfall (g_goals (funded p))).
  rewrite Hs. split; [reflexivity|]. split; [lra|]. split; [exact Hl|lra].
Qed.

(** ** The order of the goals *)

Section GoalOrder.
Local Open Scope Q_scope.

Lemma orderedGoals_perm currentGoals :
  orderedGoals currentGoals
  ≡ₚ filter (λ p, qltb 1 (need p.2) = true) (indexed currentGoals).
Proof. apply stable_sort_perm. Qed.

Lemma orderedGoals_elem currentGoals i g :
  (i, g) ∈ orderedGoals currentGoals <-> currentGoals !! i = Some g /\ 1 < need g.
Proof.
  rewrite orderedGoals_perm, list_elem_of_filter, indexed_lookup. simpl.
  rewrite qltb_true. tauto.
Qed.

Lemma orderedGoals_NoDup currentGoals : NoDup (orderedGoals currentGoals).*1.
Proof.
  rewrite orderedGoals_perm.
  eapply sublist_NoDup; [apply (indexed_NoDup_fst currentGoals)|].
  apply fmap_sublist, sublist_filter.
Qed.

Lemma orderedGoals_sorted currentGoals :
  StronglySorted (λ a b, (priorityOr a.2 <= priorityOr b.2)%Z)
    (orderedGoals currentGoals).
Proof.
  eapply StronglySorted_mono;
    [|apply (stable_sort_sorted (λ a b : nat * Goal.t, priorityOr a.2 <=? priorityOr b.2))].
  - intros a b H. cbv beta in H. now apply Z.leb_le in H.
  - intros a b. rewrite !Z.leb_le. lia.
  - intros a b c. rewrite !Z.leb_le. lia.
Qed.

Lemma fundOrdered_log_prefix ixs : forall s,
  exists l, g_log (fundOrdered ixs s) = (g_log s ++ l)%list.
Proof.
  induction ixs as [|i ixs IH]; intros s; simpl.
  - exists []. now rewrite app_nil_r.
  - destruct (qleb (g_extra s) 1); [exists []; now rewrite app_nil_r|].
    destruct (fundOne s i) as [s'|] eqn:E; simpl; [|apply IH].
    destruct (IH s') as (l & Hl). rewrite Hl.
    unfold fundOne in E. destruct (g_goals s !! i) as [goal|]; [|discriminate].
    destruct (qleb _ 0); [discriminate|]. inversion E; subst; clear E. simpl.
    rewrite <- app_assoc. eexists. reflexivity.
Qed.

Lemma fundGoals_first cashAvailable debtRemaining currentGoals i g rest :
  1 < cashAvailable -> debtRemaining <= 5 ->
  orderedGoals currentGoals = (i, g) :: rest ->
  exists l,
    g_log (fundGoals cashAvailable debtRemaining currentGoals)
    = Log.mk (Goal.name g) (qmin (need g) cashAvailable) :: l.
Proof.
  intros Hc Hd Ho.
  assert ((i, g) ∈ orderedGoals currentGoals) as Hin by (rewrite Ho; left).
  apply orderedGoals_elem in Hin as [Hi Hn].
  unfold fundGoals, canSaveNow.
  assert (qltb 1 cashAvailable = true) as -> by now apply qltb_true.
  assert (qleb debtRemaining 5 = true) as -> by now apply qleb_true.
  assert ((0 <? length currentGoals)%nat = true) as ->.
  { apply Nat.ltb_lt. apply lookup_lt_Some in Hi. lia. }
  rewrite Ho. simpl.
  assert (qleb cashAvailable 1 = false) as -> by now apply qleb_false.
  unfold fundOne. simpl. rewrite Hi.
  assert (qleb (need g) 0 = false) as -> by (apply qleb_false; lra).
  simpl.
  match goal with |- context [fundOrdered ?l ?s] =>
    destruct (fundOrdered_log_prefix l s) as (l' & Hl) end.
  rewrite Hl. simpl. eexists. reflexivity.
Qed.

End GoalOrder.

(** X20: the goals that a period may fund are those more than 1 short of
    their target, each once, in ascending order of priority, a priority of 0
    counting as 999.  When more than 1 of cash is left and the debt is at
    most 5, the first saving logged goes to the goal of least priority among
    them, for the lesser of what it lacks and the cash. *)
Theorem X20_goals_funded_by_priority (st : AppState) (s : Sim) :
  let p := runPeriod st s in
  let cash := x_extra (extraPaid p) in
  let goals := currentGoals s in
  let ordered := orderedGoals goals in
  (forall i g, (i, g) ∈ ordered <-> goals !! i = Some g /\ (1 < need g)%Q)
  /\ NoDup ordered.*1
  /\ StronglySorted (λ a b, priorityOr a.2 <= priorityOr b.2) ordered
  /\ (forall g, priorityOr g = if Goal.priority g =? 0 then 999 else Goal.priority g)
  /\ ((cash <= 1)%Q -> funded p = mkGoalSt cash goals [])
  /\ ((1 < cash)%Q -> (debtRemainingEnd p <= 5)%Q ->
      forall i g rest,
        ordered = (i, g) :: rest ->
        (forall j g', goals !! j = Some g' -> (1 < need g')%Q ->
                      priorityOr g <= priorityOr g')
        /\ exists l,
             g_log (funded p) = Log.mk (Goal.name g) (qmin (need g) cash) :: l).
Proof.
  intros p cash goals ordered.
  split; [intros i g; apply orderedGoals_elem|].
  split; [apply orderedGoals_NoDup|].
  split; [apply orderedGoals_sorted|].
  split; [reflexivity|].
  split.
  { intros Hc. change (funded p) with (fundGoals cash (debtRemainingEnd p) goals).
    unfold fundGoals. apply qltb_false in Hc. now rewrite Hc. }
  intros Hc Hd i g rest Ho. split.
  - intros j g' Hj Hn.
    pose proof (orderedGoals_sorted goals) as Hs. fold ordered in Hs.
    rewrite Ho in Hs. inversion Hs as [|? ? _ Hall]; subst.
    assert ((j, g') ∈ ordered) as Hin by (apply orderedGoals_elem; auto).
    rewrite Ho in Hin. apply elem_of_cons in Hin as [Heq|Hin].
    + inversion Heq; subst. lia.
    + rewrite Forall_forall in Hall. exact (Hall _ Hin).
  - change (funded p) with (fundGoals cash (debtRemainingEnd p) goals).
    eapply fundGoals_first; eauto.
Qed.

(** ** The history of a queue *)

Section QueueHistory.
Local Open Scope Q_scope.

Lemma paidOb_refl o : paidOb o o.
Proof. split; [now destruct o|lra]. Qed.

Lemma paidOb_trans a b c : paidOb a b -> paidOb b c -> paidOb a c.
Proof.
  intros [H1 H2] [H3 H4]. split; [rewrite H3, H1; now destruct a|lra].
Qed.

Lemma queuesPaid_refl m : queuesPaid m m.
Proof.
  intros k. destruct (m !! k); [|exact I].
  apply Forall2_refl_list, paidOb_refl.
Qed.

Lemma queuesPaid_trans m1 m2 m3 :
  queuesPaid m1 m2 -> queuesPaid m2 m3 -> queuesPaid m1 m3.
Proof.
  intros H1 H2 k. specialize (H1 k). specialize (H2 k).
  destruct (m1 !! k), (m2 !! k), (m3 !! k); try contradiction; [|exact I].
  eapply Forall2_trans_list; [apply paidOb_trans|exact H1|exact H2].
Qed.

Lemma payOne_paidOb l0 s j s' :
  payOne s j = Some s' -> Forall2 paidOb l0 (p_obs s) -> Forall2 paidOb l0 (p_obs s').
Proof.
  unfold payOne. destruct (p_obs s !! j) as [ob|] eqn:Ej; [|discriminate].
  destruct (qleb (Ob.amountRemaining ob) eps); [discriminate|].
  destruct (qleb _ 0) eqn:E; [discriminate|]. apply qleb_false in E.
  intros Hs H. inversion Hs; subst; clear Hs. simpl.
  eapply Forall2_insert_step; [exact H|exact Ej|].
  intros a Ha. eapply paidOb_trans; [exact Ha|].
  split; [reflexivity|]. simpl. lra.
Qed.

Lemma payObligations_paidOb l0 js : forall s,
  Forall2 paidOb l0 (p_obs s) -> Forall2 paidOb l0 (p_obs (payObligations js s)).
Proof.
  induction js as [|j js IH]; intros s H; simpl; [exact H|].
  destruct (qleb (p_cash s) 0); [exact H|].
  apply IH. destruct (payOne s j) as [s'|] eqn:E; simpl; [|exact H].
  eapply payOne_paidOb; eauto.
Qed.

Lemma settleDebt_queuesPaid s e :
  queuesPaid (s_obligations s) (s_obligations (settleDebt s e)).
Proof.
  unfold settleDebt.
  destruct (s_debts s !! MinEntry.ix e) as [debt|]; [|apply queuesPaid_refl].
  simpl. unfold obsOf.
  destruct (s_obligations s !! Debt.id debt) as [obs1|] eqn:Eq;
    [|apply queuesPaid_refl].
  simpl. intros k. destruct (decide (k = Debt.id debt)) as [->|Hne].
  - rewrite Eq, lookup_insert_eq.
    apply payObligations_paidOb. simpl. apply Forall2_refl_list, paidOb_refl.
  - rewrite lookup_insert_ne by congruence. apply queuesPaid_refl.
Qed.

Lemma settleMinimums_queuesPaid cashAvailable currentDebts m :
  queuesPaid m (s_obligations (settleMinimums cashAvailable currentDebts m)).
Proof.
  unfold settleMinimums.
  assert (queuesPaid m (s_obligations (mkSettle cashAvailable currentDebts m 0))) as H
    by apply queuesPaid_refl.
  revert H. generalize (mkSettle cashAvailable currentDebts m 0).
  induction (debtsForMin currentDebts m) as [|e es IH]; intros s H; simpl; [exact H|].
  apply IH. eapply queuesPaid_trans; [exact H|apply settleDebt_queuesPaid].
Qed.

(** *** Rollover *)

Lemma rolloverLoop_appends periodEnd debt dueDay fuel : forall obs lastOb,
  exists extra,
    rolloverLoop fuel periodEnd debt dueDay obs lastOb = (obs ++ extra)%list
    /\ Forall (λ o, Ob.amountRemaining o = Ob.monthlyMin o) extra
    /\ (length (obs ++ extra) <= Nat.max (length obs) MAX_OBS)%nat.
Proof.
  induction fuel as [|f IH]; intros obs lastOb; simpl.
  - exists []. rewrite app_nil_r. split; [reflexivity|]. split; [constructor|lia].
  - destruct (date_ltb (Ob.dueDate lastOb) periodEnd
              && (length obs <? MAX_OBS)%nat
              && qltb eps (Debt.balance debt)) eqn:Ec.
    + apply andb_true_iff in Ec as [Ec _]. apply andb_true_iff in Ec as [_ Ec].
      apply Nat.ltb_lt in Ec.
      match goal with |- context [rolloverLoop f _ _ _ (obs ++ [?o]) _] =>
        destruct (IH (obs ++ [o])%list o) as (extra & He & Hf & Hl);
        exists (o :: extra) end.
      rewrite He, <- app_assoc. split; [reflexivity|].
      split; [constructor; [reflexivity|exact Hf]|].
      rewrite <- app_assoc in Hl. simpl in Hl.
      rewrite length_app in Hl |- *. simpl in *. rewrite length_app in Hl.
      simpl in Hl. lia.
    + exists []. rewrite app_nil_r. split; [reflexivity|]. split; [constructor|lia].
Qed.

Lemma rolloverEntry_appends periodEnd currentDebts debtId obs :
  exists extra,
    rolloverEntry periodEnd currentDebts debtId obs = (obs ++ extra)%list
    /\ Forall (λ o, Ob.amountRemaining o = Ob.monthlyMin o) extra
    /\ (length (obs ++ extra) <= Nat.max (length obs) MAX_OBS)%nat.
Proof.
  assert (exists extra,
            obs = (obs ++ extra)%list
            /\ Forall (λ o, Ob.amountRemaining o = Ob.monthlyMin o) extra
            /\ (length (obs ++ extra) <= Nat.max (length obs) MAX_OBS)%nat) as Hnil.
  { exists []. rewrite app_nil_r. split; [reflexivity|]. split; [constructor|lia]. }
  unfold rolloverEntry.
  destruct (findDebt currentDebts debtId) as [debt|]; [|exact Hnil].
  destruct (qleb (Debt.balance debt) eps); [exact Hnil|].
  destruct (last obs) as [lastOb|]; [|exact Hnil].
  apply rolloverLoop_appends.
Qed.

(** *** Seeding *)

Lemma seededDebt_snoc k l d :
  seededDebt k (l ++ [d])
  = if decide (Debt.id d = k /\ qltb eps (Debt.balance d) = true)
    then Some d else seededDebt k l.
Proof.
  unfold seededDebt. rewrite filter_app.
  destruct (decide (Debt.id d = k /\ qltb eps (Debt.balance d) = true)) as [H|H].
  - rewrite (filter_cons_True _ d []) by exact H. rewrite filter_nil. apply last_snoc.
  - rewrite (filter_cons_False _ d []) by exact H. rewrite filter_nil, app_nil_r.
    reflexivity.
Qed.

Lemma seedObligations_lookup simStartDate currentDebts k :
  seedObligations simStartDate currentDebts !! k
  = (λ debt, [makeObligation debt (Debt.balance debt)
                (getFirstDueDate simStartDate debt)])
      <$> seededDebt k currentDebts.
Proof.
  unfold seedObligations.
  induction currentDebts as [|d l IH] using rev_ind; [reflexivity|].
  rewrite foldl_app, seededDebt_snoc. cbn [foldl]. unfold seedOne at 1.
  destruct (qleb (Debt.balance d) eps) eqn:E.
  - rewrite IH.
    destruct (decide (Debt.id d = k /\ qltb eps (Debt.balance d) = true))
      as [[_ H]|_]; [|reflexivity].
    apply qleb_true in E. apply qltb_true in H. lra.
  - apply qleb_false in E.
    destruct (decide (Debt.id d = k /\ qltb eps (Debt.balance d) = true))
      as [[Hk _]|Hn].
    + subst k. rewrite lookup_insert_eq. reflexivity.
    + rewrite lookup_insert_ne; [exact IH|].
      intros Hk. apply Hn. split; [exact Hk|now apply qltb_true].
Qed.

End QueueHistory.

Section QueueKeys.
Variable st : AppState.

Lemma queues_step_lookup s k :
  (forall obs, minObligations s !! k = Some obs ->
     exists extra obs',
       rolled (runPeriod st s) !! k = Some (obs ++ extra)
       /\ Forall (λ o, Ob.amountRemaining o = Ob.monthlyMin o) extra
       /\ (length (obs ++ extra) <= Nat.max (length obs) MAX_OBS)%nat
       /\ minObligations (step st s) !! k = Some obs'
       /\ Forall2 paidOb (obs ++ extra) obs')
  /\ (minObligations s !! k = None -> minObligations (step st s) !! k = None).
Proof.
  set (p := runPeriod st s).
  pose proof (settleMinimums_queuesPaid (initialCash p) (accrued p) (rolled p) k) as Hq.
  change (s_obligations (settleMinimums _ _ _)) with (minObligations (step st s)) in Hq.
  assert (rolled p !! k
          = rolloverEntry (periodEnd p) (accrued p) k <$> minObligations s !! k) as Hr
    by apply rollover_lookup.
  split.
  - intros obs Hk.
    assert (rolled p !! k = Some (rolloverEntry (periodEnd p) (accrued p) k obs))
      as Hr' by (rewrite Hr, Hk; reflexivity).
    destruct (rolloverEntry_appends (periodEnd p) (accrued p) k obs)
      as (extra & He & Hf & Hl).
    rewrite He in Hr'. rewrite Hr' in Hq.
    destruct (minObligations (step st s) !! k) as [obs'|]; [|contradiction].
    exists extra, obs'. auto.
  - intros Hk.
    assert (rolled p !! k = None) as Hr' by (rewrite Hr, Hk; reflexivity).
    rewrite Hr' in Hq.
    destruct (minObligations (step st s) !! k); [contradiction|reflexivity].
Qed.

Lemma queues_sized_iterate n k obs :
  minObligations (iterate n st) !! k = Some obs -> queue_sized obs.
Proof.
  revert k obs. induction n as [|n IH]; intros k obs Hk.
  - change (minObligations (iterate 0 st))
      with (seedObligations (simStartDateOf st) (debts st)) in Hk.
    rewrite seedObligations_lookup in Hk.
    destruct (seededDebt k (debts st)); [|discriminate].
    inversion Hk; subst. unfold queue_sized, MAX_OBS. simpl. lia.
  - destruct (queues_step_lookup (iterate n st) k) as [Hsome Hnone].
    change (step st (iterate n st)) with (iterate (S n) st) in *.
    destruct (minObligations (iterate n st) !! k) as [obs0|] eqn:E0.
    + destruct (Hsome obs0 eq_refl) as (extra & obs' & _ & _ & Hl & Hk' & Hp).
      rewrite Hk in Hk'. inversion Hk'; subst obs'.
      apply Forall2_length in Hp. pose proof (IH k obs0 E0) as [H1 H2].
      unfold queue_sized. rewrite <- Hp. rewrite length_app in *. lia.
    + rewrite (Hnone eq_refl) in Hk. discriminate.
Qed.

Lemma queues_keys_iterate n k :
  is_Some (minObligations (iterate n st) !! k)
  <-> is_Some (minObligations (initSim st) !! k).
Proof.
  induction n as [|n IH]; [reflexivity|]. rewrite <- IH.
  destruct (queues_step_lookup (iterate n st) k) as [Hsome Hnone].
  change (step st (iterate n st)) with (iterate (S n) st) in *.
  destruct (minObligations (iterate n st) !! k) as [obs0|] eqn:E0.
  - destruct (Hsome obs0 eq_refl) as (extra & obs' & _ & _ & _ & Hk' & _).
    rewrite Hk'. split; intros _; eexists; reflexivity.
  - rewrite (Hnone eq_refl). reflexivity.
Qed.

End QueueKeys.

(** X21: at seeding a queue of one obligation, due on the first due date, is
    stored under the id of every debt with more than 0.5 of balance, and
    under no other key; the run never adds or removes a queue, and a queue
    is never empty nor longer than 240. *)
Theorem X21_queues_fixed_at_seeding (st : AppState) :
  let start := simStartDateOf st in
  (forall k,
     minObligations (initSim st) !! k
     = (λ debt, [makeObligation debt (Debt.balance debt) (getFirstDueDate start debt)])
         <$> seededDebt k (debts st))
  /\ (forall k, is_Some (minObligations (initSim st) !! k) <->
                exists debt, debt ∈ debts st /\ Debt.id debt = k
                             /\ (1 # 2 < Debt.balance debt)%Q)
  /\ (forall n k, is_Some (minObligations (iterate n st) !! k)
                  <-> is_Some (minObligations (initSim st) !! k))
  /\ (forall n k obs, minObligations (iterate n st) !! k = Some obs ->
                      (1 <= length obs <= 240)%nat).
Proof.
  intros start.
  assert (forall k,
            minObligations (initSim st) !! k
            = (λ debt, [makeObligation debt (Debt.balance debt)
                          (getFirstDueDate start debt)])
                <$> seededDebt k (debts st)) as Hseed
    by (intros k; apply seedObligations_lookup).
  split; [exact Hseed|].
  split.
  { intros k. rewrite Hseed, fmap_is_Some. unfold seededDebt. split.
    - intros [debt Hd]. apply last_Some in Hd as (l' & Hd).
      assert (debt ∈ filter (λ d, Debt.id d = k /\ qltb eps (Debt.balance d) = true)
                (debts st)) as Hin
        by (rewrite Hd; apply elem_of_app; right; left).
      apply list_elem_of_filter in Hin as [[Hk Hb] Hin].
      exists debt. split; [exact Hin|]. split; [exact Hk|].
      now apply qltb_true in Hb.
    - intros (debt & Hin & Hk & Hb).
      assert (debt ∈ filter (λ d, Debt.id d = k /\ qltb eps (Debt.balance d) = true)
                (debts st)) as Hf.
      { apply list_elem_of_filter. split; [|exact Hin].
        split; [exact Hk|now apply qltb_true]. }
      destruct (filter (λ d, Debt.id d = k /\ qltb eps (Debt.balance d) = true)
                  (debts st)) as [|x l] eqn:Ef.
      + inversion Hf.
      + rewrite last_is_Some. discriminate. }
  split; [intros n k; apply queues_keys_iterate|].
  intros n k obs Hk. exact (queues_sized_iterate st n k obs Hk).
Qed.

(** X22: within a period a queue keeps its obligations in place: the
    rollover only appends obligations, each with its full minimum left to
    pay, and the settlement of minimums changes nothing but the amounts left
    to pay, which only go down.  A debt without a queue gets none. *)
Theorem X22_queue_grows_and_is_paid_down (st : AppState) (n : nat) (k : Z) :
  let s := iterate n st in
  let p := runPeriod st s in
  (forall obs, minObligations s !! k = Some obs ->
     exists extra obs',
       rolled p !! k = Some (obs ++ extra)
       /\ Forall (λ o, Ob.amountRemaining o = Ob.monthlyMin o) extra
       /\ s_obligations (settled p) !! k = Some obs'
       /\ Forall2 paidOb (obs ++ extra) obs')
  /\ (minObligations s !! k = None ->
      rolled p !! k = None /\ s_obligations (settled p) !! k = None).
Proof.
  intros s p. destruct (queues_step_lookup st s k) as [Hsome Hnone].
  split.
  - intros obs Hk. destruct (Hsome obs Hk) as (extra & obs' & H1 & H2 & _ & H3 & H4).
    exists extra, obs'. auto.
  - intros Hk. split; [|exact (Hnone Hk)].
    unfold p. change (rolled (runPeriod st s))
      with (rollover (currentDate s) (accrueDebt <$> currentDebts s) (minObligations s)).
    rewrite rollover_lookup, Hk. reflexivity.
Qed.

(** ** Debts along the run *)

Section DebtsAlong.
Local Open Scope Q_scope.

Lemma Forall2_compose {A} (R1 R2 R3 : A -> A -> Prop) (l1 l2 l3 : list A) :
  (forall a b c, R1 a b -> R2 b c -> R3 a c) ->
  Forall2 R1 l1 l2 -> Forall2 R2 l2 l3 -> Forall2 R3 l1 l3.
Proof.
  intros Ht H. revert l3. induction H as [|a b l1 l2 Hab H IH]; intros l3 H3.
  - inversion H3; subst. constructor.
  - inversion H3; subst. constructor; eauto.
Qed.

Lemma accrueDebt_zero d : Debt.balance d <= 1 # 2 -> Debt.balance (accrueDebt d) = 0.
Proof.
  intros H. unfold accrueDebt.
  assert (qleb (Debt.balance d) eps = true) as -> by now apply qleb_true.
  reflexivity.
Qed.

Lemma snapDebt_zero d : Debt.balance d < 1 -> Debt.balance (snapDebt d) = 0.
Proof.
  intros H. unfold snapDebt.
  assert (qltb (Debt.balance d) 1 = true) as -> by now apply qltb_true.
  reflexivity.
Qed.

Lemma period_keeps_zero st s :
  Forall2 (λ a b, Debt.balance a <= 1 # 2 -> Debt.balance b = 0)
    (currentDebts s) (currentDebts (step st s)).
Proof.
  set (p := runPeriod st s).
  destruct (period_debts st s) as (_ & Hpaid & _). fold p in Hpaid.
  change (currentDebts (step st s)) with (snapDebt <$> x_debts (extraPaid p)).
  eapply (Forall2_compose
            (λ a b, Debt.balance a <= 1 # 2 -> Debt.balance b < 1)
            (λ b c, Debt.balance b < 1 -> Debt.balance c = 0)).
  - intros a b c H1 H2 Ha. auto.
  - eapply (Forall2_compose
              (λ a b, Debt.balance a <= 1 # 2 -> Debt.balance b = 0) paidDown).
    + intros a b c H1 (_ & H2 & _) Ha. rewrite (H1 Ha) in H2. lra.
    + apply (Forall2_fmap_same _ accrueDebt). intros a. apply accrueDebt_zero.
    + exact Hpaid.
  - apply (Forall2_fmap_same _ snapDebt). intros a. apply snapDebt_zero.
Qed.

(** *** Totals *)

Lemma totalCharge_nonneg d :
  0 <= Debt.balance d -> 0 <= Debt.rate d -> 0 <= totalCharge d.
Proof.
  intros Hb Hr. unfold totalCharge.
  assert (0 <= Debt.balance d * Debt.rate d) as Hm by (apply Qmult_le_0_compat; assumption).
  assert (Debt.balance d * (Debt.rate d / 100) / 24
          + Debt.balance d * (Debt.rate d / 100) / 24 * (16 # 100)
          == Debt.balance d * Debt.rate d * (29 # 60000)) as -> by field.
  lra.
Qed.

Lemma accrue_nonneg l : debts_nonneg l -> debts_nonneg (accrueDebt <$> l).
Proof.
  intros H. apply Forall_fmap. eapply Forall_impl; [exact H|].
  intros d [Hb Hr].
  change (0 <= Debt.balance (accrueDebt d) /\ 0 <= Debt.rate (accrueDebt d)).
  unfold accrueDebt. cbv zeta.
  pose proof (totalCharge_nonneg d Hb Hr) as Hc.
  destruct (qleb (Debt.balance d) eps);
    cbn [Debt.balance Debt.rate Debt.set_balance]; split; try lra; exact Hr.
Qed.

Lemma paidDown_nonneg l l' :
  debts_nonneg l -> Forall2 paidDown l l' -> debts_nonneg l'.
Proof.
  intros H H2. induction H2 as [|a b l l' Hab H2 IH]; [constructor|].
  inversion H as [|? ? [Hb Hr] Hl]; subst. constructor; [|now apply IH].
  destruct Hab as (Hs & _ & H0). split; [now apply H0|].
  rewrite Hs. exact Hr.
Qed.

Lemma snap_nonneg l : debts_nonneg l -> debts_nonneg (snapDebt <$> l).
Proof.
  intros H. apply Forall_fmap. eapply Forall_impl; [exact H|].
  intros d [Hb Hr].
  change (0 <= Debt.balance (snapDebt d) /\ 0 <= Debt.rate (snapDebt d)).
  unfold snapDebt.
  destruct (qltb (Debt.balance d) 1); simpl; split; try lra; assumption.
Qed.

Lemma snap_sum l :
  debts_nonneg l -> sumBalances (snapDebt <$> l) <= sumBalances l.
Proof.
  induction 1 as [|d l [Hb _] _ IH]; [simpl; lra|].
  rewrite fmap_cons, !sumBalances_cons.
  assert (Debt.balance (snapDebt d) <= Debt.balance d).
  { unfold snapDebt. destruct (qltb (Debt.balance d) 1); simpl; lra. }
  lra.
Qed.

Lemma accrue_sum l : debts_nonneg l -> forall a,
  a <= foldl accrueTotal a l
  /\ sumBalances (accrueDebt <$> l) + a <= sumBalances l + foldl accrueTotal a l.
Proof.
  induction 1 as [|d l [Hb Hr] _ IH]; intros a; [simpl; split; lra|].
  cbn [foldl]. rewrite fmap_cons, !sumBalances_cons.
  destruct (IH (accrueTotal a d)) as [H1 H2].
  pose proof (totalCharge_nonneg d Hb Hr) as Hc.
  unfold accrueTotal, accrueDebt in *. cbv zeta in *.
  destruct (qleb (Debt.balance d) eps);
    cbn [Debt.balance Debt.set_balance] in *; split; lra.
Qed.

Lemma period_totals st s :
  debts_nonneg (currentDebts s) ->
  debtRemaining s = sumBalances (currentDebts s) ->
  let p := runPeriod st s in
  debts_nonneg (currentDebts (step st s))
  /\ totalInterestPaid s <= totalInterestPaid (step st s)
  /\ debtRemaining (step st s) + paidInRow (rowData (S (iteration s)) p)
     + totalInterestPaid s
     <= debtRemaining s + totalInterestPaid (step st s).
Proof.
  intros Hinv Hd p.
  destruct (period_debts st s) as (_ & Hpaid & _). fold p in Hpaid.
  pose proof (accrue_nonneg _ Hinv) as Hacc.
  change (accrueDebt <$> currentDebts s) with (accrued p) in Hacc.
  pose proof (paidDown_nonneg _ _ Hacc Hpaid) as Hx.
  pose proof (snap_nonneg _ Hx) as Hc.
  pose proof (snap_sum _ Hx) as Hsnap.
  destruct (accrue_sum _ Hinv (totalInterestPaid s)) as [Hi Hsum].
  change (accrueDebt <$> currentDebts s) with (accrued p) in Hsum.
  change (foldl accrueTotal (totalInterestPaid s) (currentDebts s))
    with (totalInterestPaid (step st s)) in Hi, Hsum.
  assert (sumBalances (x_debts (extraPaid p))
          == sumBalances (accrued p) - s_paidMins (settled p)
             - logTotal (x_log (extraPaid p))) as Hpay.
  { assert (sumBalances (s_debts (settled p)) + s_paidMins (settled p)
            == sumBalances (accrued p) + 0) as Hs
      by exact (settle_fold_conserve (debtsForMin (accrued p) (rolled p))
                  (mkSettle (initialCash p) (accrued p) (rolled p) 0)).
    pose proof (applyStrategy_conserve (strategy st) (s_cash (settled p))
                  (s_debts (settled p))) as Hxs.
    cbv zeta in Hxs. change (applyStrategy _ _ _) with (extraPaid p) in Hxs. lra. }
  split; [exact Hc|]. split; [exact Hi|].
  change (debtRemaining (step st s)) with (sumBalances (snapDebt <$> x_debts (extraPaid p))).
  change (paidInRow (rowData (S (iteration s)) p))
    with (s_paidMins (settled p) + logTotal (x_log (extraPaid p))).
  rewrite Hd. lra.
Qed.

End DebtsAlong.

(** X23: a debt whose balance is at most 0.5 when a period starts has a
    balance of 0 when that period ends and at the end of every later
    period. *)
Theorem X23_paid_off_debts_stay_paid_off (st : AppState) (n k : nat) :
  Forall2 (λ a b, (Debt.balance a <= 1 # 2)%Q -> Debt.balance b = 0%Q)
    (currentDebts (iterate n st)) (currentDebts (iterate (S k + n) st)).
Proof.
  induction k as [|k IH].
  - apply period_keeps_zero.
  - eapply Forall2_compose; [|exact IH|apply (period_keeps_zero st (iterate (S k + n) st))].
    intros a b c H1 H2 Ha. apply H2. rewrite (H1 Ha). lra.
Qed.

(** X24: when the balances and rates of the profile are not negative, the
    interest total never goes down, and after any number of periods what is
    still owed plus everything paid in the rows is at most the starting
    debt plus the interest charged: the plan never pays more than principal
    and interest. *)
Theorem X24_paid_at_most_principal_plus_interest (st : AppState) (n : nat) :
  debts_nonneg (debts st) ->
  (0 <= totalInterestPaid (iterate n st))%Q
  /\ (totalInterestPaid (iterate n st) <= totalInterestPaid (iterate (S n) st))%Q
  /\ (debtRemaining (iterate n st) + totalPaid (simulationResults (iterate n st))
      <= sumBalances (debts st) + totalInterestPaid (iterate n st))%Q.
Proof.
  intros Hinv.
  assert (forall m,
            debts_nonneg (currentDebts (iterate m st))
            /\ debtRemaining (iterate m st) = sumBalances (currentDebts (iterate m st))
            /\ (0 <= totalInterestPaid (iterate m st))%Q
            /\ (debtRemaining (iterate m st)
                + totalPaid (simulationResults (iterate m st))
                <= sumBalances (debts st) + totalInterestPaid (iterate m st))%Q) as Hall.
  { induction m as [|m (IH1 & IH2 & IH3 & IH4)].
    - split; [exact Hinv|]. split; [reflexivity|].
      simpl. unfold totalPaid, qsum. simpl. split; lra.
    - destruct (period_totals st (iterate m st) IH1 IH2) as (H1 & H2 & H3).
      cbv zeta in H3.
      change (step st (iterate m st)) with (iterate (S m) st) in *.
      split; [exact H1|]. split; [reflexivity|]. split; [lra|].
      change (simulationResults (iterate (S m) st))
        with (simulationResults (iterate m st)
              ++ [rowData (S (iteration (iterate m st)))
                    (runPeriod st (iterate m st))]).
      unfold totalPaid in *. rewrite fmap_app, fmap_cons, fmap_nil, qsum_snoc. lra. }
  destruct (Hall n) as (H1 & H2 & H3 & H4).
  destruct (period_totals st (iterate n st) H1 H2) as (_ & H5 & _).
  split; [exact H3|]. split; [exact H5|exact H4].
Qed.

Lemma X24_witness_default :
  debts_nonneg (debts defaultData)
  /\ (debtRemaining (iterate 2 defaultData)
      + totalPaid (simulationResults (iterate 2 defaultData))
      <= sumBalances (debts defaultData) + totalInterestPaid (iterate 2 defaultData))%Q.
Proof.
  assert (debts_nonneg (debts defaultData)) as H.
  { unfold debts_nonneg, defaultData. simpl.
    repeat (constructor; [split; unfold Qle; simpl; lia|]). constructor. }
  split; [exact H|].
  exact (proj2 (proj2 (X24_paid_at_most_principal_plus_interest defaultData 2 H))).
Defined.

(** ** The records per card *)

Section LedgerProjections.

Lemma payOneL_fst debt sL j :
  fst <$> payOneL debt sL j = payOne sL.1 j.
Proof.
  unfold payOneL, payOne. destruct (p_obs sL.1 !! j) as [ob|]; [|reflexivity].
  destruct (qleb (Ob.amountRemaining ob) eps); [reflexivity|].
  destruct (qleb _ 0); reflexivity.
Qed.

Lemma payObligationsL_fst debt js : forall sL,
  (payObligationsL debt js sL).1 = payObligations js sL.1.
Proof.
  induction js as [|j js IH]; intros sL; simpl; [reflexivity|].
  destruct (qleb (p_cash sL.1) 0); [reflexivity|].
  rewrite IH. f_equal. rewrite <- (payOneL_fst debt).
  destruct (payOneL debt sL j); reflexivity.
Qed.

Lemma settleDebtL_fst sL e : (settleDebtL sL e).1 = settleDebt sL.1 e.
Proof.
  unfold settleDebtL, settleDebt.
  destruct (s_debts sL.1 !! MinEntry.ix e) as [debt|]; [|reflexivity].
  cbn [fst]. rewrite payObligationsL_fst. reflexivity.
Qed.

Lemma settle_foldL_fst es : forall sL,
  (foldl settleDebtL sL es).1 = foldl settleDebt sL.1 es.
Proof.
  induction es as [|e es IH]; intros sL; simpl; [reflexivity|].
  rewrite IH, settleDebtL_fst. reflexivity.
Qed.

Lemma settleMinimumsL_fst cashAvailable currentDebts m L :
  (settleMinimumsL cashAvailable currentDebts m L).1
  = settleMinimums cashAvailable currentDebts m.
Proof. unfold settleMinimumsL. now rewrite settle_foldL_fst. Qed.

Lemma payExtraL_fst sL i : fst <$> payExtraL sL i = payExtra sL.1 i.
Proof.
  unfold payExtraL, payExtra. destruct (x_debts sL.1 !! i) as [debt|]; [|reflexivity].
  destruct (qleb _ 0); reflexivity.
Qed.

Lemma payOrderedL_fst ixs : forall sL,
  (payOrderedL ixs sL).1 = payOrdered ixs sL.1.
Proof.
  induction ixs as [|i ixs IH]; intros sL; simpl; [reflexivity|].
  destruct (qleb (x_extra sL.1) 1); [reflexivity|].
  rewrite IH. f_equal. rewrite <- payExtraL_fst.
  destruct (payExtraL sL i); reflexivity.
Qed.

Lemma payFlatL_fst total sL i : (payFlatL total sL i).1 = payFlat total sL.1 i.
Proof.
  unfold payFlatL, payFlat. destruct (qleb (x_extra sL.1) 1); [reflexivity|].
  destruct (x_debts sL.1 !! i) as [debt|]; [|reflexivity].
  destruct (qleb _ 0); reflexivity.
Qed.

Lemma payFlat_foldL_fst total ixs : forall sL,
  (foldl (payFlatL total) sL ixs).1 = foldl (payFlat total) sL.1 ixs.
Proof.
  induction ixs as [|i ixs IH]; intros sL; simpl; [reflexivity|].
  rewrite IH, payFlatL_fst. reflexivity.
Qed.

Lemma applyStrategyL_fst strategy0 cashAvailable currentDebts L :
  (applyStrategyL strategy0 cashAvailable currentDebts L).1
  = applyStrategy strategy0 cashAvailable currentDebts.
Proof.
  unfold applyStrategyL, applyStrategy.
  destruct (qltb 1 cashAvailable); [|reflexivity].
  match goal with |- context [if ?c then _ else _] => destruct c end.
  - now rewrite payFlat_foldL_fst.
  - now rewrite payOrderedL_fst.
Qed.

End LedgerProjections.

Section LedgerTracking.
Local Open Scope Q_scope.
Variable L0 : gmap Z Rec.t.

Lemma recordMin_other debt b pay L k :
  k <> Debt.id debt -> recordMin debt b pay L !! k = L !! k.
Proof. intros H. unfold recordMin. now rewrite lookup_insert_ne by congruence. Qed.

Lemma recordExtra_other debt before b pay L k :
  k <> Debt.id debt -> recordExtra debt before b pay L !! k = L !! k.
Proof. intros H. unfold recordExtra. now rewrite lookup_insert_ne by congruence. Qed.

Lemma recordMin_tracks L debt b pay :
  ledgerTracks L0 L (Debt.id debt) b -> 0 < pay -> pay <= b ->
  ledgerTracks L0 (recordMin debt (b - pay) pay L) (Debt.id debt) (b - pay).
Proof.
  unfold ledgerTracks, recordMin. rewrite lookup_insert_eq.
  destruct (L0 !! Debt.id debt) as [rec0|], (L !! Debt.id debt) as [rec|];
    simpl; try contradiction.
  - intros (H1 & H2 & H3 & H4 & H5 & H6 & H7) Hp Hb.
    repeat split; simpl; try assumption; try lra.
  - intros H Hp Hb. lra.
Qed.

Lemma recordExtra_tracks L debt before b pay :
  ledgerTracks L0 L (Debt.id debt) b -> 0 < pay -> pay <= b ->
  ledgerTracks L0 (recordExtra debt before (b - pay) pay L) (Debt.id debt) (b - pay).
Proof.
  unfold ledgerTracks, recordExtra. rewrite lookup_insert_eq.
  destruct (L0 !! Debt.id debt) as [rec0|], (L !! Debt.id debt) as [rec|];
    simpl; try contradiction.
  - intros (H1 & H2 & H3 & H4 & H5 & H6 & H7) Hp Hb.
    repeat split; simpl; try assumption; try lra.
  - intros H Hp Hb. lra.
Qed.

Lemma ledgerTracks_same L L' k b :
  L' !! k = L !! k -> ledgerTracks L0 L k b -> ledgerTracks L0 L' k b.
Proof. unfold ledgerTracks. now intros ->. Qed.

(** *** Minimums *)

Lemma payOneL_tracks debt sL j sL' :
  payOneL debt sL j = Some sL' ->
  ledgerTracks L0 sL.2 (Debt.id debt) (p_balance sL.1) ->
  ledgerTracks L0 sL'.2 (Debt.id debt) (p_balance sL'.1)
  /\ forall k, k <> Debt.id debt -> sL'.2 !! k = sL.2 !! k.
Proof.
  unfold payOneL. destruct (p_obs sL.1 !! j) as [ob|]; [|discriminate].
  destruct (qleb (Ob.amountRemaining ob) eps); [discriminate|].
  pose proof (min3_le (p_cash sL.1) (Ob.amountRemaining ob) (p_balance sL.1))
    as (_ & _ & Hle).
  destruct (qleb _ 0) eqn:E; [discriminate|]. apply qleb_false in E.
  intros H Ht. inversion H; subst; clear H. cbn [fst snd p_balance]. split.
  - now apply recordMin_tracks.
  - intros k Hk. now apply recordMin_other.
Qed.

Lemma payObligationsL_tracks debt js : forall sL,
  ledgerTracks L0 sL.2 (Debt.id debt) (p_balance sL.1) ->
  ledgerTracks L0 (payObligationsL debt js sL).2 (Debt.id debt)
    (p_balance (payObligationsL debt js sL).1)
  /\ forall k, k <> Debt.id debt -> (payObligationsL debt js sL).2 !! k = sL.2 !! k.
Proof.
  induction js as [|j js IH]; intros sL Ht; simpl; [split; [exact Ht|reflexivity]|].
  destruct (qleb (p_cash sL.1) 0); [split; [exact Ht|reflexivity]|].
  destruct (payOneL debt sL j) as [sL'|] eqn:E; simpl; [|now apply IH].
  destruct (payOneL_tracks debt sL j sL' E Ht) as [H1 H2].
  destruct (IH sL' H1) as [H3 H4]. split; [exact H3|].
  intros k Hk. rewrite H4, H2 by exact Hk. reflexivity.
Qed.

Lemma distinct_ids_lookup (l : list Debt.t) (i j : nat) d d' :
  distinct_ids l -> l !! i = Some d -> l !! j = Some d' ->
  Debt.id d = Debt.id d' -> i = j.
Proof.
  intros Hn Hi Hj Heq. unfold distinct_ids in Hn.
  eapply (NoDup_lookup _ i j (Debt.id d)); [exact Hn| |].
  - now rewrite list_lookup_fmap, Hi.
  - now rewrite list_lookup_fmap, Hj, Heq.
Qed.

Lemma ids_insert_balance (l : list Debt.t) (i : nat) debt b :
  l !! i = Some debt ->
  Debt.id <$> <[i := Debt.set_balance debt b]> l = Debt.id <$> l.
Proof.
  intros Hi. rewrite list_fmap_insert. simpl.
  apply list_insert_id. now rewrite list_lookup_fmap, Hi.
Qed.

(** Writing back the balance that a record follows keeps the records in
    step with the debts. *)
Lemma ledgerOk_insert (l : list Debt.t) L L' (i : nat) debt b :
  distinct_ids l -> ledgerOk L0 l L -> l !! i = Some debt ->
  ledgerTracks L0 L' (Debt.id debt) b ->
  (forall k, k <> Debt.id debt -> L' !! k = L !! k) ->
  ledgerOk L0 (<[i := Debt.set_balance debt b]> l) L'.
Proof.
  intros Hn Hok Hi Ht Hother j d Hj.
  destruct (decide (j = i)) as [->|Hne].
  - rewrite list_lookup_insert_eq in Hj by (eapply lookup_lt_Some; eauto).
    inversion Hj; subst d. exact Ht.
  - rewrite list_lookup_insert_ne in Hj by congruence.
    eapply ledgerTracks_same; [|exact (Hok j d Hj)].
    apply Hother. intros Heq. apply Hne.
    exact (distinct_ids_lookup l j i d debt Hn Hj Hi Heq).
Qed.

Lemma settleDebtL_ok sL e :
  distinct_ids (s_debts sL.1) -> ledgerOk L0 (s_debts sL.1) sL.2 ->
  ledgerOk L0 (s_debts (settleDebtL sL e).1) (settleDebtL sL e).2
  /\ Debt.id <$> s_debts (settleDebtL sL e).1 = Debt.id <$> s_debts sL.1.
Proof.
  intros Hn Hok. unfold settleDebtL.
  destruct (s_debts sL.1 !! MinEntry.ix e) as [debt|] eqn:Ed;
    [|split; [exact Hok|reflexivity]].
  cbn [fst snd s_debts].
  match goal with |- context [payObligationsL debt ?js ?x] =>
    destruct (payObligationsL_tracks debt js x (Hok _ _ Ed)) as [H1 H2] end.
  split; [|now apply ids_insert_balance].
  eapply ledgerOk_insert; eauto.
Qed.

Lemma settle_foldL_ok es : forall sL,
  distinct_ids (s_debts sL.1) -> ledgerOk L0 (s_debts sL.1) sL.2 ->
  ledgerOk L0 (s_debts (foldl settleDebtL sL es).1) (foldl settleDebtL sL es).2
  /\ Debt.id <$> s_debts (foldl settleDebtL sL es).1 = Debt.id <$> s_debts sL.1.
Proof.
  induction es as [|e es IH]; intros sL Hn Hok; simpl; [split; [exact Hok|reflexivity]|].
  destruct (settleDebtL_ok sL e Hn Hok) as [H1 H2].
  destruct (IH (settleDebtL sL e)) as [H3 H4];
    [unfold distinct_ids; rewrite H2; exact Hn|exact H1|].
  split; [exact H3|]. now rewrite H4.
Qed.

(** *** Strategy *)

Lemma payExtraL_ok sL i sL' :
  distinct_ids (x_debts sL.1) -> ledgerOk L0 (x_debts sL.1) sL.2 ->
  payExtraL sL i = Some sL' ->
  ledgerOk L0 (x_debts sL'.1) sL'.2
  /\ Debt.id <$> x_debts sL'.1 = Debt.id <$> x_debts sL.1.
Proof.
  intros Hn Hok. unfold payExtraL.
  destruct (x_debts sL.1 !! i) as [debt|] eqn:Ed; [|discriminate].
  destruct (qleb _ 0) eqn:E; [discriminate|]. apply qleb_false in E.
  intros H. inversion H; subst; clear H. cbn [fst snd x_debts].
  split; [|now apply ids_insert_balance].
  assert (qmin (x_extra sL.1) (Debt.balance debt) <= Debt.balance debt) as Hle
    by (destruct (qmin_spec (x_extra sL.1) (Debt.balance debt)) as [[? ->]|[? ->]]; lra).
  eapply ledgerOk_insert; eauto.
  - apply recordExtra_tracks; [exact (Hok _ _ Ed)|exact E|exact Hle].
  - intros k Hk. now apply recordExtra_other.
Qed.

Lemma payOrderedL_ok ixs : forall sL,
  distinct_ids (x_debts sL.1) -> ledgerOk L0 (x_debts sL.1) sL.2 ->
  ledgerOk L0 (x_debts (payOrderedL ixs sL).1) (payOrderedL ixs sL).2
  /\ Debt.id <$> x_debts (payOrderedL ixs sL).1 = Debt.id <$> x_debts sL.1.
Proof.
  induction ixs as [|i ixs IH]; intros sL Hn Hok; simpl;
    [split; [exact Hok|reflexivity]|].
  destruct (qleb (x_extra sL.1) 1); [split; [exact Hok|reflexivity]|].
  destruct (payExtraL sL i) as [sL'|] eqn:E; simpl; [|now apply IH].
  destruct (payExtraL_ok sL i sL' Hn Hok E) as [H1 H2].
  destruct (IH sL') as [H3 H4]; [unfold distinct_ids; rewrite H2; exact Hn|exact H1|].
  split; [exact H3|]. now rewrite H4.
Qed.

Lemma payFlatL_ok total sL i :
  distinct_ids (x_debts sL.1) -> ledgerOk L0 (x_debts sL.1) sL.2 ->
  ledgerOk L0 (x_debts (payFlatL total sL i).1) (payFlatL total sL i).2
  /\ Debt.id <$> x_debts (payFlatL total sL i).1 = Debt.id <$> x_debts sL.1.
Proof.
  intros Hn Hok. unfold payFlatL.
  destruct (qleb (x_extra sL.1) 1); [split; [exact Hok|reflexivity]|].
  destruct (x_debts sL.1 !! i) as [debt|] eqn:Ed; [|split; [exact Hok|reflexivity]].
  destruct (qleb _ 0) eqn:E; [split; [exact Hok|reflexivity]|]. apply qleb_false in E.
  cbn [fst snd x_debts].
  split; [|now apply ids_insert_balance].
  assert (qmin (x_extra sL.1 * (Debt.balance debt / total)) (Debt.balance debt)
          <= Debt.balance debt) as Hle
    by (destruct (qmin_spec (x_extra sL.1 * (Debt.balance debt / total))
                    (Debt.balance debt)) as [[? ->]|[? ->]]; lra).
  eapply ledgerOk_insert; eauto.
  - apply recordExtra_tracks; [exact (Hok _ _ Ed)|exact E|exact Hle].
  - intros k Hk. now apply recordExtra_other.
Qed.

Lemma payFlat_foldL_ok total ixs : forall sL,
  distinct_ids (x_debts sL.1) -> ledgerOk L0 (x_debts sL.1) sL.2 ->
  ledgerOk L0 (x_debts (foldl (payFlatL total) sL ixs).1)
    (foldl (payFlatL total) sL ixs).2
  /\ Debt.id <$> x_debts (foldl (payFlatL total) sL ixs).1 = Debt.id <$> x_debts sL.1.
Proof.
  induction ixs as [|i ixs IH]; intros sL Hn Hok; simpl;
    [split; [exact Hok|reflexivity]|].
  destruct (payFlatL_ok total sL i Hn Hok) as [H1 H2].
  destruct (IH (payFlatL total sL i)) as [H3 H4];
    [unfold distinct_ids; rewrite H2; exact Hn|exact H1|].
  split; [exact H3|]. now rewrite H4.
Qed.

Lemma applyStrategyL_ok strategy0 cashAvailable currentDebts L :
  distinct_ids currentDebts -> ledgerOk L0 currentDebts L ->
  ledgerOk L0 (x_debts (applyStrategyL strategy0 cashAvailable currentDebts L).1)
    (applyStrategyL strategy0 cashAvailable currentDebts L).2.
Proof.
  intros Hn Hok. unfold applyStrategyL.
  destruct (qltb 1 cashAvailable); [|exact Hok].
  match goal with |- context [if ?c then _ else _] => destruct c end.
  - now apply payFlat_foldL_ok.
  - now apply payOrderedL_ok.
Qed.

End LedgerTracking.

Section LedgerAccrual.
Local Open Scope Q_scope.

Lemma accrueRecord_other L d k :
  k <> Debt.id d -> accrueRecord L d !! k = L !! k.
Proof.
  intros H. unfold accrueRecord. destruct (qleb (Debt.balance d) eps); [reflexivity|].
  cbv zeta. now rewrite lookup_insert_ne by congruence.
Qed.

Lemma accrueRecord_own L d :
  L !! Debt.id d = None ->
  accrueRecord L d !! Debt.id d = accrueRecord ∅ d !! Debt.id d.
Proof.
  intros H. unfold accrueRecord. destruct (qleb (Debt.balance d) eps).
  - now rewrite H, lookup_empty.
  - cbv zeta. now rewrite !lookup_insert_eq.
Qed.

Lemma accrueLedger_notin l k :
  k ∉ Debt.id <$> l -> accrueLedger l !! k = None.
Proof.
  unfold accrueLedger. induction l as [|x l IH] using rev_ind; intros Hk.
  - apply lookup_empty.
  - rewrite fmap_app, not_elem_of_app in Hk. destruct Hk as [Hl Hx].
    rewrite foldl_app. cbn [foldl]. rewrite accrueRecord_other; [now apply IH|].
    intros ->. apply Hx. simpl. left.
Qed.

Lemma accrueLedger_lookup l : forall i d,
  distinct_ids l -> l !! i = Some d ->
  accrueLedger l !! Debt.id d = accrueRecord ∅ d !! Debt.id d.
Proof.
  unfold accrueLedger, distinct_ids.
  induction l as [|x l IH] using rev_ind; intros i d Hn Hi; [discriminate|].
  rewrite fmap_app in Hn. apply NoDup_app in Hn as (Hn & Hx & _).
  rewrite foldl_app. cbn [foldl].
  destruct (decide (i < length l)%nat) as [Hlt|Hge].
  - rewrite lookup_app_l in Hi by exact Hlt.
    rewrite accrueRecord_other; [now apply (IH i)|].
    intros Heq. apply (Hx (Debt.id d)).
    + apply list_elem_of_fmap_2. eapply list_elem_of_lookup_2; eauto.
    + rewrite Heq. simpl. left.
  - rewrite lookup_app_r in Hi by lia.
    destruct (i - length l)%nat; [|discriminate]. inversion Hi; subst x.
    apply accrueRecord_own. apply (accrueLedger_notin l).
    intros Hin. apply (Hx _ Hin). simpl. left.
Qed.

Lemma accrued_ledgerOk l :
  distinct_ids l -> ledgerOk (accrueLedger l) (accrueDebt <$> l) (accrueLedger l).
Proof.
  intros Hn i d' Hi. rewrite list_lookup_fmap in Hi.
  destruct (l !! i) as [d|] eqn:Ed; [|discriminate]. inversion Hi; subst d'.
  assert (Debt.id (accrueDebt d) = Debt.id d) as ->
    by (unfold accrueDebt; destruct (qleb _ eps); reflexivity).
  unfold ledgerTracks. rewrite (accrueLedger_lookup l i d Hn Ed).
  unfold accrueRecord, accrueDebt.
  destruct (qleb (Debt.balance d) eps).
  - rewrite lookup_empty. simpl. lra.
  - cbv zeta. rewrite lookup_insert_eq.
    unfold recTracks, totalCharge. simpl.
    repeat split; try reflexivity; lra.
Qed.

Lemma ids_accrue (l : list Debt.t) : Debt.id <$> (accrueDebt <$> l) = Debt.id <$> l.
Proof.
  rewrite <- list_fmap_compose. apply list_fmap_ext. intros i d _.
  unfold compose, accrueDebt. destruct (qleb _ eps); reflexivity.
Qed.

Lemma ids_snap (l : list Debt.t) : Debt.id <$> (snapDebt <$> l) = Debt.id <$> l.
Proof.
  rewrite <- list_fmap_compose. apply list_fmap_ext. intros i d _.
  unfold compose, snapDebt. destruct (qltb _ 1); reflexivity.
Qed.

Lemma ids_sameDebt l l' : Forall2 sameDebt l l' -> Debt.id <$> l' = Debt.id <$> l.
Proof.
  induction 1 as [|a b l l' Hab _ IH]; [reflexivity|].
  rewrite !fmap_cons, IH. f_equal. rewrite Hab. reflexivity.
Qed.

(** The records built in a period follow the balances that the strategy
    leaves. *)
Lemma periodLedger_ok st s :
  distinct_ids (currentDebts s) ->
  let p := runPeriod st s in
  ledgerOk (accrueLedger (currentDebts s)) (x_debts (extraPaid p)) (periodLedger st s).
Proof.
  intros Hn p. set (L0 := accrueLedger (currentDebts s)).
  assert (distinct_ids (accrued p)) as Hna
    by (unfold distinct_ids, p; simpl; rewrite ids_accrue; exact Hn).
  pose proof (accrued_ledgerOk (currentDebts s) Hn) as H0.
  change (accrueDebt <$> currentDebts s) with (accrued p) in H0. fold L0 in H0.
  destruct (settle_foldL_ok L0 (debtsForMin (accrued p) (rolled p))
              (mkSettle (initialCash p) (accrued p) (rolled p) 0, L0) Hna H0)
    as [H1 H2].
  change (foldl settleDebtL _ _)
    with (settleMinimumsL (initialCash p) (accrued p) (rolled p) L0) in H1, H2.
  set (afterMins := settleMinimumsL (initialCash p) (accrued p) (rolled p) L0) in *.
  assert (afterMins.1 = settled p) as Hs by apply settleMinimumsL_fst.
  assert (distinct_ids (s_debts afterMins.1)) as Hns
    by (unfold distinct_ids; rewrite H2; exact Hna).
  pose proof (applyStrategyL_ok L0 (strategy st) (s_cash afterMins.1)
                (s_debts afterMins.1) afterMins.2 Hns H1) as H3.
  rewrite applyStrategyL_fst in H3. rewrite Hs in H3 at 1 2.
  exact H3.
Qed.

End LedgerAccrual.

(** ** The histories per card *)

Section HistoryFolds.
Variables (periodEnd : Date) (L : gmap Z Rec.t).

Lemma pushHistory_other H d k :
  k <> Debt.id d -> pushHistory periodEnd L H d !! k = H !! k.
Proof.
  intros Hk. unfold pushHistory. destruct (H !! Debt.id d); [|reflexivity].
  now rewrite lookup_insert_ne by congruence.
Qed.

Lemma pushHistory_own H d :
  pushHistory periodEnd L H d !! Debt.id d
  = (λ arr, arr ++ [historyEntry periodEnd (L !! Debt.id d) arr d])
      <$> H !! Debt.id d.
Proof.
  unfold pushHistory. destruct (H !! Debt.id d) as [arr|] eqn:E.
  - now rewrite lookup_insert_eq.
  - now rewrite E.
Qed.

Lemma push_fold_notin (D : list Debt.t) : forall H k,
  k ∉ Debt.id <$> D -> foldl (pushHistory periodEnd L) H D !! k = H !! k.
Proof.
  induction D as [|x D IH]; intros H k Hk; [reflexivity|].
  rewrite fmap_cons, not_elem_of_cons in Hk. destruct Hk as [Hx Hk].
  cbn [foldl]. rewrite IH by exact Hk. now apply pushHistory_other.
Qed.

Lemma push_fold_lookup (D : list Debt.t) : forall H (i : nat) d,
  distinct_ids D -> D !! i = Some d ->
  foldl (pushHistory periodEnd L) H D !! Debt.id d
  = (λ arr, arr ++ [historyEntry periodEnd (L !! Debt.id d) arr d])
      <$> H !! Debt.id d.
Proof.
  unfold distinct_ids.
  induction D as [|x D IH]; intros H i d Hn Hi; [discriminate|].
  rewrite fmap_cons in Hn. apply NoDup_cons in Hn as [Hx Hn].
  cbn [foldl]. destruct i as [|i]; simpl in Hi.
  - inversion Hi; subst x. rewrite push_fold_notin by exact Hx.
    apply pushHistory_own.
  - rewrite (IH _ i d Hn Hi). rewrite pushHistory_other; [reflexivity|].
    intros Heq. apply Hx. rewrite <- Heq.
    apply list_elem_of_fmap_2. eapply list_elem_of_lookup_2; eauto.
Qed.

End HistoryFolds.

Lemma initHistories_lookup (D : list Debt.t) d :
  d ∈ D -> initHistories D !! Debt.id d = Some [].
Proof.
  unfold initHistories. induction D as [|x D IH] using rev_ind; intros Hd.
  - inversion Hd.
  - rewrite foldl_app. cbn [foldl].
    destruct (decide (Debt.id d = Debt.id x)) as [->|Hne].
    + apply lookup_insert_eq.
    + rewrite lookup_insert_ne by congruence. apply IH.
      apply elem_of_app in Hd as [Hd|Hd]; [exact Hd|].
      apply list_elem_of_singleton in Hd. congruence.
Qed.

Section Histories.
Local Open Scope Q_scope.
Variable st : AppState.
Hypothesis Hids : distinct_ids (debts st).

Lemma ids_iterate n : Debt.id <$> currentDebts (iterate n st) = Debt.id <$> debts st.
Proof.
  induction n as [|n IH]; [reflexivity|]. rewrite <- IH.
  apply ids_sameDebt, (period_sameDebt st (iterate n st)).
Qed.

Lemma distinct_iterate n : distinct_ids (currentDebts (iterate n st)).
Proof. unfold distinct_ids. rewrite ids_iterate. exact Hids. Qed.

(** What the period run after [n] periods pushes on the history of the
    debt at position [i]. *)
Lemma history_step n (i : nat) d :
  currentDebts (iterate n st) !! i = Some d ->
  let s := iterate n st in
  let p := runPeriod st s in
  exists dx,
    x_debts (extraPaid p) !! i = Some dx
    /\ currentDebts (iterate (S n) st) !! i = Some (snapDebt dx)
    /\ historiesAfter (S n) st !! Debt.id d
       = (λ arr, arr ++ [historyEntry (periodEnd p) (periodLedger st s !! Debt.id d)
                           arr (snapDebt dx)])
           <$> historiesAfter n st !! Debt.id d
    /\ match periodLedger st s !! Debt.id d with
       | Some rec =>
           1 # 2 < Debt.balance d
           /\ Rec.startingBalance rec = Debt.balance d
           /\ Rec.interest rec = Debt.balance d * (Debt.rate d / 100) / 24
           /\ Rec.iva rec = Debt.balance d * (Debt.rate d / 100) / 24 * (16 # 100)
           /\ Rec.endingBalance rec = Debt.balance dx
           /\ 0 <= Rec.minPaid rec
           /\ 0 <= Rec.extraPaid rec
           /\ Rec.startingBalance rec + Rec.interest rec + Rec.iva rec
              - Rec.minPaid rec - Rec.extraPaid rec == Debt.balance dx
       | None => Debt.balance d <= 1 # 2 /\ Debt.balance (snapDebt dx) = 0
       end.
Proof.
  intros Hi s p.
  pose proof (distinct_iterate n) as Hn. fold s in Hn.
  destruct (period_debts st s) as (H1 & H2 & _). fold p in H1, H2.
  assert (Forall2 sameDebt (currentDebts s) (x_debts (extraPaid p))) as Hsame.
  { eapply Forall2_trans_list; [apply sameDebt_trans|exact H1|].
    eapply Forall2_impl; [exact H2|]. intros a b Hab. apply Hab. }
  destruct (Forall2_lookup_l _ _ _ i d Hsame Hi) as (dx & Hx & Hdx).
  assert (Debt.id dx = Debt.id d) as Hid by (rewrite Hdx; reflexivity).
  assert (cleaned p !! i = Some (snapDebt dx)) as Hc.
  { change (cleaned p) with (snapDebt <$> x_debts (extraPaid p)).
    now rewrite list_lookup_fmap, Hx. }
  assert (Debt.id (snapDebt dx) = Debt.id d) as Hidc
    by (rewrite <- Hid; unfold snapDebt; destruct (qltb _ 1); reflexivity).
  exists dx. split; [exact Hx|]. split; [exact Hc|]. split.
  - assert (distinct_ids (cleaned p)) as Hnc.
    { unfold distinct_ids. change (cleaned p) with (currentDebts (iterate (S n) st)).
      rewrite ids_iterate. exact Hids. }
    pose proof (push_fold_lookup (periodEnd p) (periodLedger st s) (cleaned p)
                  (historiesAfter n st) i (snapDebt dx) Hnc Hc) as Hp.
    rewrite Hidc in Hp. exact Hp.
  - pose proof (periodLedger_ok st s Hn i dx Hx) as Ht.
    unfold ledgerTracks in Ht. rewrite Hid in Ht.
    rewrite (accrueLedger_lookup (currentDebts s) i d Hn Hi) in Ht.
    unfold accrueRecord in Ht.
    destruct (qleb (Debt.balance d) eps) eqn:E.
    + rewrite lookup_empty in Ht. apply qleb_true in E. unfold eps in E.
      destruct (periodLedger st s !! Debt.id d); [contradiction|].
      split; [exact E|]. apply snapDebt_zero. lra.
    + cbv zeta in Ht. rewrite lookup_insert_eq in Ht.
      apply qleb_false in E. unfold eps in E.
      destruct (periodLedger st s !! Debt.id d) as [rec|]; [|contradiction].
      destruct Ht as (Ha & Hb & Hc' & Hd & He & Hf & Hg). simpl in Ha, Hb, Hc'.
      repeat split; assumption.
Qed.

End Histories.

Section HistoryLists.
Local Open Scope Q_scope.

Lemma chained_nil : chained [].
Proof. intros k h h' H. discriminate. Qed.

Lemma chained_snoc arr h :
  chained arr ->
  (forall hl, last arr = Some hl -> Hist.startingBalance h = Hist.endingBalance hl) ->
  chained (arr ++ [h]).
Proof.
  intros Hc Hl k h1 h2 H1 H2.
  destruct (decide (S k < length arr)%nat) as [Hlt|Hge].
  - rewrite lookup_app_l in H1 by lia. rewrite lookup_app_l in H2 by lia.
    exact (Hc k h1 h2 H1 H2).
  - assert (S k = length arr) as Hk.
    { apply lookup_lt_Some in H2. rewrite length_app in H2. simpl in H2. lia. }
    rewrite lookup_app_l in H1 by lia.
    rewrite lookup_app_r in H2 by lia.
    replace (S k - length arr)%nat with 0%nat in H2 by lia.
    inversion H2; subst h2. apply Hl.
    rewrite last_lookup. replace (Nat.pred (length arr)) with k by lia. exact H1.
Qed.

Lemma chained_snoc_inv arr h :
  chained (arr ++ [h]) ->
  chained arr
  /\ (forall hl, last arr = Some hl -> Hist.startingBalance h = Hist.endingBalance hl).
Proof.
  intros Hc. split.
  - intros k h1 h2 H1 H2. apply (Hc k h1 h2).
    + rewrite lookup_app_l; [exact H1|]. eapply lookup_lt_Some; eauto.
    + rewrite lookup_app_l; [exact H2|]. eapply lookup_lt_Some; eauto.
  - intros hl Hl. rewrite last_lookup in Hl.
    destruct arr as [|x arr']; [discriminate|].
    apply (Hc (Nat.pred (length (x :: arr'))) hl h).
    + rewrite lookup_app_l; [exact Hl|]. simpl. lia.
    + rewrite lookup_app_r by (simpl; lia).
      replace (S (Nat.pred (length (x :: arr'))) - length (x :: arr'))%nat
        with 0%nat by (simpl; lia).
      reflexivity.
Qed.

Lemma scheduleTotals_snoc arr h :
  scheduleTotals (arr ++ [h]) = scheduleStep (scheduleTotals arr) (length arr, h).
Proof.
  unfold scheduleTotals, indexed. rewrite imap_app, foldl_app. simpl.
  rewrite Nat.add_0_r. reflexivity.
Qed.

(** What is still owed plus what was paid is at most the first balance plus
    the interest. *)
Lemma schedule_telescope arr :
  chained arr -> Forall entryOk arr -> Forall entryNonneg arr ->
  forall first lst, head arr = Some first -> last arr = Some lst ->
    Hist.endingBalance lst + (scheduleTotals arr).1.2
    <= Hist.startingBalance first + (scheduleTotals arr).1.1.
Proof.
  induction arr as [|h arr IH] using rev_ind; intros Hc Hok Hnn first lst Hf Hl;
    [discriminate|].
  apply chained_snoc_inv in Hc as [Hc Hlink].
  apply Forall_app in Hok as [Hok Hh]. apply Forall_inv in Hh.
  apply Forall_app in Hnn as [Hnn Hhn]. apply Forall_inv in Hhn.
  rewrite last_snoc in Hl. inversion Hl; subst lst.
  rewrite scheduleTotals_snoc.
  assert (Hist.endingBalance h + (Hist.minPaid h + Hist.extraPaid h)
          <= Hist.startingBalance h + (Hist.interest h + Hist.iva h)) as Hentry.
  { destruct Hhn as [Hs He].
    destruct Hh as [H|(H1 & H2 & H3 & H4 & H5)]; [lra|].
    rewrite H1, H2, H3, H4, H5. lra. }
  destruct (scheduleTotals arr) as [[tI tP] po] eqn:Et. cbn [scheduleStep fst snd].
  destruct (last arr) as [x|] eqn:Ela.
  - assert (head (arr ++ [h]) = head arr) as Hhd
      by (destruct arr; [discriminate Ela|reflexivity]).
    rewrite Hhd in Hf.
    pose proof (IH Hc Hok Hnn first x Hf eq_refl) as IH'.
    cbn [fst snd] in IH'.
    pose proof (Hlink x eq_refl) as Hst. rewrite Hst in Hentry. lra.
  - apply last_None in Ela. subst arr. simpl in Hf. inversion Hf; subst first.
    unfold scheduleTotals in Et. simpl in Et. inversion Et; subst. lra.
Qed.

(** The index kept by the schedule is that of the first entry that ends
    with at most 5. *)
Lemma schedule_payoff arr :
  match (scheduleTotals arr).2 with
  | Some k =>
      (exists h, arr !! k = Some h /\ Hist.endingBalance h <= 5)
      /\ (forall j h, (j < k)%nat -> arr !! j = Some h -> 5 < Hist.endingBalance h)
  | None => forall j h, arr !! j = Some h -> 5 < Hist.endingBalance h
  end.
Proof.
  induction arr as [|h arr IH] using rev_ind.
  - simpl. intros j h' H. discriminate.
  - rewrite scheduleTotals_snoc.
    destruct (scheduleTotals arr) as [[tI tP] po]. cbn [scheduleStep fst snd] in *.
    destruct po as [k|].
    + destruct IH as [(h0 & Hk & Hle) Hbefore]. split.
      * exists h0. split; [|exact Hle].
        rewrite lookup_app_l; [exact Hk|]. eapply lookup_lt_Some; eauto.
      * intros j h' Hj Hl. apply (Hbefore j h' Hj).
        apply lookup_lt_Some in Hk.
        rewrite lookup_app_l in Hl by lia. exact Hl.
    + destruct (qleb (Hist.endingBalance h) 5) eqn:E.
      * apply qleb_true in E. split.
        -- exists h. split; [|exact E].
           rewrite lookup_app_r by lia. now rewrite Nat.sub_diag.
        -- intros j h' Hj Hl. rewrite lookup_app_l in Hl by lia. now apply (IH j).
      * apply qleb_false in E. intros j h' Hl.
        destruct (decide (j < length arr)%nat) as [Hlt|Hge].
        -- rewrite lookup_app_l in Hl by lia. now apply (IH j).
        -- rewrite lookup_app_r in Hl by lia.
           destruct (j - length arr)%nat; [|discriminate].
           inversion Hl; subst. exact E.
Qed.

End HistoryLists.

Lemma debts_iterate_lookup st n (i : nat) d :
  debts st !! i = Some d ->
  exists dn, currentDebts (iterate n st) !! i = Some dn /\ Debt.id dn = Debt.id d.
Proof.
  intros Hi. induction n as [|n (dn & Hn & Hid)].
  - exists d. split; [exact Hi|reflexivity].
  - destruct (Forall2_lookup_l _ _ _ i dn (period_sameDebt st (iterate n st)) Hn)
      as (dn' & Hn' & Hsame).
    exists dn'. split; [exact Hn'|]. rewrite Hsame. exact Hid.
Qed.

Section HistoryRun.
Local Open Scope Q_scope.
Variable st : AppState.
Hypothesis Hids : distinct_ids (debts st).

(** The history of a card after [n] periods. *)
Lemma history_inv n : forall (i : nat) d,
  currentDebts (iterate n st) !! i = Some d ->
  exists arr,
    historiesAfter n st !! Debt.id d = Some arr
    /\ length arr = n
    /\ chained arr
    /\ (forall k h, arr !! k = Some h -> Hist.date h = periodEndAt st k)
    /\ (forall hl, last arr = Some hl -> 1 # 2 < Debt.balance d ->
                   Hist.endingBalance hl = Debt.balance d)
    /\ Forall entryOk arr.
Proof.
  induction n as [|n IH]; intros i d Hi.
  - exists []. split.
    { apply initHistories_lookup. eapply list_elem_of_lookup_2; exact Hi. }
    split; [reflexivity|]. split; [apply chained_nil|].
    split; [intros k h H; discriminate|]. split; [intros hl H; discriminate|constructor].
  - destruct (Forall2_lookup_r _ _ _ i d (period_sameDebt st (iterate n st)) Hi)
      as (d0 & Hi0 & Hsame).
    assert (Debt.id d = Debt.id d0) as Hid by (rewrite Hsame; reflexivity).
    destruct (IH i d0 Hi0) as (arr & Harr & Hlen & Hch & Hdates & Hlink & Hok).
    destruct (history_step st Hids n i d0 Hi0) as (dx & Hx & Hc & Hpush & Hrec).
    change (step st (iterate n st)) with (iterate (S n) st) in Hi.
    rewrite Hi in Hc. inversion Hc; subst d. clear Hc.
    rewrite Harr in Hpush. simpl in Hpush. rewrite Hid.
    eexists. split; [exact Hpush|].
    split; [rewrite length_app; simpl; lia|].
    destruct (periodLedger st (iterate n st) !! Debt.id d0) as [rec|] eqn:El.
    + destruct Hrec as (Hb & Hs & Hint & Hiva & Hend & Hmin & Hext & Hsum).
      split.
      { apply chained_snoc; [exact Hch|]. intros hl Hl. simpl.
        rewrite Hs. symmetry. now apply Hlink. }
      split.
      { intros k h Hk. destruct (decide (k < length arr)%nat) as [Hlt|Hge].
        - rewrite lookup_app_l in Hk by exact Hlt. now apply Hdates.
        - rewrite lookup_app_r in Hk by lia.
          destruct (k - length arr)%nat eqn:Ek; [|discriminate].
          inversion Hk; subst h. simpl. replace k with n by lia. reflexivity. }
      split.
      { intros hl Hl Hb'. rewrite last_snoc in Hl. inversion Hl; subst hl. simpl.
        rewrite Hend. unfold snapDebt in *.
        destruct (qltb (Debt.balance dx) 1); [simpl in Hb'; lra|reflexivity]. }
      apply Forall_app. split; [exact Hok|]. constructor; [|constructor].
      left. simpl. rewrite Hend. exact Hsum.
    + destruct Hrec as [Hb Hz].
      split.
      { apply chained_snoc; [exact Hch|]. intros hl Hl. simpl. now rewrite Hl. }
      split.
      { intros k h Hk. destruct (decide (k < length arr)%nat) as [Hlt|Hge].
        - rewrite lookup_app_l in Hk by exact Hlt. now apply Hdates.
        - rewrite lookup_app_r in Hk by lia.
          destruct (k - length arr)%nat eqn:Ek; [|discriminate].
          inversion Hk; subst h. simpl. replace k with n by lia. reflexivity. }
      split.
      { intros hl Hl Hb'. rewrite last_snoc in Hl. inversion Hl; subst hl.
        reflexivity. }
      apply Forall_app. split; [exact Hok|]. constructor; [|constructor].
      right. simpl. repeat split; try reflexivity. exact Hz.
Qed.

Hypothesis Hnn : debts_nonneg (debts st).

Lemma nonneg_iterate n : debts_nonneg (currentDebts (iterate n st)).
Proof.
  induction n as [|n IH]; [exact Hnn|].
  change (currentDebts (iterate (S n) st))
    with (snapDebt <$> x_debts (extraPaid (runPeriod st (iterate n st)))).
  apply snap_nonneg.
  destruct (period_debts st (iterate n st)) as (_ & H2 & _).
  eapply paidDown_nonneg; [|exact H2]. now apply accrue_nonneg.
Qed.

Lemma history_nonneg n : forall (i : nat) d arr,
  currentDebts (iterate n st) !! i = Some d ->
  historiesAfter n st !! Debt.id d = Some arr ->
  Forall entryNonneg arr.
Proof.
  induction n as [|n IH]; intros i d arr Hi Harr.
  - simpl in Harr. rewrite initHistories_lookup in Harr
      by (eapply list_elem_of_lookup_2; exact Hi).
    inversion Harr; subst. constructor.
  - destruct (Forall2_lookup_r _ _ _ i d (period_sameDebt st (iterate n st)) Hi)
      as (d0 & Hi0 & Hsame).
    assert (Debt.id d = Debt.id d0) as Hid by (rewrite Hsame; reflexivity).
    destruct (history_inv n i d0 Hi0) as (arr0 & Harr0 & _).
    pose proof (IH i d0 arr0 Hi0 Harr0) as Hn0.
    destruct (history_step st Hids n i d0 Hi0) as (dx & Hx & Hc & Hpush & Hrec).
    rewrite Hid, Hpush, Harr0 in Harr. simpl in Harr. inversion Harr; subst arr.
    apply Forall_app. split; [exact Hn0|]. constructor; [|constructor].
    assert (0 <= Debt.balance d0) as Hd0.
    { pose proof (nonneg_iterate n) as Hall. unfold debts_nonneg in Hall.
      rewrite Forall_forall in Hall.
      apply (Hall d0). eapply list_elem_of_lookup_2; exact Hi0. }
    assert (0 <= Debt.balance dx) as Hdx.
    { destruct (period_debts st (iterate n st)) as (_ & H2 & _).
      pose proof (paidDown_nonneg _ _ (accrue_nonneg _ (nonneg_iterate n)) H2) as Hall.
      unfold debts_nonneg in Hall. rewrite Forall_forall in Hall.
      apply (Hall dx). eapply list_elem_of_lookup_2; exact Hx. }
    destruct (periodLedger st (iterate n st) !! Debt.id d0) as [rec|].
    + destruct Hrec as (_ & Hs & _ & _ & Hend & _).
      split; simpl; [rewrite Hs|rewrite Hend]; assumption.
    + destruct Hrec as [_ Hz]. split; simpl; [|rewrite Hz; lra].
      destruct (last arr0) as [hl|] eqn:El; [|rewrite Hz; lra].
      rewrite Forall_forall in Hn0. apply (Hn0 hl).
      rewrite last_lookup in El. eapply list_elem_of_lookup_2; exact El.
Qed.

End HistoryRun.

(** X25: with distinct debt ids, every period pushes one entry on the
    history of each debt, dated at the period end.  For a debt that starts
    the period above 0.5 the entry starts at that balance, carries the
    interest of the period and its 16% surcharge, ends at the balance the
    strategy left, and its figures add up: start plus interest and surcharge
    less the payments is the end.  For any other debt the entry shows no
    movement and ends at 0. *)
Theorem X25_history_entry_adds_up (st : AppState) (n i : nat) (d : Debt.t) :
  distinct_ids (debts st) ->
  currentDebts (iterate n st) !! i = Some d ->
  let p := runPeriod st (iterate n st) in
  exists arr h dx,
    historiesAfter n st !! Debt.id d = Some arr
    /\ length arr = n
    /\ historiesAfter (S n) st !! Debt.id d = Some (arr ++ [h])
    /\ x_debts (extraPaid p) !! i = Some dx
    /\ Hist.date h = periodEnd p
    /\ ((1 # 2 < Debt.balance d)%Q ->
        Hist.startingBalance h = Debt.balance d
        /\ Hist.interest h = (Debt.balance d * (Debt.rate d / 100) / 24)%Q
        /\ Hist.iva h = (Hist.interest h * (16 # 100))%Q
        /\ Hist.endingBalance h = Debt.balance dx
        /\ (0 <= Hist.minPaid h)%Q
        /\ (0 <= Hist.extraPaid h)%Q
        /\ (Hist.startingBalance h + Hist.interest h + Hist.iva h
            - Hist.minPaid h - Hist.extraPaid h == Hist.endingBalance h)%Q)
    /\ ((Debt.balance d <= 1 # 2)%Q ->
        Hist.interest h = 0%Q /\ Hist.iva h = 0%Q
        /\ Hist.minPaid h = 0%Q /\ Hist.extraPaid h = 0%Q
        /\ Hist.endingBalance h = 0%Q
        /\ Hist.startingBalance h
           = match last arr with
             | Some h0 => Hist.endingBalance h0
             | None => 0%Q
             end).
Proof.
  intros Hids Hi p.
  destruct (history_inv st Hids n i d Hi) as (arr & Harr & Hlen & _).
  destruct (history_step st Hids n i d Hi) as (dx & Hx & _ & Hpush & Hrec).
  fold p in Hx, Hpush. rewrite Harr in Hpush. simpl in Hpush.
  eexists arr, _, dx. split; [exact Harr|]. split; [exact Hlen|].
  split; [exact Hpush|]. split; [exact Hx|].
  destruct (periodLedger st (iterate n st) !! Debt.id d) as [rec|].
  - destruct Hrec as (Hb & Hs & Hint & Hiva & Hend & Hmin & Hext & Hsum).
    simpl. split; [reflexivity|]. split.
    + intros _. rewrite Hs, Hint, Hiva, Hend. repeat split; try assumption.
      rewrite <- Hs, <- Hint at 1. rewrite <- Hiva. exact Hsum.
    + intros Hle. lra.
  - destruct Hrec as [Hb Hz]. simpl. split; [reflexivity|]. split.
    + intros Hlt. lra.
    + intros _. repeat split; try reflexivity; try exact Hz.
      destruct (last arr); [reflexivity|exact Hz].
Qed.

Lemma X25_witness_default :
  exists arr h dx,
    historiesAfter 0 defaultData !! 1%Z = Some arr
    /\ length arr = 0%nat
    /\ historiesAfter 1 defaultData !! 1%Z = Some (arr ++ [h])
    /\ x_debts (extraPaid (runPeriod defaultData (iterate 0 defaultData))) !! 0%nat
       = Some dx
    /\ Hist.endingBalance h = Debt.balance dx.
Proof.
  assert (distinct_ids (debts defaultData)) as Hids.
  { unfold distinct_ids. apply (bool_decide_unpack _). vm_compute. exact I. }
  assert (currentDebts (iterate 0 defaultData) !! 0%nat
          = Some (Debt.mk 1 "Didi" (1133459 # 100) (865 # 10) None 1671 (Some 24)))
    as Hi by reflexivity.
  destruct (X25_history_entry_adds_up defaultData 0 0 _ Hids Hi)
    as (arr & h & dx & H1 & H2 & H3 & H4 & _ & H5 & _).
  exists arr, h, dx. split; [exact H1|]. split; [exact H2|]. split; [exact H3|].
  split; [exact H4|]. apply H5. reflexivity.
Defined.

(** X26: with distinct debt ids, after [n] periods the history of every
    debt has [n] entries, the entry of each period is dated at the end of
    that period, and every entry starts with the balance the entry before
    it ended with. *)
Theorem X26_history_is_chained (st : AppState) (n i : nat) (d : Debt.t) :
  distinct_ids (debts st) ->
  debts st !! i = Some d ->
  exists arr,
    historiesAfter n st !! Debt.id d = Some arr
    /\ length arr = n
    /\ (forall k h, arr !! k = Some h -> Hist.date h = periodEndAt st k)
    /\ (forall k h h', arr !! k = Some h -> arr !! S k = Some h' ->
                       Hist.startingBalance h' = Hist.endingBalance h)
    /\ Forall entryOk arr.
Proof.
  intros Hids Hi.
  destruct (debts_iterate_lookup st n i d Hi) as (dn & Hn & Hid).
  destruct (history_inv st Hids n i dn Hn) as (arr & Harr & Hlen & Hch & Hdates & _ & Hok).
  rewrite Hid in Harr. exists arr. repeat split; assumption.
Qed.

Lemma X26_witness_default :
  exists arr,
    historiesAfter 2 defaultData !! 2%Z = Some arr /\ length arr = 2%nat.
Proof.
  assert (distinct_ids (debts defaultData)) as Hids.
  { unfold distinct_ids. apply (bool_decide_unpack _). vm_compute. exact I. }
  assert (debts defaultData !! 1%nat
          = Some (Debt.mk 2 "Visa 40" (1432618 # 100) 72 None 1500 (Some 18)))
    as Hi by reflexivity.
  destruct (X26_history_is_chained defaultData 2 1 _ Hids Hi)
    as (arr & H1 & H2 & _).
  exists arr. split; [exact H1|exact H2].
Defined.

(** X27: for the schedule of a card, with distinct debt ids and balances
    and rates that are not negative: the balance at the end of the history
    plus the total of the payments shown is at most the initial balance
    shown plus the total of interest and surcharge shown; and the payoff
    index is that of the first entry ending with at most 5, absent when
    every entry ends above 5. *)
Theorem X27_schedule_totals (st : AppState) (n i : nat) (d : Debt.t) :
  distinct_ids (debts st) ->
  debts_nonneg (debts st) ->
  debts st !! i = Some d ->
  exists arr,
    historiesAfter n st !! Debt.id d = Some arr
    /\ (forall first lst, head arr = Some first -> last arr = Some lst ->
          (Hist.endingBalance lst + (scheduleTotals arr).1.2
           <= Hist.startingBalance first + (scheduleTotals arr).1.1)%Q)
    /\ (forall k, (scheduleTotals arr).2 = Some k ->
          (exists h, arr !! k = Some h /\ (Hist.endingBalance h <= 5)%Q)
          /\ (forall j h, (j < k)%nat -> arr !! j = Some h ->
                          (5 < Hist.endingBalance h)%Q))
    /\ ((scheduleTotals arr).2 = None ->
        forall j h, arr !! j = Some h -> (5 < Hist.endingBalance h)%Q).
Proof.
  intros Hids Hnn Hi.
  destruct (debts_iterate_lookup st n i d Hi) as (dn & Hn & Hid).
  destruct (history_inv st Hids n i dn Hn) as (arr & Harr & _ & Hch & _ & _ & Hok).
  pose proof (history_nonneg st Hids Hnn n i dn arr Hn Harr) as Hnonneg.
  rewrite Hid in Harr. exists arr. split; [exact Harr|].
  split; [apply schedule_telescope; assumption|].
  pose proof (schedule_payoff arr) as Hp.
  split.
  - intros k Hk. rewrite Hk in Hp. exact Hp.
  - intros Hk. rewrite Hk in Hp. exact Hp.
Qed.

Lemma X27_witness_default :
  exists arr,
    historiesAfter 2 defaultData !! 3%Z = Some arr
    /\ (forall k, (scheduleTotals arr).2 = Some k ->
          exists h, arr !! k = Some h /\ (Hist.endingBalance h <= 5)%Q).
Proof.
  assert (distinct_ids (debts defaultData)) as Hids.
  { unfold distinct_ids. apply (bool_decide_unpack _). vm_compute. exact I. }
  assert (debts_nonneg (debts defaultData)) as Hnn.
  { unfold debts_nonneg, defaultData. simpl.
    repeat (constructor; [split; unfold Qle; simpl; lia|]). constructor. }
  assert (debts defaultData !! 2%nat
          = Some (Debt.mk 3 "Plata" 2500 99 None 400 (Some 12)))
    as Hi by reflexivity.
  destruct (X27_schedule_totals defaultData 2 2 _ Hids Hnn Hi)
    as (arr & H1 & _ & H2 & _).
  exists arr. split; [exact H1|]. intros k Hk. exact (proj1 (H2 k Hk)).
Defined.

(** ** The cards add up to the row *)

Section LedgerSums.
Local Open Scope Q_scope.

Lemma qsum_fmap_ext {A} (f g : A -> Q) (l : list A) :
  (forall x, x ∈ l -> f x == g x) -> qsum (f <$> l) == qsum (g <$> l).
Proof.
  induction l as [|x l IH]; intros H; [reflexivity|].
  rewrite !fmap_cons, !qsum_cons.
  assert (f x == g x) as Hx by (apply H; left).
  assert (qsum (f <$> l) == qsum (g <$> l)) as Hl
    by (apply IH; intros y Hy; apply H; now right).
  lra.
Qed.

Lemma ledgerSum_update {V} (f : option V -> Q) (ids : list Z) (L L' : gmap Z V)
    k delta :
  NoDup ids -> k ∈ ids ->
  (forall k', k' <> k -> L' !! k' = L !! k') ->
  f (L' !! k) == f (L !! k) + delta ->
  ledgerSum f ids L' == ledgerSum f ids L + delta.
Proof.
  unfold ledgerSum. intros Hn Hk Hother Hat.
  induction ids as [|x ids IH]; [inversion Hk|].
  apply NoDup_cons in Hn as [Hx Hn]. rewrite !fmap_cons, !qsum_cons.
  destruct (decide (x = k)) as [->|Hne].
  - rewrite Hat.
    rewrite (qsum_fmap_ext (λ j, f (L' !! j)) (λ j, f (L !! j)) ids).
    + ring.
    + intros j Hj. rewrite Hother; [reflexivity|]. intros ->. contradiction.
  - apply elem_of_cons in Hk as [Hk|Hk]; [congruence|].
    rewrite (IH Hn Hk), Hother by exact Hne. ring.
Qed.

Lemma ledgerSum_same {V} (f : option V -> Q) (ids : list Z) (L L' : gmap Z V) :
  (forall k, k ∈ ids -> f (L' !! k) == f (L !! k)) ->
  ledgerSum f ids L' == ledgerSum f ids L.
Proof. intros H. unfold ledgerSum. now apply qsum_fmap_ext. Qed.

(** The three totals kept over the records: minimums, extra payments and
    charges. *)
Let totals (ids : list Z) (L : gmap Z Rec.t) (a b c : Q) : Prop :=
  ledgerSum minPaidAt ids L == a
  /\ ledgerSum extraPaidAt ids L == b
  /\ ledgerSum chargeAt ids L == c.

Lemma recordMin_totals ids debt bal pay L a b c :
  NoDup ids -> Debt.id debt ∈ ids ->
  totals ids L a b c -> totals ids (recordMin debt bal pay L) (a + pay) b c.
Proof.
  intros Hn Hin (Ha & Hb & Hc).
  assert (forall k', k' <> Debt.id debt ->
                     recordMin debt bal pay L !! k' = L !! k') as Hother
    by (intros k' Hk; unfold recordMin; now rewrite lookup_insert_ne by congruence).
  unfold totals.
  rewrite (ledgerSum_update minPaidAt ids L _ (Debt.id debt) pay Hn Hin Hother), Ha.
  2:{ unfold recordMin. rewrite lookup_insert_eq.
      destruct (L !! Debt.id debt); simpl; reflexivity. }
  rewrite (ledgerSum_update extraPaidAt ids L _ (Debt.id debt) 0 Hn Hin Hother), Hb.
  2:{ unfold recordMin. rewrite lookup_insert_eq.
      destruct (L !! Debt.id debt); simpl; ring. }
  rewrite (ledgerSum_update chargeAt ids L _ (Debt.id debt) 0 Hn Hin Hother), Hc.
  2:{ unfold recordMin. rewrite lookup_insert_eq.
      destruct (L !! Debt.id debt); simpl; ring. }
  repeat split; ring.
Qed.

Lemma recordExtra_totals ids debt before bal pay L a b c :
  NoDup ids -> Debt.id debt ∈ ids ->
  totals ids L a b c -> totals ids (recordExtra debt before bal pay L) a (b + pay) c.
Proof.
  intros Hn Hin (Ha & Hb & Hc).
  assert (forall k', k' <> Debt.id debt ->
                     recordExtra debt before bal pay L !! k' = L !! k') as Hother
    by (intros k' Hk; unfold recordExtra; now rewrite lookup_insert_ne by congruence).
  unfold totals.
  rewrite (ledgerSum_update minPaidAt ids L _ (Debt.id debt) 0 Hn Hin Hother), Ha.
  2:{ unfold recordExtra. rewrite lookup_insert_eq.
      destruct (L !! Debt.id debt); simpl; ring. }
  rewrite (ledgerSum_update extraPaidAt ids L _ (Debt.id debt) pay Hn Hin Hother), Hb.
  2:{ unfold recordExtra. rewrite lookup_insert_eq.
      destruct (L !! Debt.id debt); simpl; reflexivity. }
  rewrite (ledgerSum_update chargeAt ids L _ (Debt.id debt) 0 Hn Hin Hother), Hc.
  2:{ unfold recordExtra. rewrite lookup_insert_eq.
      destruct (L !! Debt.id debt); simpl; ring. }
  repeat split; ring.
Qed.

Lemma totals_equiv ids L a a' b b' c c' :
  a == a' -> b == b' -> c == c' -> totals ids L a b c -> totals ids L a' b' c'.
Proof. intros Ha Hb Hc (H1 & H2 & H3). unfold totals. rewrite <- Ha, <- Hb, <- Hc. auto. Qed.

(** *** Minimums *)

Lemma payOneL_totals ids debt sL j sL' b c :
  NoDup ids -> Debt.id debt ∈ ids ->
  payOneL debt sL j = Some sL' ->
  totals ids sL.2 (p_paidMins sL.1) b c -> totals ids sL'.2 (p_paidMins sL'.1) b c.
Proof.
  intros Hn Hin. unfold payOneL.
  destruct (p_obs sL.1 !! j) as [ob|]; [|discriminate].
  destruct (qleb (Ob.amountRemaining ob) eps); [discriminate|].
  destruct (qleb _ 0); [discriminate|].
  intros H Ht. inversion H; subst; clear H. cbn [fst snd p_paidMins].
  now apply recordMin_totals.
Qed.

Lemma payObligationsL_totals ids debt js b c : forall sL,
  NoDup ids -> Debt.id debt ∈ ids ->
  totals ids sL.2 (p_paidMins sL.1) b c ->
  totals ids (payObligationsL debt js sL).2 (p_paidMins (payObligationsL debt js sL).1) b c.
Proof.
  induction js as [|j js IH]; intros sL Hn Hin Ht; simpl; [exact Ht|].
  destruct (qleb (p_cash sL.1) 0); [exact Ht|].
  destruct (payOneL debt sL j) as [sL'|] eqn:E; simpl; [|now apply IH].
  apply IH; [exact Hn|exact Hin|]. eapply payOneL_totals; eauto.
Qed.

Lemma settleDebtL_totals sL e b c :
  distinct_ids (s_debts sL.1) ->
  totals (Debt.id <$> s_debts sL.1) sL.2 (s_paidMins sL.1) b c ->
  totals (Debt.id <$> s_debts sL.1) (settleDebtL sL e).2
    (s_paidMins (settleDebtL sL e).1) b c.
Proof.
  intros Hn Ht. unfold settleDebtL.
  destruct (s_debts sL.1 !! MinEntry.ix e) as [debt|] eqn:Ed; [|exact Ht].
  cbn [fst snd s_paidMins].
  apply (payObligationsL_totals _ debt); [exact Hn| |exact Ht].
  apply list_elem_of_fmap_2. eapply list_elem_of_lookup_2; exact Ed.
Qed.

Lemma settle_foldL_totals es b c : forall sL,
  distinct_ids (s_debts sL.1) ->
  totals (Debt.id <$> s_debts sL.1) sL.2 (s_paidMins sL.1) b c ->
  totals (Debt.id <$> s_debts sL.1) (foldl settleDebtL sL es).2
    (s_paidMins (foldl settleDebtL sL es).1) b c.
Proof.
  induction es as [|e es IH]; intros sL Hn Ht; simpl; [exact Ht|].
  assert (Debt.id <$> s_debts (settleDebtL sL e).1 = Debt.id <$> s_debts sL.1) as Hids.
  { unfold settleDebtL.
    destruct (s_debts sL.1 !! MinEntry.ix e) as [debt|] eqn:Ed; [|reflexivity].
    cbn [fst s_debts]. now apply ids_insert_balance. }
  rewrite <- Hids. apply IH.
  - unfold distinct_ids. rewrite Hids. exact Hn.
  - rewrite Hids. now apply settleDebtL_totals.
Qed.

(** *** Strategy *)

Lemma payExtraL_totals sL i sL' a c :
  distinct_ids (x_debts sL.1) ->
  payExtraL sL i = Some sL' ->
  totals (Debt.id <$> x_debts sL.1) sL.2 a (logTotal (x_log sL.1)) c ->
  totals (Debt.id <$> x_debts sL.1) sL'.2 a (logTotal (x_log sL'.1)) c
  /\ Debt.id <$> x_debts sL'.1 = Debt.id <$> x_debts sL.1.
Proof.
  intros Hn. unfold payExtraL.
  destruct (x_debts sL.1 !! i) as [debt|] eqn:Ed; [|discriminate].
  destruct (qleb _ 0); [discriminate|].
  intros H Ht. inversion H; subst; clear H. cbn [fst snd x_log x_debts].
  split; [|now apply ids_insert_balance].
  rewrite logTotal_snoc. cbn [Log.amount].
  apply recordExtra_totals; [exact Hn| |exact Ht].
  apply list_elem_of_fmap_2. eapply list_elem_of_lookup_2; exact Ed.
Qed.

Lemma payOrderedL_totals ixs a c : forall sL,
  distinct_ids (x_debts sL.1) ->
  totals (Debt.id <$> x_debts sL.1) sL.2 a (logTotal (x_log sL.1)) c ->
  totals (Debt.id <$> x_debts sL.1) (payOrderedL ixs sL).2 a
    (logTotal (x_log (payOrderedL ixs sL).1)) c.
Proof.
  induction ixs as [|i ixs IH]; intros sL Hn Ht; simpl; [exact Ht|].
  destruct (qleb (x_extra sL.1) 1); [exact Ht|].
  destruct (payExtraL sL i) as [sL'|] eqn:E; simpl; [|now apply IH].
  destruct (payExtraL_totals sL i sL' a c Hn E Ht) as [H1 H2].
  rewrite <- H2. apply IH; [unfold distinct_ids; rewrite H2; exact Hn|].
  rewrite H2. exact H1.
Qed.

Lemma payFlatL_totals total sL i a c :
  distinct_ids (x_debts sL.1) ->
  totals (Debt.id <$> x_debts sL.1) sL.2 a (logTotal (x_log sL.1)) c ->
  totals (Debt.id <$> x_debts sL.1) (payFlatL total sL i).2 a
    (logTotal (x_log (payFlatL total sL i).1)) c
  /\ Debt.id <$> x_debts (payFlatL total sL i).1 = Debt.id <$> x_debts sL.1.
Proof.
  intros Hn Ht. unfold payFlatL.
  destruct (qleb (x_extra sL.1) 1); [split; [exact Ht|reflexivity]|].
  destruct (x_debts sL.1 !! i) as [debt|] eqn:Ed; [|split; [exact Ht|reflexivity]].
  destruct (qleb _ 0); [split; [exact Ht|reflexivity]|].
  cbn [fst snd x_log x_debts].
  split; [|now apply ids_insert_balance].
  rewrite logTotal_snoc. cbn [Log.amount].
  apply recordExtra_totals; [exact Hn| |exact Ht].
  apply list_elem_of_fmap_2. eapply list_elem_of_lookup_2; exact Ed.
Qed.

Lemma payFlat_foldL_totals total ixs a c : forall sL,
  distinct_ids (x_debts sL.1) ->
  totals (Debt.id <$> x_debts sL.1) sL.2 a (logTotal (x_log sL.1)) c ->
  totals (Debt.id <$> x_debts sL.1) (foldl (payFlatL total) sL ixs).2 a
    (logTotal (x_log (foldl (payFlatL total) sL ixs).1)) c.
Proof.
  induction ixs as [|i ixs IH]; intros sL Hn Ht; simpl; [exact Ht|].
  destruct (payFlatL_totals total sL i a c Hn Ht) as [H1 H2].
  rewrite <- H2. apply IH; [unfold distinct_ids; rewrite H2; exact Hn|].
  rewrite H2. exact H1.
Qed.

Lemma applyStrategyL_totals strategy0 cashAvailable currentDebts L a c :
  distinct_ids currentDebts ->
  totals (Debt.id <$> currentDebts) L a 0 c ->
  totals (Debt.id <$> currentDebts)
    (applyStrategyL strategy0 cashAvailable currentDebts L).2 a
    (logTotal (x_log (applyStrategyL strategy0 cashAvailable currentDebts L).1)) c.
Proof.
  intros Hn Ht.
  assert (totals (Debt.id <$> currentDebts) L a
            (logTotal (x_log (mkExtra cashAvailable currentDebts []))) c) as Ht'
    by exact Ht.
  unfold applyStrategyL. destruct (qltb 1 cashAvailable); [|exact Ht'].
  match goal with |- context [if ?c then _ else _] => destruct c end.
  - now apply (payFlat_foldL_totals _ _ a c
                 (mkExtra cashAvailable currentDebts [], L)).
  - now apply (payOrderedL_totals _ a c (mkExtra cashAvailable currentDebts [], L)).
Qed.

(** *** Accrual *)

Lemma accrueLedger_fresh l :
  map_Forall (λ _ r, Rec.minPaid r = 0 /\ Rec.extraPaid r = 0) (accrueLedger l).
Proof.
  unfold accrueLedger. induction l as [|x l IH] using rev_ind.
  - apply map_Forall_empty.
  - rewrite foldl_app. cbn [foldl]. unfold accrueRecord at 1.
    destruct (qleb (Debt.balance x) eps); [exact IH|].
    cbv zeta. apply map_Forall_insert_2; [split; reflexivity|exact IH].
Qed.

Lemma accrued_charges (l : list Debt.t) :
  qsum ((λ d, chargeAt (accrueRecord ∅ d !! Debt.id d)) <$> l) == periodCharges l.
Proof.
  unfold periodCharges. induction l as [|d l IH]; [reflexivity|].
  rewrite fmap_cons, qsum_cons, IH, filter_cons. unfold accrueRecord.
  change (qltb eps (Debt.balance d)) with (negb (qleb (Debt.balance d) eps)).
  destruct (qleb (Debt.balance d) eps) eqn:E; simpl negb.
  - rewrite decide_False by (intros H; discriminate H).
    rewrite lookup_empty. simpl. ring.
  - rewrite decide_True by reflexivity. cbv zeta.
    rewrite lookup_insert_eq, fmap_cons, qsum_cons. unfold totalCharge. simpl. ring.
Qed.

Lemma accrueLedger_totals l :
  distinct_ids l ->
  totals (Debt.id <$> l) (accrueLedger l) 0 0 (periodCharges l).
Proof.
  intros Hn. pose proof (accrueLedger_fresh l) as Hf. unfold totals, ledgerSum.
  rewrite <- !list_fmap_compose.
  split; [|split].
  - rewrite (qsum_fmap_ext _ (λ _, 0) l).
    + clear. induction l as [|d l IH]; [reflexivity|].
      rewrite fmap_cons, qsum_cons, IH. ring.
    + intros d _. unfold compose, minPaidAt.
      destruct (accrueLedger l !! Debt.id d) as [r|] eqn:E; simpl; [|reflexivity].
      now rewrite (proj1 (Hf _ _ E)).
  - rewrite (qsum_fmap_ext _ (λ _, 0) l).
    + clear. induction l as [|d l IH]; [reflexivity|].
      rewrite fmap_cons, qsum_cons, IH. ring.
    + intros d _. unfold compose, extraPaidAt.
      destruct (accrueLedger l !! Debt.id d) as [r|] eqn:E; simpl; [|reflexivity].
      now rewrite (proj2 (Hf _ _ E)).
  - rewrite <- accrued_charges. apply qsum_fmap_ext.
    intros d Hd. unfold compose. apply list_elem_of_lookup_1 in Hd as [i Hi].
    now rewrite (accrueLedger_lookup l i d Hn Hi).
Qed.

(** The records of a period add up to the minimums paid, to the strategy
    payments logged and to the charges of the period. *)
Lemma periodLedger_totals st s :
  distinct_ids (currentDebts s) ->
  let p := runPeriod st s in
  totals (Debt.id <$> currentDebts s) (periodLedger st s)
    (s_paidMins (settled p)) (logTotal (x_log (extraPaid p)))
    (periodCharges (currentDebts s)).
Proof.
  intros Hn p. set (L0 := accrueLedger (currentDebts s)).
  assert (Debt.id <$> accrued p = Debt.id <$> currentDebts s) as Hida
    by apply ids_accrue.
  assert (distinct_ids (accrued p)) as Hna
    by (unfold distinct_ids; rewrite Hida; exact Hn).
  pose proof (accrueLedger_totals (currentDebts s) Hn) as H0. fold L0 in H0.
  rewrite <- Hida in H0.
  pose proof (settle_foldL_totals (debtsForMin (accrued p) (rolled p)) 0
                (periodCharges (currentDebts s))
                (mkSettle (initialCash p) (accrued p) (rolled p) 0, L0) Hna H0) as H1.
  destruct (settle_foldL_ok L0 (debtsForMin (accrued p) (rolled p))
              (mkSettle (initialCash p) (accrued p) (rolled p) 0, L0) Hna
              (accrued_ledgerOk (currentDebts s) Hn))
    as [_ H2].
  change (foldl settleDebtL _ _)
    with (settleMinimumsL (initialCash p) (accrued p) (rolled p) L0) in H1, H2.
  set (afterMins := settleMinimumsL (initialCash p) (accrued p) (rolled p) L0) in *.
  assert (afterMins.1 = settled p) as Hs by apply settleMinimumsL_fst.
  cbn [fst snd s_debts] in H1, H2.
  assert (distinct_ids (s_debts afterMins.1)) as Hns
    by (unfold distinct_ids; rewrite H2; exact Hna).
  rewrite <- H2 in H1.
  pose proof (applyStrategyL_totals (strategy st) (s_cash afterMins.1)
                (s_debts afterMins.1) afterMins.2 _ _ Hns H1) as H3.
  rewrite applyStrategyL_fst in H3. rewrite H2, Hida in H3.
  change (extraPaid p)
    with (applyStrategy (strategy st) (s_cash (settled p)) (s_debts (settled p))).
  rewrite <- Hs. exact H3.
Qed.

End LedgerSums.

Lemma historyEntry_figures periodEnd o arr d :
  Hist.minPaid (historyEntry periodEnd o arr d) = minPaidAt o
  /\ Hist.extraPaid (historyEntry periodEnd o arr d) = extraPaidAt o
  /\ (Hist.interest (historyEntry periodEnd o arr d)
      + Hist.iva (historyEntry periodEnd o arr d) == chargeAt o)%Q.
Proof. destruct o; simpl; repeat split; reflexivity. Qed.

(** The entry that the period run after [n] periods leaves at position [n]
    of the history under an id of the profile. *)
Lemma history_entry_at st n k :
  distinct_ids (debts st) -> k ∈ Debt.id <$> debts st ->
  exists arr dc,
    (historiesAfter (S n) st !! k) ≫= (λ a, a !! n)
    = Some (historyEntry (periodEnd (runPeriod st (iterate n st)))
              (periodLedger st (iterate n st) !! k) arr dc).
Proof.
  intros Hids Hk. apply list_elem_of_fmap in Hk as (d & -> & Hd).
  apply list_elem_of_lookup_1 in Hd as [i Hi].
  destruct (debts_iterate_lookup st n i d Hi) as (dn & Hn & Hid).
  destruct (history_inv st Hids n i dn Hn) as (arr & Harr & Hlen & _).
  destruct (history_step st Hids n i dn Hn) as (dx & _ & _ & Hpush & _).
  rewrite Harr, Hid in Hpush.
  exists arr, (snapDebt dx). rewrite Hpush. cbn [fmap option_fmap option_map mbind option_bind].
  rewrite lookup_app_r by lia. rewrite Hlen, Nat.sub_diag. reflexivity.
Qed.

(** X28: with distinct debt ids, the entries that a period pushes on the
    histories of the cards add up to the row of that period: their minimum
    payments to the minimums paid, their extra payments to the total of the
    strategy payments logged, and their interest and surcharge to the
    increase of the interest total. *)
Theorem X28_cards_add_up_to_row (st : AppState) (n : nat) :
  distinct_ids (debts st) ->
  let H := historiesAfter (S n) st in
  let ids := Debt.id <$> debts st in
  exists row,
    simulationResults (iterate (S n) st) !! n = Some row
    /\ (cardsTotal Hist.minPaid H n ids == RowData.paidMins row)%Q
    /\ (cardsTotal Hist.extraPaid H n ids
        == logTotal (RowData.strategyDetails row))%Q
    /\ (cardsTotal (λ h, Hist.interest h + Hist.iva h)%Q H n ids
        == totalInterestPaid (iterate (S n) st) - totalInterestPaid (iterate n st))%Q.
Proof.
  intros Hids H ids.
  set (s := iterate n st). set (p := runPeriod st s).
  exists (rowData (S n) p). split; [apply results_lookup; lia|].
  assert (distinct_ids (currentDebts s)) as Hn by apply (distinct_iterate st Hids n).
  destruct (periodLedger_totals st s Hn) as (Hmin & Hextra & Hcharge).
  fold p in Hmin, Hextra, Hcharge.
  pose proof (ids_iterate st n) as Hidn. fold s in Hidn.
  rewrite Hidn in Hmin, Hextra, Hcharge. fold ids in Hmin, Hextra, Hcharge.
  assert (forall (f : Hist.t -> Q) (g : option Rec.t -> Q),
            (forall periodEnd o arr d, (f (historyEntry periodEnd o arr d) == g o)%Q) ->
            (cardsTotal f H n ids == ledgerSum g ids (periodLedger st s))%Q) as Hsum.
  { intros f g Hfg. unfold cardsTotal, ledgerSum. apply qsum_fmap_ext.
    intros k Hk. destruct (history_entry_at st n k Hids Hk) as (arr & dc & He).
    unfold H. rewrite He. simpl. apply Hfg. }
  split; [|split].
  - rewrite (Hsum Hist.minPaid minPaidAt), Hmin; [reflexivity|].
    intros pe o arr d. now rewrite (proj1 (historyEntry_figures pe o arr d)).
  - rewrite (Hsum Hist.extraPaid extraPaidAt), Hextra; [reflexivity|].
    intros pe o arr d. now rewrite (proj1 (proj2 (historyEntry_figures pe o arr d))).
  - rewrite (Hsum (λ h, Hist.interest h + Hist.iva h)%Q chargeAt), Hcharge.
    + change (totalInterestPaid (iterate (S n) st))
        with (foldl accrueTotal (totalInterestPaid s) (currentDebts s)).
      rewrite accrueTotal_fold. fold s. ring.
    + intros pe o arr d. apply historyEntry_figures.
Qed.

Lemma X28_witness_default :
  exists row,
    simulationResults (iterate 1 defaultData) !! 0%nat = Some row
    /\ (cardsTotal Hist.minPaid (historiesAfter 1 defaultData) 0
          (Debt.id <$> debts defaultData) == RowData.paidMins row)%Q.
Proof.
  assert (distinct_ids (debts defaultData)) as Hids.
  { unfold distinct_ids. apply (bool_decide_unpack _). vm_compute. exact I. }
  destruct (X28_cards_add_up_to_row defaultData 0 Hids) as (row & H1 & H2 & _).
  exists row. split; [exact H1|exact H2].
Defined.

(** ** The receipt of a period *)

Section MinPaidProjections.

Lemma payOneP_fst debt sM j : fst <$> payOneP debt sM j = payOne sM.1 j.
Proof.
  unfold payOneP, payOne. destruct (p_obs sM.1 !! j) as [ob|]; [|reflexivity].
  destruct (qleb (Ob.amountRemaining ob) eps); [reflexivity|].
  destruct (qleb _ 0); reflexivity.
Qed.

Lemma payObligationsP_fst debt js : forall sM,
  (payObligationsP debt js sM).1 = payObligations js sM.1.
Proof.
  induction js as [|j js IH]; intros sM; simpl; [reflexivity|].
  destruct (qleb (p_cash sM.1) 0); [reflexivity|].
  rewrite IH. f_equal. rewrite <- (payOneP_fst debt).
  destruct (payOneP debt sM j); reflexivity.
Qed.

Lemma settleDebtP_fst sM e : (settleDebtP sM e).1 = settleDebt sM.1 e.
Proof.
  unfold settleDebtP, settleDebt.
  destruct (s_debts sM.1 !! MinEntry.ix e) as [debt|]; [|reflexivity].
  cbn [fst]. rewrite payObligationsP_fst. reflexivity.
Qed.

Lemma settle_foldP_fst es : forall sM,
  (foldl settleDebtP sM es).1 = foldl settleDebt sM.1 es.
Proof.
  induction es as [|e es IH]; intros sM; simpl; [reflexivity|].
  rewrite IH, settleDebtP_fst. reflexivity.
Qed.

Lemma settleMinimumsP_fst cashAvailable currentDebts m :
  (settleMinimumsP cashAvailable currentDebts m).1
  = settleMinimums cashAvailable currentDebts m.
Proof. unfold settleMinimumsP. now rewrite settle_foldP_fst. Qed.

End MinPaidProjections.

Section MinPaidSums.
Local Open Scope Q_scope.

Lemma initMinPaid_at k M k' : paidAt (initMinPaid k M !! k') == paidAt (M !! k').
Proof.
  unfold initMinPaid. destruct (M !! k) as [v|] eqn:E.
  - destruct (Qeq_bool v 0) eqn:Ev; [|reflexivity].
    apply Qeq_bool_iff in Ev.
    destruct (decide (k' = k)) as [->|Hne].
    + rewrite lookup_insert_eq, E. simpl. now symmetry.
    + now rewrite lookup_insert_ne by congruence.
  - destruct (decide (k' = k)) as [->|Hne].
    + rewrite lookup_insert_eq, E. reflexivity.
    + now rewrite lookup_insert_ne by congruence.
Qed.

Lemma payOneP_other debt sM j sM' k :
  payOneP debt sM j = Some sM' -> k <> Debt.id debt -> sM'.2 !! k = sM.2 !! k.
Proof.
  unfold payOneP. destruct (p_obs sM.1 !! j) as [ob|]; [|discriminate].
  destruct (qleb (Ob.amountRemaining ob) eps); [discriminate|].
  destruct (qleb _ 0); [discriminate|].
  intros H Hk. inversion H; subst; clear H. cbn [snd]. unfold addMinPaid.
  now rewrite lookup_insert_ne by congruence.
Qed.

Lemma payObligationsP_other debt js k : forall sM,
  k <> Debt.id debt -> (payObligationsP debt js sM).2 !! k = sM.2 !! k.
Proof.
  induction js as [|j js IH]; intros sM Hk; simpl; [reflexivity|].
  destruct (qleb (p_cash sM.1) 0); [reflexivity|].
  destruct (payOneP debt sM j) as [sM'|] eqn:E; simpl; [|now apply IH].
  rewrite IH by exact Hk. eapply payOneP_other; eauto.
Qed.

Lemma payOneP_sum ids debt sM j sM' :
  NoDup ids -> Debt.id debt ∈ ids ->
  payOneP debt sM j = Some sM' ->
  ledgerSum paidAt ids sM.2 == p_paidMins sM.1 ->
  ledgerSum paidAt ids sM'.2 == p_paidMins sM'.1.
Proof.
  intros Hn Hin He Hs. pose proof (λ k, payOneP_other debt sM j sM' k He) as Hother.
  unfold payOneP in He. destruct (p_obs sM.1 !! j) as [ob|]; [|discriminate].
  destruct (qleb (Ob.amountRemaining ob) eps); [discriminate|].
  destruct (qleb _ 0); [discriminate|].
  inversion He; subst; clear He. cbn [fst snd p_paidMins] in *.
  rewrite (ledgerSum_update paidAt ids sM.2 _ (Debt.id debt)
             (min3 (p_cash sM.1) (Ob.amountRemaining ob) (p_balance sM.1))
             Hn Hin).
  - now rewrite Hs.
  - intros k' Hk. now apply Hother.
  - unfold addMinPaid. rewrite lookup_insert_eq. reflexivity.
Qed.

Lemma payObligationsP_sum ids debt js : forall sM,
  NoDup ids -> Debt.id debt ∈ ids ->
  ledgerSum paidAt ids sM.2 == p_paidMins sM.1 ->
  ledgerSum paidAt ids (payObligationsP debt js sM).2
  == p_paidMins (payObligationsP debt js sM).1.
Proof.
  induction js as [|j js IH]; intros sM Hn Hin Hs; simpl; [exact Hs|].
  destruct (qleb (p_cash sM.1) 0); [exact Hs|].
  destruct (payOneP debt sM j) as [sM'|] eqn:E; simpl; [|now apply IH].
  apply IH; [exact Hn|exact Hin|]. eapply payOneP_sum; eauto.
Qed.

Lemma settleDebtP_ids sM e :
  Debt.id <$> s_debts (settleDebtP sM e).1 = Debt.id <$> s_debts sM.1.
Proof.
  unfold settleDebtP.
  destruct (s_debts sM.1 !! MinEntry.ix e) as [debt|] eqn:Ed; [|reflexivity].
  cbn [fst s_debts]. now apply ids_insert_balance.
Qed.

Lemma settleDebtP_sum sM e :
  distinct_ids (s_debts sM.1) ->
  ledgerSum paidAt (Debt.id <$> s_debts sM.1) sM.2 == s_paidMins sM.1 ->
  ledgerSum paidAt (Debt.id <$> s_debts sM.1) (settleDebtP sM e).2
  == s_paidMins (settleDebtP sM e).1.
Proof.
  intros Hn Hs. unfold settleDebtP.
  destruct (s_debts sM.1 !! MinEntry.ix e) as [debt|] eqn:Ed; [|exact Hs].
  cbn [fst snd s_paidMins].
  apply (payObligationsP_sum _ debt); [exact Hn| |].
  - apply list_elem_of_fmap_2. eapply list_elem_of_lookup_2; exact Ed.
  - cbn [fst snd p_paidMins]. rewrite <- Hs. apply ledgerSum_same.
    intros k _. apply initMinPaid_at.
Qed.

Lemma settle_foldP_sum es : forall sM,
  distinct_ids (s_debts sM.1) ->
  ledgerSum paidAt (Debt.id <$> s_debts sM.1) sM.2 == s_paidMins sM.1 ->
  ledgerSum paidAt (Debt.id <$> s_debts sM.1) (foldl settleDebtP sM es).2
  == s_paidMins (foldl settleDebtP sM es).1.
Proof.
  induction es as [|e es IH]; intros sM Hn Hs; simpl; [exact Hs|].
  rewrite <- (settleDebtP_ids sM e). apply IH.
  - unfold distinct_ids. rewrite settleDebtP_ids. exact Hn.
  - rewrite settleDebtP_ids. now apply settleDebtP_sum.
Qed.

(** *** Debts without a queue *)

Lemma settleDebtP_unqueued sM e :
  (forall k, s_obligations sM.1 !! k = None -> paidAt (sM.2 !! k) == 0) ->
  forall k, s_obligations (settleDebtP sM e).1 !! k = None ->
            paidAt ((settleDebtP sM e).2 !! k) == 0.
Proof.
  intros Hz k. unfold settleDebtP.
  destruct (s_debts sM.1 !! MinEntry.ix e) as [debt|]; [|apply Hz].
  cbn [fst snd s_obligations]. unfold obsOf.
  destruct (s_obligations sM.1 !! Debt.id debt) as [obs0|] eqn:Eq; simpl.
  - intros Hk. destruct (decide (k = Debt.id debt)) as [->|Hne].
    + rewrite lookup_insert_eq in Hk. discriminate.
    + rewrite lookup_insert_ne in Hk by congruence.
      rewrite payObligationsP_other by exact Hne. cbn [snd].
      rewrite initMinPaid_at. now apply Hz.
  - intros Hk. rewrite initMinPaid_at. now apply Hz.
Qed.

Lemma settle_foldP_unqueued es : forall sM,
  (forall k, s_obligations sM.1 !! k = None -> paidAt (sM.2 !! k) == 0) ->
  forall k, s_obligations (foldl settleDebtP sM es).1 !! k = None ->
            paidAt ((foldl settleDebtP sM es).2 !! k) == 0.
Proof.
  induction es as [|e es IH]; intros sM Hz; simpl; [exact Hz|].
  apply IH. now apply settleDebtP_unqueued.
Qed.

(** *** The total of the receipt *)

Lemma receiptTotalMin_acc l : forall a,
  foldl (λ totalMin (m : string * Q), totalMin + m.2) a l == a + receiptTotalMin l.
Proof.
  unfold receiptTotalMin. induction l as [|x l IH]; intros a; simpl; [ring|].
  rewrite IH, (IH (0 + x.2)). ring.
Qed.

Lemma receiptTotalMin_cons x l : receiptTotalMin (x :: l) == x.2 + receiptTotalMin l.
Proof. unfold receiptTotalMin at 1. simpl. rewrite receiptTotalMin_acc. ring. Qed.

Lemma receiptTotalMin_spec (D : list Debt.t) m M :
  (forall k, m !! k = None -> paidAt (M !! k) == 0) ->
  (forall k, m !! k <> Some []) ->
  receiptTotalMin (minDetailsPaid D m M) == ledgerSum paidAt (Debt.id <$> D) M.
Proof.
  intros Hz Hne. unfold ledgerSum, minDetailsPaid.
  induction D as [|d D IH]; [reflexivity|].
  rewrite !fmap_cons, qsum_cons. cbn [omap list_omap]. rewrite <- IH.
  destruct (m !! Debt.id d) as [[|o obs]|] eqn:E.
  - exfalso. exact (Hne _ E).
  - rewrite receiptTotalMin_cons. reflexivity.
  - rewrite (Hz _ E). ring.
Qed.

End MinPaidSums.

(** X29: with distinct debt ids, the total of minimums shown on the receipt
    of a period, the sum of the amounts paid in the breakdown of minimums,
    is the amount of minimums paid in the row; so the receipt balances: the
    cash available less the minimums, the strategy payments and the savings
    shown is the remainder of the period, which is the amount pocketed when
    it is not negative. *)
Theorem X29_receipt_balances (st : AppState) (n : nat) :
  distinct_ids (debts st) ->
  let s := iterate n st in
  let p := runPeriod st s in
  let entries :=
    minDetailsPaid (s_debts (settled p)) (s_obligations (settled p))
      (periodMinPaid st s) in
  let totalMin := receiptTotalMin entries in
  (totalMin == s_paidMins (settled p))%Q
  /\ (initialCash p - totalMin - logTotal (x_log (extraPaid p))
      - logTotal (g_log (funded p)) == g_extra (funded p))%Q
  /\ ((0 <= g_extra (funded p))%Q -> pocket p = g_extra (funded p)).
Proof.
  intros Hids s p entries totalMin.
  assert (distinct_ids (accrued p)) as Hna.
  { unfold distinct_ids. change (accrued p) with (accrueDebt <$> currentDebts s).
    rewrite ids_accrue. apply (distinct_iterate st Hids n). }
  set (sM0 := (mkSettle (initialCash p) (accrued p) (rolled p) 0,
               (∅ : gmap Z Q))).
  set (es := debtsForMin (accrued p) (rolled p)).
  assert ((foldl settleDebtP sM0 es).1 = settled p) as Hfst
    by apply (settleMinimumsP_fst (initialCash p) (accrued p) (rolled p)).
  assert (ledgerSum paidAt (Debt.id <$> s_debts sM0.1) sM0.2 == s_paidMins sM0.1)%Q
    as H0.
  { unfold ledgerSum, sM0. cbn [fst snd s_debts s_paidMins].
    generalize (accrued p). intros l.
    induction l as [|d l IH]; [reflexivity|].
    rewrite !fmap_cons, qsum_cons, IH, lookup_empty. simpl. ring. }
  pose proof (settle_foldP_sum es sM0 Hna H0) as Hsum.
  assert (forall k, s_obligations sM0.1 !! k = None -> (paidAt (sM0.2 !! k) == 0)%Q)
    as Hz0 by (intros k _; simpl; rewrite lookup_empty; reflexivity).
  pose proof (settle_foldP_unqueued es sM0 Hz0) as Hz.
  assert (Debt.id <$> s_debts (foldl settleDebtP sM0 es).1 = Debt.id <$> s_debts sM0.1)
    as Hidf.
  { clear. generalize sM0. induction es as [|e es IH]; intros sM; [reflexivity|].
    simpl. rewrite IH. apply settleDebtP_ids. }
  rewrite Hfst in Hz, Hidf. rewrite <- Hidf, Hfst in Hsum.
  change ((foldl settleDebtP sM0 es).2) with (periodMinPaid st s) in Hz, Hsum.
  assert (totalMin == s_paidMins (settled p))%Q as Htotal.
  { unfold totalMin, entries. rewrite receiptTotalMin_spec; [exact Hsum|exact Hz|].
    intros k Hk.
    pose proof (queues_sized_iterate st (S n) k [] Hk) as [Hlen _].
    simpl in Hlen. lia. }
  split; [exact Htotal|]. split.
  - pose proof (period_cash st s) as Hc. cbv zeta in Hc. fold p in Hc. lra.
  - intros Hnonneg. change (pocket p) with (qmax 0 (g_extra (funded p))).
    unfold qmax. apply qleb_true in Hnonneg. now rewrite Hnonneg.
Qed.

Lemma X29_witness_default :
  let p := runPeriod defaultData (iterate 0 defaultData) in
  (receiptTotalMin
     (minDetailsPaid (s_debts (settled p)) (s_obligations (settled p))
        (periodMinPaid defaultData (iterate 0 defaultData)))
   == s_paidMins (settled p))%Q.
Proof.
  assert (distinct_ids (debts defaultData)) as Hids.
  { unfold distinct_ids. apply (bool_decide_unpack _). vm_compute. exact I. }
  exact (proj1 (X29_receipt_balances defaultData 0 Hids)).
Defined.

(** ** The list of events *)

Section SortOn.
Context {A : Type} (leb : A -> A -> bool) (P : A -> Prop).
Hypothesis leb_total_on : forall a b, P a -> P b -> leb a b = true \/ leb b a = true.
Hypothesis leb_trans_on : forall a b c, P a -> P b -> P c ->
  leb a b = true -> leb b c = true -> leb a c = true.

Lemma sort_insert_sorted_on x l :
  P x -> Forall P l ->
  StronglySorted (λ a b, leb a b = true) l ->
  StronglySorted (λ a b, leb a b = true) (sort_insert leb x l).
Proof.
  intros Hx Hl Hs. induction l as [|y l IH]; simpl.
  - repeat constructor.
  - inversion Hs as [|? ? Hs' Hall]; subst.
    inversion Hl as [|? ? Hy Hl']; subst.
    destruct (leb x y) eqn:E.
    + constructor; [exact Hs|]. constructor; [exact E|].
      rewrite Forall_forall in Hall, Hl' |- *. intros z Hz.
      apply (leb_trans_on x y z); auto.
    + constructor; [now apply IH|].
      rewrite sort_insert_perm. constructor; [|exact Hall].
      destruct (leb_total_on x y Hx Hy) as [H|H]; [congruence|exact H].
Qed.

Lemma stable_sort_sorted_on l :
  Forall P l -> StronglySorted (λ a b, leb a b = true) (stable_sort leb l).
Proof.
  induction l as [|x l IH]; intros Hl; simpl; [constructor|].
  inversion Hl as [|? ? Hx Hl']; subst.
  apply sort_insert_sorted_on; [exact Hx| |now apply IH].
  change (foldr (sort_insert leb) [] l) with (stable_sort leb l).
  now rewrite stable_sort_perm.
Qed.

End SortOn.

Lemma parse_rawOfYMD p :
  ymd_year p <> 0 -> ymd_month p <> 0 -> ymd_day p <> 0 ->
  parseYMD (rawOfYMD p) = Some p.
Proof.
  intros Hy Hm Hd. destruct p as [y m d]. unfold parseYMD, rawOfYMD, falsy. simpl in *.
  apply Z.eqb_neq in Hy, Hm, Hd. now rewrite Hy, Hm, Hd.
Qed.

Lemma event_leb_spec a b :
  wellFormedDate a -> wellFormedDate b ->
  (event_leb a b = true <-> ymd_le (Ev.date a) (Ev.date b)).
Proof.
  intros (Ha1 & Ha2 & Ha3) (Hb1 & Hb2 & Hb3). unfold event_leb, ymd_le.
  destruct (compareYMD_parsed _ _ _ _ (parse_rawOfYMD _ Ha1 Ha2 Ha3)
              (parse_rawOfYMD _ Hb1 Hb2 Hb3)) as [Hlt Heq].
  rewrite Z.leb_le. split.
  - intros H. apply Z.le_lteq in H as [H|H].
    + apply Hlt in H. lia.
    + apply Heq in H. rewrite H. lia.
  - intros H.
    destruct (Z.eq_dec (ymd_day (Ev.date a)) (ymd_day (Ev.date b))) as [Ed|Ed].
    + destruct H as [H|[H1 [H|[H2 _]]]].
      * apply Z.lt_le_incl, Hlt. lia.
      * apply Z.lt_le_incl, Hlt. lia.
      * assert (Ev.date a = Ev.date b) as E
          by (destruct (Ev.date a), (Ev.date b); simpl in *; congruence).
        apply Heq in E. lia.
    + apply Z.lt_le_incl, Hlt. lia.
Qed.

Lemma omap_indexed_snd (events l : list Ev.t) :
  (forall ev, ev ∈ l -> ev ∈ events) ->
  (omap (λ ev, (λ i, (i, ev)) <$> originalIndex events ev) l).*2 = l.
Proof.
  induction l as [|x l IH]; intros Hin; [reflexivity|].
  cbn [omap list_omap]. unfold originalIndex at 1.
  destruct (list_find_elem_of (λ e, Ev.id e = Ev.id x) events x) as [[i y] Hf];
    [apply Hin; left|reflexivity|].
  rewrite Hf. simpl. f_equal. apply IH. intros ev Hev. apply Hin. now right.
Qed.

(** X30: when the dates of the events have three non-zero parts, the list
    of events shows every event once, in ascending order of (year, month,
    day); the index that an entry opens is the first position of the
    profile that holds an event with the id of the entry, so with distinct
    ids it is the position of the event shown. *)
Theorem X30_events_shown_in_date_order (events : list Ev.t) :
  Forall wellFormedDate events ->
  let shown := renderEvents events in
  shown.*2 ≡ₚ events
  /\ StronglySorted (λ a b, ymd_le (Ev.date a.2) (Ev.date b.2)) shown
  /\ (forall i ev, (i, ev) ∈ shown ->
        ev ∈ events
        /\ (exists e, events !! i = Some e /\ Ev.id e = Ev.id ev)
        /\ (forall j e, (j < i)%nat -> events !! j = Some e -> Ev.id e <> Ev.id ev))
  /\ (NoDup (Ev.id <$> events) ->
      forall i ev, (i, ev) ∈ shown -> events !! i = Some ev).
Proof.
  intros Hwf shown.
  assert (forall ev, ev ∈ stable_sort event_leb events -> ev ∈ events) as Hin
    by (intros ev; now rewrite stable_sort_perm).
  assert (shown.*2 = stable_sort event_leb events) as Hsnd
    by (apply omap_indexed_snd; exact Hin).
  assert (forall i ev, (i, ev) ∈ shown ->
            ev ∈ events /\ originalIndex events ev = Some i) as Hshown.
  { intros i ev Hi. unfold shown, renderEvents in Hi.
    apply list_elem_of_omap in Hi as (ev' & Hev' & Hf).
    destruct (originalIndex events ev') as [i'|] eqn:Eo; [|discriminate].
    simpl in Hf. inversion Hf; subst. split; [now apply Hin|exact Eo]. }
  split; [rewrite Hsnd; apply stable_sort_perm|].
  split.
  { assert (StronglySorted (λ a b, ymd_le (Ev.date a) (Ev.date b)) shown.*2) as Hs.
    { rewrite Hsnd.
      assert (Forall wellFormedDate (stable_sort event_leb events)) as Hwf'
        by (rewrite stable_sort_perm; exact Hwf).
      pose proof (stable_sort_sorted_on event_leb wellFormedDate) as Hsorted.
      specialize (Hsorted
        (λ a b Ha Hb, ltac:(rewrite !event_leb_spec by assumption;
                            unfold ymd_le; lia))).
      specialize (Hsorted
        (λ a b c Ha Hb Hc, ltac:(rewrite !event_leb_spec by assumption;
                                 unfold ymd_le; lia))).
      specialize (Hsorted events Hwf).
      clear Hsnd Hshown Hin. revert Hwf'.
      induction Hsorted as [|x l Hs IH Hall]; intros Hwf'; constructor.
      - apply IH. now inversion Hwf'.
      - inversion Hwf' as [|? ? Hx Hl]; subst.
        rewrite Forall_forall in Hall, Hl |- *. intros y Hy.
        apply event_leb_spec; auto. }
    clear Hsnd Hshown. induction shown as [|x l IH]; [constructor|].
    rewrite fmap_cons in Hs. inversion Hs as [|? ? Hs' Hall]; subst.
    constructor; [now apply IH|].
    rewrite Forall_fmap in Hall. exact Hall. }
  split.
  - intros i ev Hi. destruct (Hshown i ev Hi) as (Hev & Ho).
    split; [exact Hev|]. unfold originalIndex in Ho.
    destruct (list_find (λ e, Ev.id e = Ev.id ev) events) as [[i' e]|] eqn:Ef;
      [|discriminate].
    simpl in Ho. inversion Ho; subst i'.
    apply list_find_Some in Ef as (He & Hid & Hfirst).
    split; [exists e; split; assumption|].
    intros j e' Hj He'. exact (Hfirst j e' He' Hj).
  - intros Hnd i ev Hi. destruct (Hshown i ev Hi) as (Hev & Ho).
    unfold originalIndex in Ho.
    destruct (list_find (λ e, Ev.id e = Ev.id ev) events) as [[i' e]|] eqn:Ef;
      [|discriminate].
    simpl in Ho. inversion Ho; subst i'.
    apply list_find_Some in Ef as (He & Hid & _).
    apply list_elem_of_lookup_1 in Hev as [j Hj].
    assert (i = j) as ->; [|exact Hj].
    eapply (NoDup_lookup _ i j (Ev.id ev)); [exact Hnd| |].
    + now rewrite list_lookup_fmap, He, <- Hid.
    + now rewrite list_lookup_fmap, Hj.
Qed.

Lemma X30_witness_default :
  (renderEvents (events defaultData)).*2 ≡ₚ events defaultData.
Proof.
  apply (X30_events_shown_in_date_order (events defaultData)).
  unfold defaultData. simpl.
  repeat (constructor; [unfold wellFormedDate; simpl; lia|]). constructor.
Defined.
